(** * Method of successive averages: a shallow embedding of
    [successive_averages.py] and the properties of its shortest-path search,
    its assignment loop and its convergence evaluation.

    Python objects are mutable and shared by reference.  The node list [N]
    and the edge list [E] are therefore modelled as stores: a [Node] or
    [Edge] reference is its position in the list, a route is a list of edge
    positions, and every function that mutates nodes or edges takes the
    store and gives back the new one.  Exceptions are modelled by [Raise],
    a loop that never ends by [Diverges].

    Numbers are Python floats.  The development is generic in the arithmetic
    (class [Num]); it is instantiated with exact rationals, where the
    arithmetic laws needed by some properties hold, and with binary64
    floats, which is what the interpreter computes with. *)

From Stdlib Require Import List String Ascii ZArith QArith Qround Bool Arith Lia Lqa.
From Stdlib Require Import Floats.
Import ListNotations.

Local Open Scope string_scope.
Local Open Scope list_scope.
Local Open Scope nat_scope.

(** ** Outcomes of a Python computation *)

Inductive exn : Type :=
| IndexError
| ValueError
| KeyError
| OverflowError
| ZeroDivisionError
| NameError (var : string)
| AttributeError (attr : string).

Inductive result (A : Type) : Type :=
| Ok (a : A)
| Raise (e : exn)
| Diverges.

Arguments Ok {A} a.
Arguments Raise {A} e.
Arguments Diverges {A}.

Definition bind {A B : Type} (m : result A) (k : A -> result B) : result B :=
  match m with
  | Ok a => k a
  | Raise e => Raise e
  | Diverges => Diverges
  end.

Declare Scope py_scope.
Delimit Scope py_scope with py.
Notation "x <- m ;; k" := (bind m (fun x => k))
  (at level 61, m at next level, right associativity) : py_scope.
Notation "' p <- m ;; k" := (bind m (fun p => k))
  (at level 61, p pattern, m at next level, right associativity) : py_scope.
Local Open Scope py_scope.

Definition is_ok {A : Type} (r : result A) : bool :=
  match r with Ok _ => true | _ => false end.

(** ** Arithmetic of the interpreter *)

(** [nround] is Python's [round(x)]: the nearest integer, ties to even; it
    raises on a value that is not finite.  [nint] is [int(x)]: the integer
    part, towards zero; it raises on a value that is not finite too. *)
Class Num (F : Type) : Type := {
  nof_Z : Z -> F;
  nadd : F -> F -> F;
  nsub : F -> F -> F;
  nmul : F -> F -> F;
  ndiv : F -> F -> F;
  nltb : F -> F -> bool;
  neqb : F -> F -> bool;
  nround : F -> result Z;
  nint : F -> result Z
}.

(** [a / b], which raises [ZeroDivisionError] when [b == 0]. *)
Definition py_div {F : Type} `{Num F} (a b : F) : result F :=
  if neqb b (nof_Z 0) then Raise ZeroDivisionError else Ok (ndiv a b).

(** [max(a, b)] returns [a] unless [b > a]. *)
Definition py_max {F : Type} `{Num F} (a b : F) : F :=
  if nltb a b then b else a.

(** ** Lists as stores and dictionaries *)

Fixpoint update {A : Type} (l : list A) (i : nat) (x : A) : list A :=
  match l, i with
  | [], _ => []
  | _ :: l', O => x :: l'
  | y :: l', S i' => y :: update l' i' x
  end.

Definition enumerate {A : Type} (l : list A) : list (nat * A) :=
  combine (seq 0 (List.length l)) l.

(** A Python [dict] with string keys, in insertion order. *)
Definition dict (V : Type) : Type := list (string * V).

Fixpoint dict_get {V : Type} (d : dict V) (k : string) : option V :=
  match d with
  | [] => None
  | (k', v) :: d' => if String.eqb k' k then Some v else dict_get d' k
  end.

Fixpoint dict_set {V : Type} (d : dict V) (k : string) (v : V) : dict V :=
  match d with
  | [] => [(k, v)]
  | (k', v') :: d' =>
      if String.eqb k' k then (k', v) :: d' else (k', v') :: dict_set d' k v
  end.

Definition dict_mem {V : Type} (d : dict V) (k : string) : bool :=
  match dict_get d k with Some _ => true | None => false end.

Definition keys {V : Type} (d : dict V) : list string := map fst d.

(** [d[k]], which raises [KeyError] on a missing key. *)
Definition dict_item {V : Type} (d : dict V) (k : string) : result V :=
  match dict_get d k with Some v => Ok v | None => Raise KeyError end.

(** [s.split(c)] for a one-character separator. *)
Fixpoint split (c : ascii) (s : string) : list string :=
  match s with
  | EmptyString => [EmptyString]
  | String a s' =>
      if Ascii.eqb a c then EmptyString :: split c s'
      else match split c s' with
           | [] => [String a EmptyString]
           | h :: t => String a h :: t
           end
  end.

Definition bar : ascii := "|"%char.

(** ** Nodes and edges *)

Module Node.
Record t (F : Type) : Type := mk {
  name : string;      (* name of the node *)
  dist : F;           (* distance to this node from start node *)
  prev : option nat;  (* previous node to this node (a reference into N) *)
  flag : nat          (* access flag *)
}.
Arguments mk {F} _ _ _ _.
Arguments name {F} _.
Arguments dist {F} _.
Arguments prev {F} _.
Arguments flag {F} _.
End Node.

(** The edge's [function], [params] and [var] only ever meet in
    [update_cost], which binds the variable to the flow and evaluates the
    expression: together they are the map [function] from flow to cost. *)
Module Edge.
Record t (F : Type) : Type := mk {
  name : string;
  start : string;
  end_ : string;
  function : F -> F;
  flow : F;
  cost : F;
  aux_flow : F
}.
Arguments mk {F} _ _ _ _ _ _ _.
Arguments name {F} _.
Arguments start {F} _.
Arguments end_ {F} _.
Arguments function {F} _.
Arguments flow {F} _.
Arguments cost {F} _.
Arguments aux_flow {F} _.
End Edge.

Section MSA.

Context {F : Type} `{NumF : Num F}.

Local Abbreviation Node := (Node.t F).
Local Abbreviation Edge := (Edge.t F).

(** The distance given to a node no path has reached yet. *)
Definition INF : F := nof_Z 1000000.

Definition Node_init (name : string) : Node := Node.mk name INF None 0.

Definition update_cost (e : Edge) : Edge :=
  Edge.mk (Edge.name e) (Edge.start e) (Edge.end_ e) (Edge.function e)
          (Edge.flow e) (Edge.function e (Edge.flow e)) (Edge.aux_flow e).

Definition Edge_init (start end_ : string) (function : F -> F) : Edge :=
  update_cost
    (Edge.mk (start ++ "-" ++ end_)%string start end_ function
             (nof_Z 0) (nof_Z 0) (nof_Z 0)).

(** What a node or edge reference outside the store would read; references
    are positions handed out by the store itself, so it is never read. *)
Definition no_node : Node := Node_init "".
Definition no_edge : Edge :=
  Edge.mk "" "" "" (fun x => x) (nof_Z 0) (nof_Z 0) (nof_Z 0).

Definition node_at (N : list Node) (i : nat) : Node := nth i N no_node.
Definition edge_at (E : list Edge) (i : nat) : Edge := nth i E no_edge.

(** ** Shortest paths *)

Definition resetGraph (N : list Node) : list Node :=
  map (fun node => Node.mk (Node.name node) INF None 0) N.

Fixpoint first_unflagged (i : nat) (N : list Node) : option nat :=
  match N with
  | [] => None
  | node :: N' =>
      if Node.flag node =? 0 then Some i else first_unflagged (S i) N'
  end.

Fixpoint scan_smaller (i : nat) (N : list Node) (m : nat) (md : F) : nat :=
  match N with
  | [] => m
  | node :: N' =>
      if (Node.flag node =? 0) && nltb (Node.dist node) md
      then scan_smaller (S i) N' i (Node.dist node)
      else scan_smaller (S i) N' m md
  end.

Definition pickSmallestNode (N : list Node) : option nat :=
  match first_unflagged 0 N with
  | None => None
  | Some m => Some (scan_smaller 0 N m (Node.dist (node_at N m)))
  end.

Definition pickEdgesList (u : Node) (E : list Edge) : list (nat * Edge) :=
  filter (fun ie => String.eqb (Edge.start (snd ie)) (Node.name u))
         (enumerate E).

Fixpoint find_node (i : nat) (N : list Node) (nm : string) : option nat :=
  match N with
  | [] => None
  | node :: N' =>
      if String.eqb (Node.name node) nm then Some i
      else find_node (S i) N' nm
  end.

Definition set_flag (N : list Node) (u : nat) : list Node :=
  let nu := node_at N u in
  update N u (Node.mk (Node.name nu) (Node.dist nu) (Node.prev nu) 1).

Definition set_label (N : list Node) (j : nat) (d : F) (u : nat) : list Node :=
  let nj := node_at N j in
  update N j (Node.mk (Node.name nj) d (Some u) (Node.flag nj)).

(** The [for edge in uv] loop of [dijkstra]; [n] is the variable of the same
    name, which keeps its last value when no node has the edge's end name. *)
Fixpoint relax (N : list Node) (u : nat) (ignoredEdges : list nat)
         (uv : list (nat * Edge)) (n : option nat) : result (list Node) :=
  match uv with
  | [] => Ok N
  | (i, edge) :: uv' =>
      if existsb (Nat.eqb i) ignoredEdges then relax N u ignoredEdges uv' n
      else
        let n' := match find_node 0 N (Edge.end_ edge) with
                  | Some j => Some j
                  | None => n
                  end in
        match n' with
        | None => Raise (AttributeError "dist")
        | Some j =>
            let d := nadd (Node.dist (node_at N u)) (Edge.cost edge) in
            let N' := if nltb d (Node.dist (node_at N j))
                      then set_label N j d u else N in
            relax N' u ignoredEdges uv' n'
        end
  end.

Definition ref_eqb (a b : option nat) : bool :=
  match a, b with
  | None, None => true
  | Some i, Some j => Nat.eqb i j
  | _, _ => false
  end.

(** The [while u != None] loop.  Every round flags a node that was not
    flagged, so [length N] rounds are enough; [Diverges] is what is left
    when the rounds are used up. *)
Fixpoint dijkstra_loop (rounds : nat) (N : list Node) (E : list Edge)
         (ignoredEdges : list nat) (dest u : option nat) : result (list Node) :=
  match u with
  | None => Ok N
  | Some ui =>
      match rounds with
      | O => Diverges
      | S rounds' =>
          let N1 := set_flag N ui in
          let uv := pickEdgesList (node_at N1 ui) E in
          N2 <- relax N1 ui ignoredEdges uv None;;
          let u' := pickSmallestNode N2 in
          if ref_eqb u' dest then Ok N2
          else dijkstra_loop rounds' N2 E ignoredEdges dest u'
      end
  end.

Definition set_origin (N : list Node) (origin : string) : list Node :=
  map (fun node =>
         if String.eqb (Node.name node) origin
         then Node.mk (Node.name node) (nof_Z 0) (Node.prev node) (Node.flag node)
         else node) N.

Fixpoint find_dest (i : nat) (N : list Node) (destination : string)
         (dest : option nat) : option nat :=
  match N with
  | [] => dest
  | node :: N' =>
      find_dest (S i) N' destination
                (if String.eqb (Node.name node) destination then Some i else dest)
  end.

(** The path reconstruction.  The predecessor links are not written while
    they are followed, so a walk longer than the number of nodes has met a
    node twice and goes round for ever. *)
Fixpoint walk_back (steps : nat) (N : list Node) (u : nat) (S : list nat)
  : result (list nat) :=
  match Node.prev (node_at N u) with
  | None => Ok (u :: S)
  | Some p =>
      match steps with
      | O => Diverges
      | Datatypes.S steps' => walk_back steps' N p (u :: S)
      end
  end.

Definition dijkstra (N : list Node) (E : list Edge) (origin destination : string)
           (ignoredEdges : list nat) : result (list Node * list nat) :=
  let N0 := set_origin (resetGraph N) origin in
  let dest := find_dest 0 N0 destination None in
  N1 <- dijkstra_loop (List.length N0) N0 E ignoredEdges dest (pickSmallestNode N0);;
  match dest with
  | None => Raise (AttributeError "prev")
  | Some d =>
      S <- walk_back (List.length N1) N1 d [];;
      Ok (N1, S)
  end.

(** A path of [dijkstra] is a list of node references, read through the
    node store it was computed in. *)
Fixpoint find_edge (i : nat) (E : list Edge) (s e : string) : option nat :=
  match E with
  | [] => None
  | edge :: E' =>
      if String.eqb (Edge.start edge) s && String.eqb (Edge.end_ edge) e
      then Some i else find_edge (S i) E' s e
  end.

Fixpoint path_edges (N : list Node) (E : list Edge) (prev : option nat)
         (P : list nat) : result (list nat) :=
  match P with
  | [] => Ok []
  | node :: P' =>
      match prev with
      | None => path_edges N E (Some node) P'
      | Some p =>
          match find_edge 0 E (Node.name (node_at N p))
                          (Node.name (node_at N node)) with
          | None => Raise IndexError
          | Some e =>
              path <- path_edges N E (Some node) P';;
              Ok (e :: path)
          end
      end
  end.

Definition getPathAsEdges (N : list Node) (P : list nat) (E : list Edge)
  : result (list nat) :=
  path_edges N E None P.

(** [pathToStr] on a list of edges, which is what [run_MSA] calls it on; the
    test [type(path[0]) is Node] reads [path[0]] first. *)
Definition pathToStr (path : list nat) (E : list Edge) : result string :=
  match path with
  | [] => Raise IndexError
  | _ :: _ =>
      Ok (fold_left
            (fun strout e =>
               ((if String.eqb strout "" then strout else strout ++ " - ")
                  ++ Edge.name (edge_at E e))%string)
            path "")
  end.

(** ** The assignment loop *)

(** [od_routes_flow[od][route_str] = [route, flow]]. *)
Definition routes_flow : Type := dict (list nat * F).
Definition od_table : Type := dict routes_flow.
Definition min_table : Type := dict (string * list nat).

Definition clear_aux (e : Edge) : Edge :=
  Edge.mk (Edge.name e) (Edge.start e) (Edge.end_ e) (Edge.function e)
          (Edge.flow e) (Edge.cost e) (nof_Z 0).

(** One round of the all-or-nothing loop [for od in OD_matrix]. *)
Definition od_step (E : list Edge)
           (st : list Node * od_table * min_table) (od : string)
  : result (list Node * od_table * min_table) :=
  let '(N, od_routes_flow, min_routes) := st in
  match split bar od with
  | [o; d] =>
      '(N', P) <- dijkstra N E o d [];;
      route <- getPathAsEdges N' P E;;
      route_str <- pathToStr route E;;
      let min_routes' := dict_set min_routes od (route_str, route) in
      routes <- dict_item od_routes_flow od;;
      if dict_mem routes route_str
      then Ok (N', od_routes_flow, min_routes')
      else Ok (N',
               dict_set od_routes_flow od
                        (dict_set routes route_str (route, nof_Z 0)),
               min_routes')
  | _ => Raise ValueError
  end.

Fixpoint all_or_nothing (E : list Edge)
         (st : list Node * od_table * min_table) (ods : list string)
  : result (list Node * od_table * min_table) :=
  match ods with
  | [] => Ok st
  | od :: ods' => st' <- od_step E st od;; all_or_nothing E st' ods'
  end.

Definition add_aux (E : list Edge) (e : nat) (vna : F) : list Edge :=
  let edge := edge_at E e in
  update E e
         (Edge.mk (Edge.name edge) (Edge.start edge) (Edge.end_ edge)
                  (Edge.function edge) (Edge.flow edge) (Edge.cost edge)
                  (nadd (Edge.aux_flow edge) vna)).

(** The route flow of the current iteration. *)
Definition blend_flow (phi vna fa : F) : F :=
  py_max (nadd (nmul (nsub (nof_Z 1) phi) vna) (nmul phi fa)) (nof_Z 0).

(** The loop [for route in od_routes_flow[od]]: [best] and [demand] are
    [min_routes[od][0]] and [OD_matrix[od]]. *)
Fixpoint blend_routes (phi : F) (best : string) (demand : F)
         (routes : routes_flow) (E : list Edge) : routes_flow * list Edge :=
  match routes with
  | [] => ([], E)
  | (route_str, (route, vna)) :: routes' =>
      let fa := if String.eqb route_str best then demand else nof_Z 0 in
      let vna' := blend_flow phi vna fa in
      let E' := fold_left (fun E0 e => add_aux E0 e vna') route E in
      let '(routes'', E'') := blend_routes phi best demand routes' E' in
      ((route_str, (route, vna')) :: routes'', E'')
  end.

(** One round of the blending loop [for od in OD_matrix].  The body reads
    [min_routes[od]] and [OD_matrix[od]] once a route is there to blend;
    [od] is a key of both, so reading them ahead of the routes changes
    nothing. *)
Definition blend_od (phi : F) (OD_matrix : dict F) (min_routes : min_table)
           (st : od_table * list Edge) (od : string)
  : result (od_table * list Edge) :=
  let '(od_routes_flow, E) := st in
  routes <- dict_item od_routes_flow od;;
  match routes with
  | [] => Ok st
  | _ :: _ =>
      m <- dict_item min_routes od;;
      demand <- dict_item OD_matrix od;;
      let '(routes', E') := blend_routes phi (fst m) demand routes E in
      Ok (dict_set od_routes_flow od routes', E')
  end.

Fixpoint blend (phi : F) (OD_matrix : dict F) (min_routes : min_table)
         (st : od_table * list Edge) (ods : list string)
  : result (od_table * list Edge) :=
  match ods with
  | [] => Ok st
  | od :: ods' =>
      st' <- blend_od phi OD_matrix min_routes st od;;
      blend phi OD_matrix min_routes st' ods'
  end.

Definition apply_flow (e : Edge) : Edge :=
  update_cost
    (Edge.mk (Edge.name e) (Edge.start e) (Edge.end_ e) (Edge.function e)
             (Edge.aux_flow e) (Edge.cost e) (Edge.aux_flow e)).

Record state : Type := mkState {
  nodes : list Node;
  edges : list Edge;
  table : od_table
}.

(** Iteration [n] of [run_MSA]. *)
Definition msa_iteration (OD_matrix : dict F) (n : nat) (st : state)
  : result state :=
  let phi := ndiv (nof_Z 1) (nof_Z (Z.of_nat n)) in
  let E1 := map clear_aux (edges st) in
  '(N1, tbl1, min_routes) <-
     all_or_nothing E1 (nodes st, table st, []) (keys OD_matrix);;
  '(tbl2, E2) <- blend phi OD_matrix min_routes (tbl1, E1) (keys OD_matrix);;
  Ok (mkState N1 (map apply_flow E2) tbl2).

Definition init_table (OD_matrix : dict F) : od_table :=
  map (fun od => (fst od, [])) OD_matrix.

(** The state after the iterations [1 .. its]. *)
Fixpoint msa_loop (OD_matrix : dict F) (its : nat) (st : state) : result state :=
  match its with
  | O => Ok st
  | S k =>
      st' <- msa_loop OD_matrix k st;;
      msa_iteration OD_matrix (S k) st'
  end.

(** ** The convergence evaluation *)

(** What [evaluate_assignment] writes per route and at the end of the file,
    the deviations as [int(sum_deviations)]; the file itself, its name and
    the formats are left out. *)
Record row : Type := mkRow {
  row_od : string;
  row_route : string;
  row_flow : F;
  row_cost : F;
  row_deviations : F
}.

Record report : Type := mkReport {
  rows : list row;
  average_travel_time : F;
  deviations : Z;
  AEC : F
}.

Record totals : Type := mkTotals {
  sum_tt : F;
  sum_deviations : F;
  delta_top : F;
  delta_bottom : F
}.

(** The loop [for e in od_routes_flow[od][route][0]], on [(cost, sum_tt)]. *)
Definition route_edges_cost (E : list Edge) (route : list nat) (flow : F)
           (acc : F * F) : F * F :=
  fold_left
    (fun cs e =>
       (nadd (fst cs) (Edge.cost (edge_at E e)),
        nadd (snd cs) (nmul (Edge.cost (edge_at E e)) flow)))
    route acc.

(** [round(cost * 100) / 100]. *)
Definition round2 (cost : F) : result F :=
  r <- nround (nmul cost (nof_Z 100));;
  Ok (ndiv (nof_Z r) (nof_Z 100)).

(** [min_cost] starts at [float('inf')], modelled by [None]. *)
Definition lower_min (cost : F) (min_cost : option F) : option F :=
  match min_cost with
  | None => Some cost
  | Some m => if nltb cost m then Some cost else Some m
  end.

(** The loop [for route in od_routes_flow[od]], on
    [(sum_tt, min_cost, aux)]. *)
Fixpoint eval_routes (E : list Edge) (od : string) (routes : routes_flow)
         (acc : F * option F * list (string * string * F * F))
  : result (F * option F * list (string * string * F * F)) :=
  match routes with
  | [] => Ok acc
  | (route_str, (route, flow)) :: routes' =>
      let '(stt, min_cost, aux) := acc in
      let '(cost0, stt') := route_edges_cost E route flow (nof_Z 0, stt) in
      cost <- round2 cost0;;
      eval_routes E od routes'
                  (stt', lower_min cost min_cost,
                   (aux ++ [(od, route_str, flow, cost)])%list)
  end.

(** The loop [for e in aux], on [(sum_deviations, delta_top, rows)]. *)
Definition eval_aux (min_cost : F) (aux : list (string * string * F * F))
           (acc : F * F * list row) : F * F * list row :=
  fold_left
    (fun a e =>
       let '(dev, top, rs) := a in
       let '(od, route, flow, cost) := e in
       let deviations := if nltb min_cost cost then flow else nof_Z 0 in
       let dev' := if nltb min_cost cost then nadd dev deviations else dev in
       (dev', nadd top (nmul flow (nsub cost min_cost)),
        (rs ++ [mkRow od route flow cost deviations])%list))
    aux acc.

(** The loop [for od in od_routes_flow]. *)
Fixpoint eval_ods (OD_matrix : dict F) (E : list Edge) (tbl : od_table)
         (acc : totals * list row) : result (totals * list row) :=
  match tbl with
  | [] => Ok acc
  | (od, routes) :: tbl' =>
      let '(t, rs) := acc in
      '(stt, min_cost, aux) <- eval_routes E od routes (sum_tt t, None, []);;
      let '(dev, top, rs') :=
        match min_cost with
        | Some m => eval_aux m aux (sum_deviations t, delta_top t, rs)
        | None => (sum_deviations t, delta_top t, rs)  (* aux is empty *)
        end in
      demand <- dict_item OD_matrix od;;
      eval_ods OD_matrix E tbl'
               (mkTotals stt dev top (nadd (delta_bottom t) demand), rs')
  end.

(** [sum([x for x in OD_matrix.values()])]. *)
Definition total_demand (OD_matrix : dict F) : F :=
  fold_left nadd (map snd OD_matrix) (nof_Z 0).

Definition evaluate_assignment (OD_matrix : dict F) (od_routes_flow : od_table)
           (edge_list : list Edge) (output : bool) : result (F * report) :=
  '(t, rs) <- eval_ods OD_matrix edge_list od_routes_flow
                (mkTotals (nof_Z 0) (nof_Z 0) (nof_Z 0) (nof_Z 0), []);;
  UE <- py_div (sum_tt t) (total_demand OD_matrix);;
  if output then
    dev <- nint (sum_deviations t);;
    aec <- py_div (delta_top t) (delta_bottom t);;
    Ok (UE, mkReport rs UE dev aec)
  else Raise (NameError "fh").

(** [run_MSA] gives back [UE] and the route-flow table; the nodes and edges
    it has written to are the caller's objects. *)
Definition run_MSA (its : nat) (N : list Node) (E : list Edge)
           (OD_matrix : dict F) (output : bool)
  : result (F * report * state) :=
  st <- msa_loop OD_matrix its (mkState N E (init_table OD_matrix));;
  r <- evaluate_assignment OD_matrix (table st) (edges st) output;;
  Ok (r, st).

(** ** Reading an [od] line *)

(** [float(s)] is the interpreter's; [None] stands for its [ValueError]. *)
Variable float_of_string : string -> option F.

Definition tag (taglist : list string) (i : nat) : result string :=
  match nth_error taglist i with
  | Some s => Ok s
  | None => Raise IndexError
  end.

(** The branch [elif taglist[0] == 'od'] of [generateGraph]. *)
Definition generateGraph_od (taglist : list string) (OD : dict F)
  : result (dict F) :=
  o <- tag taglist 2;;
  d <- tag taglist 3;;
  if String.eqb o d then Ok OD
  else
    s <- tag taglist 4;;
    match float_of_string s with
    | None => Raise ValueError
    | Some demand =>
        od <- tag taglist 1;;
        Ok (dict_set OD od demand)
    end.

End MSA.

(** ** Exact rational arithmetic *)

(** Nearest integer, ties to even. *)
Definition Qround_even (q : Q) : Z :=
  let f := Qfloor q in
  match Qcompare (q - inject_Z f) (1 # 2) with
  | Lt => f
  | Gt => (f + 1)%Z
  | Eq => if Z.even f then f else (f + 1)%Z
  end.

Definition Qltb (a b : Q) : bool :=
  match Qcompare a b with Lt => true | _ => false end.

(** The integer part, towards zero. *)
Definition Qtrunc (q : Q) : Z := Z.quot (Qnum q) (Z.pos (Qden q)).

#[export] Instance Q_Num : Num Q := {
  nof_Z := inject_Z;
  nadd := Qplus;
  nsub := Qminus;
  nmul := Qmult;
  ndiv := Qdiv;
  nltb := Qltb;
  neqb := Qeq_bool;
  nround := fun q => Ok (Qround_even q);
  nint := fun q => Ok (Qtrunc q)
}.

(** ** Binary64 arithmetic *)

(** The integer nearest to [m * 2^e], ties to even. *)
Definition round_scaled (m e : Z) : Z :=
  if (0 <=? e)%Z then (m * 2 ^ e)%Z
  else
    let d := (2 ^ (- e))%Z in
    let q := (m / d)%Z in
    match (2 * (m mod d) ?= d)%Z with
    | Lt => q
    | Gt => (q + 1)%Z
    | Eq => if Z.even q then q else (q + 1)%Z
    end.

Definition float_round (x : float) : result Z :=
  match Prim2SF x with
  | S754_zero _ => Ok 0%Z
  | S754_finite s m e =>
      let r := round_scaled (Z.pos m) e in
      Ok (if s then (- r)%Z else r)
  | S754_infinity _ => Raise OverflowError
  | S754_nan => Raise ValueError
  end.

(** The integer part of [m * 2^e], for [m] positive. *)
Definition trunc_scaled (m e : Z) : Z :=
  if (0 <=? e)%Z then (m * 2 ^ e)%Z else (m / 2 ^ (- e))%Z.

Definition float_int (x : float) : result Z :=
  match Prim2SF x with
  | S754_zero _ => Ok 0%Z
  | S754_finite s m e =>
      let r := trunc_scaled (Z.pos m) e in
      Ok (if s then (- r)%Z else r)
  | S754_infinity _ => Raise OverflowError
  | S754_nan => Raise ValueError
  end.

Definition float_of_Z (z : Z) : float :=
  SF2Prim (binary_normalize prec emax z 0 false).

#[export] Instance float_Num : Num float := {
  nof_Z := float_of_Z;
  nadd := PrimFloat.add;
  nsub := PrimFloat.sub;
  nmul := PrimFloat.mul;
  ndiv := PrimFloat.div;
  nltb := PrimFloat.ltb;
  neqb := PrimFloat.eqb;
  nround := float_round;
  nint := float_int
}.

(** ** Notions the properties are stated with *)

Section Notions.

Context {F : Type} `{NumF : Num F}.

Definition names (N : list (Node.t F)) : list string := map Node.name N.

(** The nodes still to be settled. *)
Definition unflagged (N : list (Node.t F)) : nat :=
  List.length (filter (fun node => Node.flag node =? 0) N).

(** One round of the [while] loop of [dijkstra] on the node [u]: flag it
    and relax its edges. *)
Definition round (E : list (Edge.t F)) (ignoredEdges : list nat)
           (N : list (Node.t F)) (u : nat) : result (list (Node.t F)) :=
  let N1 := set_flag N u in
  relax N1 u ignoredEdges (pickEdgesList (node_at N1 u) E) None.

(** [d] can be reached from [o] along edges of [E]. *)
Inductive reach (E : list (Edge.t F)) (o : string) : string -> Prop :=
| reach_here : reach E o o
| reach_edge (e : Edge.t F) :
    reach E o (Edge.start e) -> In e E -> reach E o (Edge.end_ e).

(** Every route tracked in [tbl] is tracked in [tbl'], for the same pair and
    with the same edges. *)
Definition tracked_in (tbl tbl' : @od_table F) : Prop :=
  forall od routes,
    dict_get tbl od = Some routes ->
    exists routes',
      dict_get tbl' od = Some routes' /\
      forall r route v,
        dict_get routes r = Some (route, v) ->
        exists v', dict_get routes' r = Some (route, v').

(** The shortest route of the pair [od] on the edges [E], searched from
    nodes of the names [nms] that no search has touched: its name and its
    edges. *)
Definition best_route (nms : list string) (E : list (Edge.t F)) (od : string)
  : result (string * list nat) :=
  match split bar od with
  | [o; d] =>
      '(N', P) <- dijkstra (map Node_init nms) E o d [];;
      route <- getPathAsEdges N' P E;;
      route_str <- pathToStr route E;;
      Ok (route_str, route)
  | _ => Raise ValueError
  end.

(** All of an edge but its auxiliary flow. *)
Definition fixed_part (e : Edge.t F)
  : string * string * string * (F -> F) * F * F :=
  (Edge.name e, Edge.start e, Edge.end_ e, Edge.function e,
   Edge.flow e, Edge.cost e).

(** What the routes through the edge [i] add to its auxiliary flow [a], in
    the order of the blending loops: one route, the routes of a pair, the
    pairs [ods] of a table. *)
Definition route_adds (i : nat) (route : list nat) (v : F) (a : F) : F :=
  fold_left (fun a0 e => if Nat.eqb e i then nadd a0 v else a0) route a.

Definition routes_adds (i : nat) (routes : @routes_flow F) (a : F) : F :=
  fold_left (fun a0 x => route_adds i (fst (snd x)) (snd (snd x)) a0) routes a.

Definition table_adds (i : nat) (ods : list string) (tbl : @od_table F)
           (a : F) : F :=
  fold_left
    (fun a0 od =>
       match dict_get tbl od with
       | Some routes => routes_adds i routes a0
       | None => a0
       end) ods a.

(** [g] on the edge of an enumerated pair. *)
Definition on_snd (g : Edge.t F -> Edge.t F) (ie : nat * Edge.t F)
  : nat * Edge.t F :=
  (fst ie, g (snd ie)).

End Notions.

(** Neither the flow nor the auxiliary flow of an edge is negative. *)
Definition aux_nonneg (E : list (Edge.t Q)) : Prop :=
  Forall (fun e : Edge.t Q =>
            (0 <= Edge.flow e)%Q /\ (0 <= Edge.aux_flow e)%Q) E.


(** ** What the evaluation computes, in exact arithmetic *)

Definition Qsum (l : list Q) : Q := fold_right Qplus 0%Q l.

(** The sum of the current costs of the edges of a route. *)
Definition raw_cost (E : list (Edge.t Q)) (route : list nat) : Q :=
  fold_left (fun c e => (c + Edge.cost (edge_at E e))%Q) route (inject_Z 0).

(** That sum rounded to two decimal places. *)
Definition rounded_cost (E : list (Edge.t Q)) (route : list nat) : Q :=
  (inject_Z (Qround_even (raw_cost E route * inject_Z 100)) / inject_Z 100)%Q.

(** Flow times cost of a tracked route, on the cost as it is and, as the
    specification words it, on the rounded cost. *)
Definition route_time (E : list (Edge.t Q)) (x : string * (list nat * Q)) : Q :=
  (snd (snd x) * raw_cost E (fst (snd x)))%Q.

Definition spec_route_time (E : list (Edge.t Q))
           (x : string * (list nat * Q)) : Q :=
  (snd (snd x) * rounded_cost E (fst (snd x)))%Q.

(** The total over all routes of all pairs. *)
Definition system_time (E : list (Edge.t Q)) (tbl : @od_table Q) : Q :=
  Qsum (map (route_time E) (flat_map snd tbl)).

Definition spec_system_time (E : list (Edge.t Q)) (tbl : @od_table Q) : Q :=
  Qsum (map (spec_route_time E) (flat_map snd tbl)).

(** The pair, the route, its flow and its rounded cost, for every route of
    the table. *)
Definition route_rows (E : list (Edge.t Q)) (od : string)
           (routes : @routes_flow Q) : list (string * string * Q * Q) :=
  map (fun y => (od, fst y, snd (snd y), rounded_cost E (fst (snd y)))) routes.

Definition expected_rows (E : list (Edge.t Q)) (tbl : @od_table Q)
  : list (string * string * Q * Q) :=
  flat_map (fun x => route_rows E (fst x) (snd x)) tbl.

Definition row_fields (r : @row Q) : string * string * Q * Q :=
  (row_od r, row_route r, row_flow r, row_cost r).

(** [OD_matrix[od]] for the keys [ks]. *)
Definition demands_of (OD : dict Q) (ks : list string) : list Q :=
  map (fun k => match dict_get OD k with Some d => d | None => 0%Q end) ks.

(** No route of the table and no edge carries a negative flow. *)
Definition table_nonneg (tbl : @od_table Q) : Prop :=
  Forall (fun x => Forall (fun y => (0 <= snd (snd y))%Q) (snd x)) tbl.

Definition flows_nonneg (st : @state Q) : Prop :=
  Forall (fun e => (0 <= Edge.flow e)%Q) (edges st) /\ table_nonneg (table st).

(** A node that has been given a distance or a predecessor lies on a path
    from the origin [o], and no distance exceeds the initial one. *)
Definition labels_sound (E : list (Edge.t Q)) (o : string)
           (N : list (Node.t Q)) : Prop :=
  Forall (fun node =>
            (Node.dist node <= INF)%Q /\
            (Node.prev node <> None \/ (Node.dist node < INF)%Q ->
             reach E o (Node.name node))) N.

(** The string has no ["|"] in it. *)
Definition bar_free (s : string) : Prop := ~ In bar (list_ascii_of_string s).

(** [o + "|" + d]. *)
Definition od_key (o d : string) : string := (o ++ String bar d)%string.

(** ** Networks the properties are tried on *)

Definition constant (c : Q) : Q -> Q := fun _ => c.

(** Four nodes, two routes from A to D with constant costs 3 and 5. *)
Definition diamond_nodes : list (Node.t Q) :=
  map Node_init ["A"; "B"; "C"; "D"].

Definition diamond_edges : list (Edge.t Q) :=
  [Edge_init "A" "B" (constant 1); Edge_init "B" "D" (constant 2);
   Edge_init "A" "C" (constant 2); Edge_init "C" "D" (constant 3)].

Definition diamond_demand : dict Q := [("A|D", 10%Q)].

Definition diamond_table : @od_table Q :=
  [("A|D", [("A-B - B-D", ([0; 1], 10%Q))])].

(** One edge whose cost, 0.004, rounds to 0.00. *)
Definition cheap_nodes : list (Node.t Q) := map Node_init ["A"; "B"].

Definition cheap_edges : list (Edge.t Q) :=
  [Edge_init "A" "B" (constant (1 # 250))].

Definition cheap_demand : dict Q := [("A|B", 1%Q)].



(** The same two nodes and one edge in binary64. *)
Definition float_nodes : list (Node.t float) := map Node_init ["A"; "B"].

Definition float_edges : list (Edge.t float) :=
  [Edge_init "A" "B" (fun _ => 1%float)].

Definition float_demand : dict float := [("A|B", 10%float)].

Definition diamond_start : state :=
  mkState diamond_nodes diamond_edges (init_table diamond_demand).

(** ** Further notions *)

Section MoreNotions.

Context {F : Type} `{NumF : Num F}.

(** What makes an edge the edge it is: its name, its ends and its cost
    function. *)
Definition topology (e : Edge.t F) : string * string * string * (F -> F) :=
  (Edge.name e, Edge.start e, Edge.end_ e, Edge.function e).

(** The cost of the edge is its function at its flow, and no auxiliary flow
    is pending. *)
Definition up_to_date (e : Edge.t F) : Prop :=
  Edge.cost e = Edge.function e (Edge.flow e) /\
  Edge.aux_flow e = Edge.flow e.

End MoreNotions.

Section BlendNotions.

Context {F : Type} `{NumF : Num F}.

(** The routes of a pair after blending, the edges left aside. *)
Definition blend_flows (phi : F) (best : string) (demand : F)
           (routes : @routes_flow F) : @routes_flow F :=
  map (fun y =>
         (fst y,
          (fst (snd y),
           blend_flow phi (snd (snd y))
                      (if String.eqb (fst y) best then demand else nof_Z 0))))
      routes.

End BlendNotions.

(** The flow a pair has on all its routes together. *)
Definition pair_flow (routes : @routes_flow Q) : Q :=
  Qsum (map (fun y => snd (snd y)) routes).

(** No pair tracks two routes under one name. *)
Definition route_keys_distinct (tbl : @od_table Q) : Prop :=
  Forall (fun x => NoDup (keys (snd x))) tbl.

Section PathNotions.

Context {F : Type} `{NumF : Num F}.

(** Each node of [rest] has the node before it as predecessor, [a] being
    before the first. *)
Fixpoint links (N : list (Node.t F)) (a : nat) (rest : list nat) : Prop :=
  match rest with
  | [] => True
  | b :: rest' => Node.prev (node_at N b) = Some a /\ links N b rest'
  end.

(** A chain of predecessors from a node that has none. *)
Definition prev_path (N : list (Node.t F)) (P : list nat) : Prop :=
  match P with
  | [] => False
  | a :: rest => Node.prev (node_at N a) = None /\ links N a rest
  end.

(** Some edge that is not ignored goes from the node [a] to the node [b]. *)
Definition joined_by (E : list (Edge.t F)) (ign : list nat)
           (N : list (Node.t F)) (a b : nat) : Prop :=
  exists i edge,
    nth_error E i = Some edge /\ existsb (Nat.eqb i) ign = false /\
    Edge.start edge = Node.name (node_at N a) /\
    Edge.end_ edge = Node.name (node_at N b).

(** Every predecessor was set along an edge. *)
Definition labels_on_edges (E : list (Edge.t F)) (ign : list nat)
           (N : list (Node.t F)) : Prop :=
  forall j u, Node.prev (node_at N j) = Some u -> joined_by E ign N u j.

(** The edges of [route] go from node to node along [a :: rest]. *)
Fixpoint follows (N : list (Node.t F)) (E : list (Edge.t F)) (a : nat)
         (rest : list nat) (route : list nat) : Prop :=
  match rest, route with
  | [], [] => True
  | b :: rest', e :: route' =>
      e < List.length E /\
      Edge.start (edge_at E e) = Node.name (node_at N a) /\
      Edge.end_ (edge_at E e) = Node.name (node_at N b) /\
      follows N E b rest' route'
  | _, _ => False
  end.

(** Every edge ends at a node. *)
Definition closed (E : list (Edge.t F)) (N : list (Node.t F)) : Prop :=
  Forall (fun e => In (Edge.end_ e) (names N)) E.

End PathNotions.

(** ** The order in which nodes are settled *)

(** The nodes that are flagged. *)
Definition flagged_count (N : list (Node.t Q)) : nat :=
  List.length N - unflagged N.

(** What the labels look like during a search from [o] on costs that are
    not negative; [rank] is the order in which the flagged nodes were
    flagged.  A predecessor is a flagged node at a distance under the
    initial one, flagged before the node it labels; distances lie between
    0 and the initial one; a node named [o] keeps distance 0 and no
    predecessor, any other node without predecessor keeps the initial
    distance. *)
Definition labels_ordered (o : string) (rank : nat -> nat)
           (N : list (Node.t Q)) : Prop :=
  (forall j, j < List.length N ->
             Node.flag (node_at N j) = 0 \/ Node.flag (node_at N j) = 1) /\
  (forall j u, Node.prev (node_at N j) = Some u ->
               u < List.length N /\ Node.flag (node_at N u) = 1 /\
               (Node.dist (node_at N u) < INF)%Q /\
               (Node.flag (node_at N j) = 1 -> rank u < rank j)) /\
  (forall j, j < List.length N -> Node.flag (node_at N j) = 1 ->
             rank j < flagged_count N) /\
  (forall j, j < List.length N ->
             (0 <= Node.dist (node_at N j))%Q /\
             (Node.dist (node_at N j) <= INF)%Q) /\
  (forall j, j < List.length N -> Node.name (node_at N j) = o ->
             Node.prev (node_at N j) = None /\
             (Node.dist (node_at N j) <= 0)%Q) /\
  (forall j, j < List.length N -> Node.prev (node_at N j) = None ->
             Node.name (node_at N j) <> o -> Node.dist (node_at N j) = INF).

(** No flagged node is farther than a node that is not flagged. *)
Definition settled_first (N : list (Node.t Q)) : Prop :=
  forall i j, i < List.length N -> j < List.length N ->
              Node.flag (node_at N i) = 1 -> Node.flag (node_at N j) = 0 ->
              (Node.dist (node_at N i) <= Node.dist (node_at N j))%Q.

(** The node [u] has just been flagged: it is the farthest flagged node and
    no node that is not flagged is nearer. *)
Definition relaxing (u : nat) (N : list (Node.t Q)) : Prop :=
  u < List.length N /\ Node.flag (node_at N u) = 1 /\
  (forall i, i < List.length N -> Node.flag (node_at N i) = 1 ->
             (Node.dist (node_at N i) <= Node.dist (node_at N u))%Q) /\
  (forall j, j < List.length N -> Node.flag (node_at N j) = 0 ->
             (Node.dist (node_at N u) <= Node.dist (node_at N j))%Q).

(** ** Least cost *)

Section WalkNotions.

Context {F : Type} `{NumF : Num F}.

(** The two node names an edge joins. *)
Definition endpoints (e : Edge.t F) : string * string :=
  (Edge.start e, Edge.end_ e).

(** [w] lists edges of [E] that are not ignored and lead from [x] to [z],
    each starting where the one before ends. *)
Inductive walk (E : list (Edge.t F)) (ign : list nat)
  : string -> list nat -> string -> Prop :=
| walk_stay (x : string) : walk E ign x [] x
| walk_step (x z : string) (i : nat) (w : list nat) :
    i < List.length E -> existsb (Nat.eqb i) ign = false ->
    Edge.start (edge_at E i) = x ->
    walk E ign (Edge.end_ (edge_at E i)) w z ->
    walk E ign x (i :: w) z.

End WalkNotions.

(** Every label is the label of the predecessor plus the cost of an edge
    from it that is not ignored. *)
Definition labels_exact (E : list (Edge.t Q)) (ign : list nat)
           (N : list (Node.t Q)) : Prop :=
  forall j u, Node.prev (node_at N j) = Some u ->
              exists i, i < List.length E /\ existsb (Nat.eqb i) ign = false /\
                        Edge.start (edge_at E i) = Node.name (node_at N u) /\
                        Edge.end_ (edge_at E i) = Node.name (node_at N j) /\
                        Node.dist (node_at N j)
                        = (Node.dist (node_at N u) + Edge.cost (edge_at E i))%Q.

(** No edge out of a flagged node other than [skip] could lower a label. *)
Definition relaxed_but (skip : option nat) (E : list (Edge.t Q))
           (ign : list nat) (N : list (Node.t Q)) : Prop :=
  forall v i j,
    v < List.length N -> Node.flag (node_at N v) = 1 -> Some v <> skip ->
    i < List.length E -> existsb (Nat.eqb i) ign = false ->
    Edge.start (edge_at E i) = Node.name (node_at N v) ->
    find_node 0 N (Edge.end_ (edge_at E i)) = Some j ->
    (Node.dist (node_at N j)
     <= Node.dist (node_at N v) + Edge.cost (edge_at E i))%Q.

(** ** The length of a path *)

Section PathLength.

Context {F : Type} `{NumF : Num F}.

(** What the list handed to the loop of [calcPathLength] holds: nodes, by
    reference, or the generator objects that [getPathAsNodes] appends. *)
Inductive item : Type :=
| a_node (i : nat)
| a_generator.

(** [x.name]; a generator object has no such attribute. *)
Definition item_name (N : list (Node.t F)) (x : item) : result string :=
  match x with
  | a_node i => Ok (Node.name (node_at N i))
  | a_generator => Raise (AttributeError "name")
  end.

(** The list [[edge for edge in E if edge.start == prev.name and
    edge.end == node.name]]: every edge is tested, in order, and the second
    test is made only when the first holds. *)
Fixpoint joining (N : list (Node.t F)) (i : nat) (E : list (Edge.t F))
         (prev node : item) : result (list nat) :=
  match E with
  | [] => Ok []
  | edge :: E' =>
      pn <- item_name N prev;;
      b <- (if String.eqb (Edge.start edge) pn
            then nn <- item_name N node;; Ok (String.eqb (Edge.end_ edge) nn)
            else Ok false);;
      es <- joining N (S i) E' prev node;;
      Ok (if b : bool then i :: es else es)
  end.

(** The loop [for node in P] of [calcPathLength], [E] being the whole edge
    list, from which the cost of the chosen edge is read. *)
Fixpoint path_length (N : list (Node.t F)) (E : list (Edge.t F))
         (prev : option item) (P : list item) (length : F) : result F :=
  match P with
  | [] => Ok length
  | node :: P' =>
      match prev with
      | None => path_length N E (Some node) P' length
      | Some p =>
          es <- joining N 0 E p node;;
          match es with
          | [] => Raise IndexError
          | e :: _ =>
              path_length N E (Some node) P'
                          (nadd length (Edge.cost (edge_at E e)))
          end
      end
  end.

(** [getPathAsNodes] appends one generator object for the start of the
    first edge and one for each edge; the conditions inside them, which
    read [P[0].start] and [N.node], are not evaluated. *)
Definition getPathAsNodes (P : list nat) : list item :=
  a_generator :: map (fun _ => a_generator) P.

(** A path is a list of nodes or a list of edges, both by reference. *)
Inductive path : Type :=
| node_path (P : list nat)
| edge_path (P : list nat).

(** [calcPathLength]; [type(P[0])] reads [P[0]] first. *)
Definition calcPathLength (P : path) (N : list (Node.t F))
           (E : list (Edge.t F)) : result F :=
  match P with
  | node_path [] | edge_path [] => Raise IndexError
  | node_path P' => path_length N E None (map a_node P') (nof_Z 0)
  | edge_path P' => path_length N E None (getPathAsNodes P') (nof_Z 0)
  end.

(** The names [printPath] joins. *)
Definition join_names (nms : list string) : string :=
  fold_left
    (fun strout nm =>
       ((if String.eqb strout "" then strout else strout ++ " - ") ++ nm)%string)
    nms "".

(** [printPath]: the length and the names it prints. *)
Definition printPath (P : path) (N : list (Node.t F)) (E : list (Edge.t F))
  : result (F * string) :=
  let strout :=
    match P with
    | node_path P' => join_names (map (fun i => Node.name (node_at N i)) P')
    | edge_path P' => join_names (map (fun e => Edge.name (edge_at E e)) P')
    end in
  len <- calcPathLength P N E;;
  Ok (len, strout).

(** The cost of a route as [calcPathLength] adds it up. *)
Definition added_cost (E : list (Edge.t F)) (route : list nat) : F :=
  fold_left (fun c e => nadd c (Edge.cost (edge_at E e))) route (nof_Z 0).

(** ** The entry point *)

(** [run] on the lists it is given or has read from the network file; what
    it prints is left out. *)
Definition run (its : nat) (node_list : list (Node.t F))
           (edge_list : list (Edge.t F)) (od_matrix : dict F) (output : bool)
  : result (list (Node.t F) * list (Edge.t F) * dict F * F * od_table) :=
  match node_list, edge_list, od_matrix with
  | _ :: _, _ :: _, _ :: _ =>
      '(UE, _, st) <- run_MSA its node_list edge_list od_matrix output;;
      Ok (nodes st, edges st, od_matrix, UE, table st)
  | _, _, _ => Raise (NameError "UE")
  end.

End PathLength.

(** ** Successive averages *)

Section AverageNotions.

Context {F : Type} `{NumF : Num F}.

(** Whether [r] names the route that a search from the state [st] finds
    for the pair [od]. *)
Definition is_best (st : @state F) (od r : string) : bool :=
  match best_route (names (nodes st)) (edges st) od with
  | Ok (best, _) => String.eqb r best
  | _ => false
  end.

(** In how many of the iterations [1 .. its] from [st0] the route named [r]
    is the one found for the pair [od]. *)
Fixpoint times_best (OD : dict F) (its : nat) (st0 : @state F)
         (od r : string) : nat :=
  match its with
  | O => 0
  | S k =>
      times_best OD k st0 od r +
      match msa_loop OD k st0 with
      | Ok st => if is_best st od r then 1 else 0
      | _ => 0
      end
  end.

End AverageNotions.

(** ** Errors of the evaluation loops *)

(** What the loops of the evaluation can raise in binary64: the errors of
    [round] on a value that is not finite and the [KeyError] of a pair
    that is not in the demand. *)
Definition loop_error (e : exn) : Prop :=
  e = OverflowError \/ e = ValueError \/ e = KeyError.

Definition raises_loop_error {A : Type} (r : result A) : Prop :=
  match r with
  | Ok _ => True
  | Raise e => loop_error e
  | Diverges => False
  end.

(** * Properties *)

(** ** Stores *)

Section Stores.

Context {A : Type}.

Lemma update_length (l : list A) (i : nat) (x : A) :
  List.length (update l i x) = List.length l.
Proof.
  revert i; induction l as [|y l IH]; intros [|i]; simpl; auto.
Qed.

Lemma nth_update_same (l : list A) (i : nat) (x d : A) :
  i < List.length l -> nth i (update l i x) d = x.
Proof.
  revert i; induction l as [|y l IH]; intros [|i] Hi; simpl in *; try lia; auto.
  apply IH; lia.
Qed.

Lemma nth_update_other (l : list A) (i j : nat) (x d : A) :
  i <> j -> nth j (update l i x) d = nth j l d.
Proof.
  revert i j; induction l as [|y l IH]; intros [|i] [|j] Hij; simpl; auto;
    solve [now elim Hij | apply IH; congruence].
Qed.

Lemma update_beyond (l : list A) (i : nat) (x : A) :
  List.length l <= i -> update l i x = l.
Proof.
  revert i; induction l as [|y l IH]; intros [|i] Hi; simpl in *; auto; try lia.
  f_equal; apply IH; lia.
Qed.

Lemma map_update {B : Type} (f : A -> B) (l : list A) (i : nat) (x d : A) :
  f x = f (nth i l d) -> map f (update l i x) = map f l.
Proof.
  revert i; induction l as [|y l IH]; intros [|i] Hx; simpl in *; auto.
  - now rewrite Hx.
  - f_equal; auto.
Qed.

Lemma In_update (l : list A) (i : nat) (x y : A) :
  In y (update l i x) -> y = x \/ In y l.
Proof.
  revert i; induction l as [|z l IH]; intros [|i]; simpl; auto.
  - intros [->|H]; auto.
  - intros [->|H]; auto. destruct (IH _ H); auto.
Qed.

Lemma Forall_update (P : A -> Prop) (l : list A) (i : nat) (x : A) :
  Forall P l -> P x -> Forall P (update l i x).
Proof.
  intros Hl Hx; apply Forall_forall; intros y Hy.
  destruct (In_update _ _ _ _ Hy) as [->|Hin]; auto.
  rewrite Forall_forall in Hl; auto.
Qed.

End Stores.

(** ** Dictionaries *)

Section Dicts.

Context {V : Type}.

Lemma dict_get_set_same (d : dict V) (k : string) (v : V) :
  dict_get (dict_set d k v) k = Some v.
Proof.
  induction d as [|[k' v'] d IH]; simpl.
  - now rewrite String.eqb_refl.
  - destruct (String.eqb k' k) eqn:Hk; simpl; rewrite Hk; auto.
Qed.

Lemma dict_get_set_other (d : dict V) (k k' : string) (v : V) :
  k <> k' -> dict_get (dict_set d k v) k' = dict_get d k'.
Proof.
  intros Hk; induction d as [|[k0 v0] d IH]; simpl.
  - apply String.eqb_neq in Hk; now rewrite Hk.
  - destruct (String.eqb k0 k) eqn:Hk0; simpl.
    + apply String.eqb_eq in Hk0; subst k0.
      apply String.eqb_neq in Hk; now rewrite Hk.
    + now rewrite IH.
Qed.

Lemma dict_get_set (d : dict V) (k k' : string) (v : V) :
  dict_get (dict_set d k v) k' =
  if String.eqb k k' then Some v else dict_get d k'.
Proof.
  destruct (String.eqb k k') eqn:Hk.
  - apply String.eqb_eq in Hk; subst; apply dict_get_set_same.
  - apply String.eqb_neq in Hk; now apply dict_get_set_other.
Qed.

Lemma keys_dict_set_present (d : dict V) (k : string) (v : V) :
  In k (keys d) -> keys (dict_set d k v) = keys d.
Proof.
  induction d as [|[k' v'] d IH]; simpl; [tauto|].
  destruct (String.eqb k' k) eqn:Hk; simpl; auto.
  intros [He|Hin].
  - subst; rewrite String.eqb_refl in Hk; discriminate.
  - f_equal; auto.
Qed.

Lemma dict_get_In_keys (d : dict V) (k : string) (v : V) :
  dict_get d k = Some v -> In k (keys d).
Proof.
  induction d as [|[k' v'] d IH]; simpl; [discriminate|].
  destruct (String.eqb k' k) eqn:Hk; auto.
  apply String.eqb_eq in Hk; auto.
Qed.

Lemma dict_get_None (d : dict V) (k : string) :
  dict_get d k = None -> ~ In k (keys d).
Proof.
  induction d as [|[k' v'] d IH]; simpl; [tauto|].
  destruct (String.eqb k' k) eqn:Hk; [discriminate|].
  apply String.eqb_neq in Hk; intros Hg [He|Hin]; auto.
  now apply IH.
Qed.

Lemma dict_get_NoDup (d : dict V) (k : string) (v : V) :
  NoDup (keys d) -> In (k, v) d -> dict_get d k = Some v.
Proof.
  induction d as [|[k' v'] d IH]; simpl; [tauto|].
  intros Hnd [He|Hin].
  - inversion He; subst; now rewrite String.eqb_refl.
  - inversion Hnd as [|? ? Hni Hnd']; subst.
    destruct (String.eqb k' k) eqn:Hk; auto.
    apply String.eqb_eq in Hk; subst k'.
    exfalso; apply Hni. change k with (fst (k, v)); now apply in_map.
Qed.

End Dicts.

(** ** Error propagation *)

Lemma bind_Ok {A B : Type} (m : result A) (k : A -> result B) (b : B) :
  bind m k = Ok b -> exists a, m = Ok a /\ k a = Ok b.
Proof. destruct m; simpl; try discriminate; eauto. Qed.

Lemma bind_not_ok {A B : Type} (m : result A) (k : A -> result B) :
  is_ok m = false -> is_ok (bind m k) = false.
Proof. destruct m; simpl; auto; discriminate. Qed.

Ltac bind_inv H :=
  let a := fresh "a" in
  let Ha := fresh "Ha" in
  apply bind_Ok in H; destruct H as (a & Ha & H).

(** ** Selection of the next node *)

Section Selection.

Context {F : Type} `{NumF : Num F}.

Local Abbreviation Node := (Node.t F).
Local Abbreviation Edge := (Edge.t F).

Lemma first_unflagged_Some (N : list Node) (i m : nat) :
  first_unflagged i N = Some m ->
  exists k, m = i + k /\ k < List.length N /\ Node.flag (nth k N no_node) = 0.
Proof.
  revert i; induction N as [|node N IH]; simpl; intros i Hm; [discriminate|].
  destruct (Node.flag node =? 0) eqn:Hf.
  - injection Hm as <-. exists 0; repeat split; try lia.
    now apply Nat.eqb_eq.
  - destruct (IH _ Hm) as (k & -> & Hk & Hfl).
    exists (S k); repeat split; simpl; auto; lia.
Qed.

Lemma first_unflagged_None (N : list Node) (i : nat) :
  first_unflagged i N = None -> unflagged N = 0.
Proof.
  unfold unflagged.
  revert i; induction N as [|node N IH]; simpl; intros i Hm; auto.
  destruct (Node.flag node =? 0); [discriminate|]. eauto.
Qed.

Lemma scan_smaller_spec (N : list Node) (i m : nat) (md : F) :
  scan_smaller i N m md = m \/
  exists k, scan_smaller i N m md = i + k /\ k < List.length N /\
            Node.flag (nth k N no_node) = 0.
Proof.
  revert i m md; induction N as [|node N IH]; simpl; intros i m md; auto.
  destruct (Node.flag node =? 0) eqn:Hf; simpl.
  - destruct (nltb (Node.dist node) md).
    + right. destruct (IH (S i) i (Node.dist node)) as [He|(k & He & Hk & Hfl)].
      * exists 0; rewrite He; repeat split; try lia. now apply Nat.eqb_eq.
      * exists (S k); rewrite He; repeat split; simpl; auto; lia.
    + destruct (IH (S i) m md) as [He|(k & He & Hk & Hfl)]; auto.
      right; exists (S k); rewrite He; repeat split; simpl; auto; lia.
  - destruct (IH (S i) m md) as [He|(k & He & Hk & Hfl)]; auto.
    right; exists (S k); rewrite He; repeat split; simpl; auto; lia.
Qed.

Lemma pickSmallestNode_Some (N : list Node) (u : nat) :
  pickSmallestNode N = Some u ->
  u < List.length N /\ Node.flag (node_at N u) = 0.
Proof.
  unfold pickSmallestNode, node_at.
  destruct (first_unflagged 0 N) as [m|] eqn:Hm; [|discriminate].
  intros Hu; injection Hu as <-.
  destruct (first_unflagged_Some _ _ _ Hm) as (k & -> & Hk & Hfl).
  destruct (scan_smaller_spec N 0 (0 + k) (Node.dist (nth (0 + k) N no_node)))
    as [->|(k' & -> & Hk' & Hfl')]; simpl; auto.
Qed.

Lemma pickSmallestNode_None (N : list Node) :
  pickSmallestNode N = None -> unflagged N = 0.
Proof.
  unfold pickSmallestNode.
  destruct (first_unflagged 0 N) eqn:Hm; [discriminate|].
  intros _; eapply first_unflagged_None; eauto.
Qed.

Lemma unflagged_none (N : list Node) :
  unflagged N = 0 -> Forall (fun node => Node.flag node <> 0) N.
Proof.
  unfold unflagged; induction N as [|node N IH]; simpl; intros H0; auto.
  destruct (Node.flag node =? 0) eqn:Hf; simpl in H0; [discriminate|].
  constructor; auto. now apply Nat.eqb_neq.
Qed.

Lemma set_flag_cons (node : Node) (N : list Node) (u : nat) :
  set_flag (node :: N) (S u) = node :: set_flag N u.
Proof. reflexivity. Qed.

Lemma unflagged_set_flag (N : list Node) (u : nat) :
  u < List.length N -> Node.flag (node_at N u) = 0 ->
  S (unflagged (set_flag N u)) = unflagged N.
Proof.
  revert u; induction N as [|node N IH]; intros [|u] Hu Hf; simpl in Hu; try lia.
  - unfold set_flag, unflagged, node_at in *; simpl in *. now rewrite Hf.
  - rewrite set_flag_cons. unfold unflagged in *; simpl.
    destruct (Node.flag node =? 0); simpl; f_equal; apply IH; auto; lia.
Qed.

Lemma set_flag_length (N : list Node) (u : nat) :
  List.length (set_flag N u) = List.length N.
Proof. apply update_length. Qed.

Lemma set_flag_names (N : list Node) (u : nat) :
  names (set_flag N u) = names N.
Proof. unfold set_flag, names. now apply map_update with (d := no_node). Qed.

Lemma set_label_length (N : list Node) (j u : nat) (d : F) :
  List.length (set_label N j d u) = List.length N.
Proof. apply update_length. Qed.

Lemma set_label_names (N : list Node) (j u : nat) (d : F) :
  names (set_label N j d u) = names N.
Proof. unfold set_label, names. now apply map_update with (d := no_node). Qed.

Lemma set_label_flags (N : list Node) (j u : nat) (d : F) :
  map Node.flag (set_label N j d u) = map Node.flag N.
Proof. unfold set_label. now apply map_update with (d := no_node). Qed.

Lemma unflagged_flags (N N' : list Node) :
  map Node.flag N = map Node.flag N' -> unflagged N = unflagged N'.
Proof.
  unfold unflagged. revert N'; induction N as [|a N IH]; intros [|b N'] Hm;
    simpl in *; try discriminate; auto.
  injection Hm as Hab Hm. rewrite Hab.
  destruct (Node.flag b =? 0); simpl; auto.
Qed.

(** Relaxing edges writes distances and predecessors only, and the only
    way it fails is on a [None] where a node was expected. *)
Lemma relax_Ok (N N' : list Node) (u : nat) (ign : list nat)
      (uv : list (nat * Edge)) (n : option nat) :
  relax N u ign uv n = Ok N' ->
  names N' = names N /\ map Node.flag N' = map Node.flag N /\
  List.length N' = List.length N.
Proof.
  revert N n; induction uv as [|[i edge] uv IH]; simpl; intros N n Hr.
  - injection Hr as <-; auto.
  - destruct (existsb (Nat.eqb i) ign); [eauto|].
    destruct (match find_node 0 N (Edge.end_ edge) with
              | Some j => Some j | None => n end) as [j|]; [|discriminate].
    apply IH in Hr. destruct Hr as (Hn & Hf & Hl).
    destruct (nltb _ _); auto.
    rewrite Hn, Hf, Hl, set_label_names, set_label_flags, set_label_length; auto.
Qed.

Lemma relax_Raise (N : list Node) (u : nat) (ign : list nat)
      (uv : list (nat * Edge)) (n : option nat) (e : exn) :
  relax N u ign uv n = Raise e -> e = AttributeError "dist".
Proof.
  revert N n; induction uv as [|[i edge] uv IH]; simpl; intros N n Hr.
  - discriminate.
  - destruct (existsb (Nat.eqb i) ign); [eauto|].
    destruct (match find_node 0 N (Edge.end_ edge) with
              | Some j => Some j | None => n end) as [j|]; [eauto|].
    now injection Hr as <-.
Qed.

Lemma relax_terminates (N : list Node) (u : nat) (ign : list nat)
      (uv : list (nat * Edge)) (n : option nat) :
  relax N u ign uv n <> Diverges.
Proof.
  revert N n; induction uv as [|[i edge] uv IH]; simpl; intros N n.
  - discriminate.
  - destruct (existsb (Nat.eqb i) ign); [eauto|].
    destruct (match find_node 0 N (Edge.end_ edge) with
              | Some j => Some j | None => n end) as [j|]; [eauto|discriminate].
Qed.

Lemma round_Ok (E : list Edge) (ign : list nat) (N N' : list Node) (u : nat) :
  pickSmallestNode N = Some u -> round E ign N u = Ok N' ->
  names N' = names N /\ List.length N' = List.length N /\
  S (unflagged N') = unflagged N.
Proof.
  intros Hu Hr. apply pickSmallestNode_Some in Hu. destruct Hu as [Hlt Hf].
  unfold round in Hr. apply relax_Ok in Hr. destruct Hr as (Hn & Hfl & Hl).
  rewrite Hn, Hl, set_flag_names, set_flag_length. repeat split.
  rewrite (unflagged_flags _ _ Hfl). now apply unflagged_set_flag.
Qed.

(** The selection loop, by an invariant [Inv] of its rounds.  The loop ends;
    when it ends well the invariant holds and either the next node to settle
    is the destination (a [None] destination: no node is left) or the loop
    had nothing to do; when it fails, a round has failed. *)
Lemma dijkstra_loop_spec (E : list Edge) (ign : list nat) (dest : option nat)
      (Inv : list Node -> Prop) :
  (forall N u N', Inv N -> pickSmallestNode N = Some u ->
                  round E ign N u = Ok N' -> Inv N') ->
  forall (rounds : nat) (N : list Node),
    Inv N -> unflagged N <= rounds ->
    match dijkstra_loop rounds N E ign dest (pickSmallestNode N) with
    | Ok N' => Inv N' /\ names N' = names N /\
               (pickSmallestNode N' = dest \/ pickSmallestNode N' = None)
    | Raise e => exists N1 u, Inv N1 /\ names N1 = names N /\
                              pickSmallestNode N1 = Some u /\
                              round E ign N1 u = Raise e
    | Diverges => False
    end.
Proof.
  intros Hround rounds; induction rounds as [|rounds IH]; intros N HI Hc.
  - destruct (pickSmallestNode N) as [u|] eqn:Hu; simpl; auto.
    apply pickSmallestNode_Some in Hu. destruct Hu as [Hlt Hf].
    pose proof (unflagged_set_flag _ _ Hlt Hf). lia.
  - destruct (pickSmallestNode N) as [u|] eqn:Hu; simpl; auto.
    fold (round E ign N u).
    destruct (round E ign N u) as [N2| e |] eqn:Hr; simpl.
    + destruct (round_Ok _ _ _ _ _ Hu Hr) as (Hn & Hl & Hcount).
      assert (HI2 : Inv N2) by eauto.
      destruct (ref_eqb (pickSmallestNode N2) dest) eqn:Hd.
      * repeat split; auto. left.
        destruct (pickSmallestNode N2), dest; simpl in Hd; try discriminate; auto.
        apply Nat.eqb_eq in Hd; now subst.
      * specialize (IH N2 HI2 ltac:(lia)).
        destruct (dijkstra_loop rounds N2 E ign dest (pickSmallestNode N2)).
        -- destruct IH as (? & Hn' & ?); repeat split; auto; congruence.
        -- destruct IH as (N1 & u1 & ? & Hn' & ? & ?).
           exists N1, u1; repeat split; auto; congruence.
        -- auto.
    + exists N, u; auto.
    + unfold round in Hr. now apply relax_terminates in Hr.
Qed.

Lemma resetGraph_names (N : list Node) : names (resetGraph N) = names N.
Proof. unfold names, resetGraph. rewrite map_map. reflexivity. Qed.

Lemma set_origin_names (N : list Node) (origin : string) :
  names (set_origin N origin) = names N.
Proof.
  unfold names, set_origin. rewrite map_map. apply map_ext.
  intros node. now destruct (String.eqb _ _).
Qed.

Lemma start_names (N : list Node) (origin : string) :
  names (set_origin (resetGraph N) origin) = names N.
Proof. now rewrite set_origin_names, resetGraph_names. Qed.

Lemma start_flags (N : list Node) (origin : string) :
  Forall (fun node => Node.flag node = 0) (set_origin (resetGraph N) origin).
Proof.
  unfold set_origin, resetGraph. rewrite map_map. apply Forall_forall.
  intros node Hin. apply in_map_iff in Hin. destruct Hin as (x & <- & _).
  simpl. now destruct (String.eqb _ _).
Qed.

Lemma unflagged_le_length (N : list Node) : unflagged N <= List.length N.
Proof. unfold unflagged. apply filter_length_le. Qed.

Lemma find_dest_absent (N : list Node) (destination : string) (i : nat)
      (dest : option nat) :
  ~ In destination (names N) -> find_dest i N destination dest = dest.
Proof.
  revert i dest; induction N as [|node N IH]; simpl; intros i dest Hni; auto.
  destruct (String.eqb (Node.name node) destination) eqn:Hd.
  - apply String.eqb_eq in Hd. tauto.
  - apply IH. tauto.
Qed.

Lemma find_dest_present (N : list Node) (destination : string) (i : nat)
      (dest : option nat) :
  In destination (names N) ->
  exists k, find_dest i N destination dest = Some (i + k) /\
            k < List.length N /\ Node.name (nth k N no_node) = destination.
Proof.
  revert i dest; induction N as [|node N IH]; simpl; intros i dest Hin; [tauto|].
  destruct (in_dec string_dec destination (names N)) as [Hin'|Hni].
  - destruct (IH (S i) (if String.eqb (Node.name node) destination
                        then Some i else dest) Hin') as (k & Hk & Hlt & Hn).
    exists (S k); rewrite Hk; repeat split; auto; try lia; f_equal; lia.
  - rewrite find_dest_absent by auto.
    destruct Hin as [He|Hin]; [|tauto].
    rewrite He, String.eqb_refl. exists 0; repeat split; auto; try lia;
      f_equal; lia.
Qed.

End Selection.

(** ** A destination that is no node *)

Section AbsentDestination.

Context {F : Type} `{NumF : Num F}.

Lemma flags_round (E : list (Edge.t F)) (ign : list nat)
      (N N' : list (Node.t F)) (u : nat) :
  Forall (fun node => Node.flag node = 0 \/ Node.flag node = 1) N ->
  round E ign N u = Ok N' ->
  Forall (fun node => Node.flag node = 0 \/ Node.flag node = 1) N'.
Proof.
  intros HN Hr. unfold round in Hr. apply relax_Ok in Hr.
  destruct Hr as (_ & Hf & _).
  assert (H1 : Forall (fun f => f = 0 \/ f = 1) (map Node.flag N')).
  { rewrite Hf. apply Forall_map. unfold set_flag.
    apply Forall_update; simpl; auto. }
  now apply Forall_map in H1.
Qed.

(** C10: a destination name that no node carries leaves [dest] at [None];
    the selection loop is not cut short, it goes on until every node is
    flagged, and the path reconstruction then reads [dest.prev] on [None].
    The call ends in an [AttributeError] whatever the network is (an edge
    whose end is no node makes the loop itself fail, on [n.dist]). *)
Theorem dijkstra_absent_destination
        (N : list (Node.t F)) (E : list (Edge.t F))
        (origin destination : string) (ignoredEdges : list nat) :
  ~ In destination (names N) ->
  let N0 := set_origin (resetGraph N) origin in
  find_dest 0 N0 destination None = None /\
  (exists attr,
      dijkstra N E origin destination ignoredEdges = Raise (AttributeError attr)) /\
  (forall N1,
      dijkstra_loop (List.length N0) N0 E ignoredEdges None (pickSmallestNode N0)
      = Ok N1 ->
      Forall (fun node => Node.flag node = 1) N1 /\
      dijkstra N E origin destination ignoredEdges
      = Raise (AttributeError "prev")).
Proof.
  intros Habs N0.
  assert (Hd : find_dest 0 N0 destination None = None).
  { apply find_dest_absent. unfold N0. now rewrite start_names. }
  pose proof (dijkstra_loop_spec E ignoredEdges None
                (Forall (fun node => Node.flag node = 0 \/ Node.flag node = 1))
                (fun N u N' HI _ Hr => flags_round E ignoredEdges N N' u HI Hr)
                (List.length N0) N0) as Hloop.
  assert (HI0 : Forall (fun node : Node.t F =>
                          Node.flag node = 0 \/ Node.flag node = 1) N0).
  { eapply Forall_impl; [|apply start_flags]. simpl; auto. }
  specialize (Hloop HI0 (unflagged_le_length N0)).
  unfold dijkstra. fold N0. rewrite Hd.
  destruct (dijkstra_loop (List.length N0) N0 E ignoredEdges None
                          (pickSmallestNode N0)) as [N1|e|] eqn:Hl; simpl.
  - split; [reflexivity|]. split; [eauto|].
    intros N1' HN1; injection HN1 as <-. split; auto.
    destruct Hloop as (HI & _ & Hp).
    assert (Hnone : pickSmallestNode N1 = None) by tauto.
    apply pickSmallestNode_None, unflagged_none in Hnone.
    rewrite Forall_forall in *. intros node Hin.
    specialize (HI _ Hin); specialize (Hnone _ Hin). tauto.
  - split; [reflexivity|]. split; [|discriminate].
    destruct Hloop as (N1 & u & _ & _ & _ & Hr).
    unfold round in Hr. apply relax_Raise in Hr. subst e. eauto.
  - tauto.
Qed.

End AbsentDestination.

Lemma dijkstra_absent_destination_witness :
  dijkstra diamond_nodes diamond_edges "A" "Z" [] = Raise (AttributeError "prev").
Proof.
  destruct (dijkstra_absent_destination diamond_nodes diamond_edges "A" "Z" [])
    as (_ & _ & H).
  - simpl. intuition discriminate.
  - eapply H. vm_compute. reflexivity.
Defined.

(** ** The search reads node names only *)

Section NodeScratch.

Context {F : Type} `{NumF : Num F}.

Lemma dijkstra_names (N N' : list (Node.t F)) (E : list (Edge.t F))
      (o d : string) (ign : list nat) (P : list nat) :
  dijkstra N E o d ign = Ok (N', P) -> names N' = names N.
Proof.
  unfold dijkstra. intros H. bind_inv H.
  pose proof (dijkstra_loop_spec E ign
                (find_dest 0 (set_origin (resetGraph N) o) d None)
                (fun _ => True) (fun _ _ _ _ _ _ => I)
                (List.length (set_origin (resetGraph N) o))
                (set_origin (resetGraph N) o) I
                (unflagged_le_length _)) as Hloop.
  rewrite Ha in Hloop. destruct Hloop as (_ & Hn & _).
  rewrite start_names in Hn.
  destruct (find_dest 0 (set_origin (resetGraph N) o) d None); [|discriminate].
  bind_inv H. injection H as <- _. exact Hn.
Qed.

Lemma resetGraph_of_names (N N' : list (Node.t F)) :
  names N = names N' -> resetGraph N = resetGraph N'.
Proof.
  unfold names, resetGraph.
  revert N'; induction N as [|a N IH]; intros [|b N'] Hn; simpl in *;
    try discriminate; auto.
  injection Hn as Hab Hn. rewrite Hab. f_equal. auto.
Qed.

(** What the previous search left on the nodes does not reach the next. *)
Lemma dijkstra_scratch (N N' : list (Node.t F)) (E : list (Edge.t F))
      (o d : string) (ign : list nat) :
  names N = names N' -> dijkstra N E o d ign = dijkstra N' E o d ign.
Proof.
  intros Hn. unfold dijkstra. now rewrite (resetGraph_of_names N N' Hn).
Qed.

Lemma od_step_names (E : list (Edge.t F)) (N N' : list (Node.t F))
      (tbl tbl' : od_table) (mr mr' : min_table) (od : string) :
  od_step E (N, tbl, mr) od = Ok (N', tbl', mr') -> names N' = names N.
Proof.
  unfold od_step. intros H.
  destruct (split bar od) as [|o [|d [|x l]]]; try discriminate.
  bind_inv H. destruct a as [N1 P]. apply dijkstra_names in Ha.
  bind_inv H. bind_inv H. bind_inv H.
  destruct (dict_mem _ _); injection H as <- _ _; auto.
Qed.

Lemma all_or_nothing_names (E : list (Edge.t F)) (ods : list string)
      (N N' : list (Node.t F)) (tbl tbl' : od_table) (mr mr' : min_table) :
  all_or_nothing E (N, tbl, mr) ods = Ok (N', tbl', mr') -> names N' = names N.
Proof.
  revert N tbl mr; induction ods as [|od ods IH]; cbn [all_or_nothing];
    intros N tbl mr H.
  - now injection H as <- _ _.
  - bind_inv H. destruct a as [[N1 tbl1] mr1].
    apply od_step_names in Ha. apply IH in H. congruence.
Qed.

(** A pair whose search fails stops the all-or-nothing loop, wherever it is
    in the demand table. *)
Lemma all_or_nothing_fails (E : list (Edge.t F)) (N : list (Node.t F))
      (od : string) :
  (forall N1 tbl mr, names N1 = names N ->
                     is_ok (od_step E (N1, tbl, mr) od) = false) ->
  forall ods N1 tbl mr,
    In od ods -> names N1 = names N ->
    is_ok (all_or_nothing E (N1, tbl, mr) ods) = false.
Proof.
  intros Hfail ods; induction ods as [|od0 ods IH]; intros N1 tbl mr Hin Hn.
  - destruct Hin.
  - cbn [all_or_nothing].
    destruct (od_step E (N1, tbl, mr) od0) as [[[N2 tbl2] mr2]| |] eqn:Hs;
      cbn [bind is_ok]; auto.
    destruct Hin as [->|Hin].
    + pose proof (Hfail N1 tbl mr Hn) as Hf. rewrite Hs in Hf. discriminate.
    + apply IH; auto. apply od_step_names in Hs. congruence.
Qed.

Lemma msa_loop_raises (OD : dict F) (st : state) (its : nat) (e : exn) :
  msa_iteration OD 1 st = Raise e -> 0 < its ->
  msa_loop OD its st = Raise e.
Proof.
  intros H1 Hits. induction its as [|[|k] IH]; [lia| |].
  - simpl. exact H1.
  - change (msa_loop OD (S (S k)) st)
      with (bind (msa_loop OD (S k) st) (msa_iteration OD (S (S k)))).
    rewrite IH by lia. reflexivity.
Qed.

Lemma msa_loop_fails (OD : dict F) (st : state) (its : nat) :
  is_ok (msa_iteration OD 1 st) = false -> 0 < its ->
  is_ok (msa_loop OD its st) = false.
Proof.
  intros H1 Hits. induction its as [|[|k] IH]; [lia| |].
  - simpl. exact H1.
  - change (msa_loop OD (S (S k)) st)
      with (bind (msa_loop OD (S k) st) (msa_iteration OD (S (S k)))).
    apply bind_not_ok. apply IH. lia.
Qed.

End NodeScratch.

(** ** A destination out of reach *)

Lemma Qltb_true (a b : Q) : Qltb a b = true <-> (a < b)%Q.
Proof.
  unfold Qltb. rewrite Qlt_alt. destruct (a ?= b)%Q; split; congruence.
Qed.

Lemma Qltb_false (a b : Q) : Qltb a b = false <-> (b <= a)%Q.
Proof.
  unfold Qltb. rewrite Qle_alt, <- (Qcompare_antisym a b).
  destruct (a ?= b)%Q; simpl; split; congruence.
Qed.

Ltac q_unfold :=
  unfold INF in *; cbn [nof_Z nadd nsub nmul ndiv nltb neqb Q_Num] in *;
  unfold inject_Z in *.

Section Unreachable.

Local Abbreviation Node := (Node.t Q).
Local Abbreviation Edge := (Edge.t Q).

Variable E : list Edge.
Variable o : string.

Hypothesis costs_nonneg : Forall (fun e : Edge => (0 <= Edge.cost e)%Q) E.

Lemma find_node_Some (N : list Node) (nm : string) (i j : nat) :
  find_node i N nm = Some j ->
  exists k, j = i + k /\ k < List.length N /\ Node.name (nth k N no_node) = nm.
Proof.
  revert i; induction N as [|node N IH]; simpl; intros i Hf; [discriminate|].
  destruct (String.eqb (Node.name node) nm) eqn:Hn.
  - injection Hf as <-. apply String.eqb_eq in Hn.
    exists 0; repeat split; auto; lia.
  - destruct (IH _ Hf) as (k & -> & Hk & Hnm).
    exists (S k); repeat split; auto; lia.
Qed.

Lemma find_node_In (N : list Node) (nm : string) (i : nat) :
  In nm (names N) -> exists j, find_node i N nm = Some j.
Proof.
  revert i; induction N as [|node N IH]; simpl; intros i Hin; [tauto|].
  destruct (String.eqb (Node.name node) nm) eqn:Hn; eauto.
  apply String.eqb_neq in Hn. destruct Hin; [tauto|eauto].
Qed.

Lemma names_node_at (N N' : list Node) (i : nat) :
  names N' = names N -> Node.name (node_at N' i) = Node.name (node_at N i).
Proof.
  intros Hn. unfold node_at.
  change (Node.name (nth i N' no_node)) with ((fun x => Node.name x) (nth i N' no_node)).
  rewrite <- !(map_nth (@Node.name Q)). unfold names in Hn. now rewrite Hn.
Qed.

Lemma labels_sound_at (N : list Node) (i : nat) :
  labels_sound E o N ->
  (Node.dist (node_at N i) <= INF)%Q /\
  (Node.prev (node_at N i) <> None \/ (Node.dist (node_at N i) < INF)%Q ->
   reach E o (Node.name (node_at N i))).
Proof.
  intros HN. unfold node_at. destruct (Nat.lt_ge_cases i (List.length N)) as [Hi|Hi].
  - unfold labels_sound in HN. rewrite Forall_forall in HN.
    apply HN. now apply nth_In.
  - rewrite nth_overflow by auto. simpl. split.
    + apply Qle_refl.
    + intros [Hp|Hd]; [now elim Hp|]. exfalso; revert Hd; apply Qlt_irrefl.
Qed.

Lemma pickEdgesList_In (u : Node) (i : nat) (edge : Edge) :
  In (i, edge) (pickEdgesList u E) ->
  In edge E /\ Edge.start edge = Node.name u.
Proof.
  unfold pickEdgesList, enumerate. intros Hin.
  apply filter_In in Hin. destruct Hin as [Hin Hs]. simpl in Hs.
  apply String.eqb_eq in Hs. split; auto.
  eapply in_combine_r; eauto.
Qed.

Lemma relax_sound (uv : list (nat * Edge)) (N : list Node) (u : nat)
      (n : option nat) :
  labels_sound E o N ->
  (forall i edge, In (i, edge) uv ->
                  In edge E /\ Edge.start edge = Node.name (node_at N u) /\
                  In (Edge.end_ edge) (names N)) ->
  exists N', relax N u [] uv n = Ok N' /\ labels_sound E o N'.
Proof.
  revert N n; induction uv as [|[i edge] uv IH]; simpl; intros N n HN Huv.
  - eauto.
  - destruct (Huv i edge (or_introl eq_refl)) as (HinE & Hstart & Hend).
    destruct (find_node_In N (Edge.end_ edge) 0 Hend) as (j & Hj).
    rewrite Hj.
    destruct (find_node_Some _ _ _ _ Hj) as (k & -> & Hk & Hname). simpl in *.
    set (d := (Node.dist (node_at N u) + Edge.cost edge)%Q).
    assert (Hstep : labels_sound E o
                      (if Qltb d (Node.dist (node_at N k))
                       then set_label N k d u else N)).
    { destruct (Qltb d (Node.dist (node_at N k))) eqn:Hlt; auto.
      apply Qltb_true in Hlt.
      destruct (labels_sound_at N k HN) as [Hk1 _].
      destruct (labels_sound_at N u HN) as [_ Hu2].
      assert (Hc : (0 <= Edge.cost edge)%Q).
      { rewrite Forall_forall in costs_nonneg. now apply costs_nonneg. }
      unfold set_label. apply Forall_update; auto. simpl. split.
      - unfold d in *. q_unfold. lra.
      - intros _. unfold node_at at 1. rewrite Hname.
        apply reach_edge; auto. rewrite Hstart. apply Hu2. right.
        unfold d in *. q_unfold. lra. }
    apply IH; auto.
    intros i' edge' Hin'. destruct (Huv i' edge' (or_intror Hin')) as (H1 & H2 & H3).
    destruct (Qltb d (Node.dist (node_at N k))); auto.
    rewrite set_label_names. repeat split; auto.
    rewrite H2. symmetry. apply names_node_at, set_label_names.
Qed.

Lemma round_sound (N N0 : list Node) (u : nat) :
  Forall (fun e : Edge => In (Edge.end_ e) (names N0)) E ->
  names N = names N0 ->
  labels_sound E o N ->
  exists N', round E [] N u = Ok N' /\ labels_sound E o N'.
Proof.
  intros Hclosed Hn HN. unfold round. apply relax_sound.
  - unfold set_flag. apply Forall_update; auto. simpl.
    apply (labels_sound_at N u HN).
  - intros i edge Hin. apply pickEdgesList_In in Hin. destruct Hin as [HinE Hs].
    repeat split; auto. rewrite set_flag_names, Hn.
    rewrite Forall_forall in Hclosed. now apply Hclosed.
Qed.

Lemma start_sound (N : list Node) :
  labels_sound E o (set_origin (resetGraph N) o).
Proof.
  unfold labels_sound, set_origin, resetGraph. rewrite map_map.
  apply Forall_forall. intros node Hin. apply in_map_iff in Hin.
  destruct Hin as (x & <- & _). simpl.
  destruct (String.eqb (Node.name x) o) eqn:Hx; simpl.
  - apply String.eqb_eq in Hx. rewrite Hx. split.
    + q_unfold. lra.
    + intros _. apply reach_here.
  - split; [apply Qle_refl|].
    intros [Hp|Hd]; [now elim Hp|]. exfalso; revert Hd; apply Qlt_irrefl.
Qed.

(** With costs that are not negative and every edge ending at a node, the
    search for a destination node out of reach ends, and what it gives back
    is the destination alone. *)
Lemma dijkstra_unreachable (N : list Node) (d : string) :
  Forall (fun e : Edge => In (Edge.end_ e) (names N)) E ->
  In d (names N) ->
  ~ reach E o d ->
  exists N' i, dijkstra N E o d [] = Ok (N', [i]) /\
               names N' = names N /\ Node.name (node_at N' i) = d.
Proof.
  intros Hclosed Hd Hunreach.
  set (N0 := set_origin (resetGraph N) o).
  assert (Hn0 : names N0 = names N) by apply start_names.
  destruct (find_dest_present N0 d 0 None) as (k & Hk & Hlt & Hname).
  { now rewrite Hn0. }
  simpl in Hk.
  pose proof (dijkstra_loop_spec E [] (Some k)
                (fun N1 => names N1 = names N /\ labels_sound E o N1)) as Hloop.
  assert (Hround : forall N1 u N1',
             names N1 = names N /\ labels_sound E o N1 ->
             pickSmallestNode N1 = Some u -> round E [] N1 u = Ok N1' ->
             names N1' = names N /\ labels_sound E o N1').
  { intros N1 u N1' [Hn1 Hs1] Hu Hr.
    destruct (round_sound N1 N u Hclosed Hn1 Hs1) as (N2 & Hr2 & Hs2).
    rewrite Hr in Hr2. injection Hr2 as <-.
    split; auto. destruct (round_Ok _ _ _ _ _ Hu Hr) as (Hn & _). congruence. }
  specialize (Hloop Hround (List.length N0) N0
                    (conj Hn0 (start_sound N)) (unflagged_le_length N0)).
  unfold dijkstra. fold N0. rewrite Hk.
  destruct (dijkstra_loop (List.length N0) N0 E [] (Some k)
                          (pickSmallestNode N0)) as [N1|e|]; simpl.
  - destruct Hloop as ((Hn1 & Hs1) & _ & _).
    assert (Hnm : Node.name (node_at N1 k) = d).
    { rewrite (names_node_at N0 N1 k) by congruence. exact Hname. }
    destruct (labels_sound_at N1 k Hs1) as [_ Hreach].
    destruct (Node.prev (node_at N1 k)) as [p|] eqn:Hp.
    + exfalso. apply Hunreach. rewrite <- Hnm. apply Hreach.
      left. discriminate.
    + exists N1, k. repeat split; auto.
      destruct (List.length N1); cbn [walk_back bind]; rewrite Hp; reflexivity.
  - exfalso. destruct Hloop as (N1 & u & (Hn1 & Hs1) & _ & _ & Hr).
    destruct (round_sound N1 N u Hclosed Hn1 Hs1) as (N2 & Hr2 & _). congruence.
  - tauto.
Qed.

End Unreachable.

Lemma reach_clear_aux (E : list (Edge.t Q)) (o x : string) :
  reach (map clear_aux E) o x -> reach E o x.
Proof.
  induction 1 as [|e1 _ IH Hin]; [apply reach_here|].
  apply in_map_iff in Hin. destruct Hin as (e & <- & Hin).
  now apply (reach_edge E o e).
Qed.

Lemma od_step_unreachable (N : list (Node.t Q)) (E : list (Edge.t Q))
      (od o d : string) (tbl : od_table) (mr : min_table) :
  split bar od = [o; d] ->
  Forall (fun e : Edge.t Q => (0 <= Edge.cost e)%Q) E ->
  Forall (fun e : Edge.t Q => In (Edge.end_ e) (names N)) E ->
  In d (names N) ->
  ~ reach E o d ->
  od_step E (N, tbl, mr) od = Raise IndexError.
Proof.
  intros Hsplit Hcost Hclosed Hd Hun.
  destruct (dijkstra_unreachable E o Hcost N d Hclosed Hd Hun)
    as (N' & i & Hdij & _ & _).
  unfold od_step. rewrite Hsplit, Hdij. reflexivity.
Qed.

(** C1, as the code has it: no error of its own is raised for a destination
    out of reach.  On a network whose costs are not negative and whose edges
    end at nodes, the search ends and gives back the destination alone, its
    list of edges is empty, and [pathToStr] fails on the empty list with an
    [IndexError] that ends the run. *)
Theorem unreachable_destination_index_error
        (N : list (Node.t Q)) (E : list (Edge.t Q)) (od o d : string) :
  split bar od = [o; d] ->
  Forall (fun e : Edge.t Q => (0 <= Edge.cost e)%Q) E ->
  Forall (fun e : Edge.t Q => In (Edge.end_ e) (names N)) E ->
  In d (names N) ->
  ~ reach E o d ->
  (exists N' i, dijkstra N E o d [] = Ok (N', [i]) /\
                Node.name (node_at N' i) = d /\
                getPathAsEdges N' [i] E = Ok []) /\
  (forall tbl mr, od_step E (N, tbl, mr) od = Raise IndexError) /\
  (forall OD its output,
      In od (keys OD) -> 0 < its ->
      is_ok (run_MSA its N E OD output) = false) /\
  (forall OD its output,
      hd_error (keys OD) = Some od -> 0 < its ->
      run_MSA its N E OD output = Raise IndexError).
Proof.
  intros Hsplit Hcost Hclosed Hd Hun.
  assert (Hstep1 : forall tbl mr,
             od_step (map clear_aux E) (N, tbl, mr) od = Raise IndexError).
  { intros tbl mr. apply od_step_unreachable with (o := o) (d := d); auto.
    - apply Forall_map. revert Hcost. apply Forall_impl. now intros e.
    - apply Forall_map. revert Hclosed. apply Forall_impl. now intros e.
    - intros Hr. apply Hun. now apply reach_clear_aux. }
  split; [|split; [|split]].
  - destruct (dijkstra_unreachable E o Hcost N d Hclosed Hd Hun)
      as (N' & i & Hdij & _ & Hname).
    exists N', i. repeat split; auto.
  - intros tbl mr. now apply od_step_unreachable with (o := o) (d := d).
  - intros OD its output Hin Hits. unfold run_MSA. apply bind_not_ok.
    apply msa_loop_fails; auto.
    unfold msa_iteration. apply bind_not_ok. cbn [nodes edges table].
    apply all_or_nothing_fails with (N := N) (od := od); auto.
    intros N1 tbl mr Hn.
    rewrite od_step_unreachable with (o := o) (d := d); auto.
    + apply Forall_map. revert Hcost. apply Forall_impl. now intros e.
    + apply Forall_map. rewrite Hn. revert Hclosed. apply Forall_impl.
      now intros e.
    + now rewrite Hn.
    + intros Hr. apply Hun. now apply reach_clear_aux.
  - intros OD its output Hhd Hits. unfold run_MSA.
    rewrite msa_loop_raises with (e := IndexError); auto.
    unfold msa_iteration. cbn [nodes edges table].
    destruct (keys OD) as [|od0 ods]; [discriminate|].
    injection Hhd as ->. cbn [all_or_nothing]. now rewrite Hstep1.
Qed.

Lemma diamond_no_way_back : ~ reach diamond_edges "D" "A".
Proof.
  assert (H : forall x, reach diamond_edges "D" x -> x = "D").
  { induction 1 as [|e _ IH Hin]; auto.
    simpl in Hin. intuition (subst e; discriminate). }
  intros Hr. apply H in Hr. discriminate.
Qed.

Lemma unreachable_destination_index_error_witness :
  od_step diamond_edges (diamond_nodes, [("D|A", [])], []) "D|A"
  = Raise IndexError.
Proof.
  apply (unreachable_destination_index_error
           diamond_nodes diamond_edges "D|A" "D" "A").
  - reflexivity.
  - repeat constructor; vm_compute; discriminate.
  - repeat constructor; simpl; tauto.
  - simpl; tauto.
  - exact diamond_no_way_back.
Defined.

(** C1 fails on the code: with A out of reach from D the search gives back
    the one-node path [A] and the run ends in an [IndexError]. *)
Lemma unreachable_destination_counterexample :
  ~ reach diamond_edges "D" "A" /\
  (exists N', dijkstra diamond_nodes diamond_edges "D" "A" [] = Ok (N', [0])) /\
  run_MSA 1 diamond_nodes diamond_edges [("D|A", 10%Q)] true = Raise IndexError.
Proof.
  split; [exact diamond_no_way_back|]. split.
  - eexists. vm_compute. reflexivity.
  - vm_compute. reflexivity.
Qed.

(** ** The key of an OD pair *)

Lemma split_nonempty (s : string) : split bar s <> [].
Proof.
  destruct s as [|a s]; simpl; [discriminate|].
  destruct (Ascii.eqb a bar); [discriminate|].
  destruct (split bar s); discriminate.
Qed.

Lemma split_bar_free (s : string) : bar_free s -> split bar s = [s].
Proof.
  unfold bar_free. induction s as [|a s IH]; simpl; intros Hf; auto.
  destruct (Ascii.eqb a bar) eqn:Ha.
  - apply Ascii.eqb_eq in Ha. tauto.
  - rewrite IH by tauto. reflexivity.
Qed.

Lemma split_od_key (o d : string) :
  bar_free o -> bar_free d -> split bar (od_key o d) = [o; d].
Proof.
  unfold od_key, bar_free. intros Ho Hd.
  induction o as [|a o IH]; simpl in *.
  - now rewrite split_bar_free.
  - destruct (Ascii.eqb a bar) eqn:Ha.
    + apply Ascii.eqb_eq in Ha. tauto.
    + rewrite IH by tauto. reflexivity.
Qed.

Lemma split_one (s x : string) : split bar s = [x] -> s = x /\ bar_free x.
Proof.
  unfold bar_free. revert x; induction s as [|a s IH]; simpl; intros x Hs.
  - injection Hs as <-. simpl. tauto.
  - destruct (Ascii.eqb a bar) eqn:Ha.
    + injection Hs as _ Hs. now apply split_nonempty in Hs.
    + destruct (split bar s) as [|h t] eqn:Hsp; [now apply split_nonempty in Hsp|].
      injection Hs as <- ->. destruct (IH h eq_refl) as [-> Hh].
      split; auto. simpl. apply Ascii.eqb_neq in Ha. intros [He|Hin]; auto.
Qed.

Lemma split_two (s o d : string) :
  split bar s = [o; d] -> s = od_key o d /\ bar_free o /\ bar_free d.
Proof.
  unfold od_key. revert o; induction s as [|a s IH]; simpl; intros o Hs.
  - discriminate.
  - destruct (Ascii.eqb a bar) eqn:Ha.
    + injection Hs as <- Hs. apply Ascii.eqb_eq in Ha. subst a.
      apply split_one in Hs. destruct Hs as [-> Hd]. simpl.
      repeat split; auto. unfold bar_free; simpl; tauto.
    + destruct (split bar s) as [|h t] eqn:Hsp; [discriminate|].
      injection Hs as <- ->. destruct (IH h eq_refl) as (-> & Hh & Hd).
      repeat split; auto. unfold bar_free in *. simpl.
      apply Ascii.eqb_neq in Ha. intros [He|Hin]; auto.
Qed.

Section ODKey.

Context {F : Type} `{NumF : Num F}.

(** C9: the names a pair is routed between are the two halves of its key,
    the part before the ["|"] as origin and the part after it as
    destination: the step of the pair is the search from the one to the
    other on the current edges, followed by the recording of the route it
    finds, and it fails where they fail; a key that is not of this form
    raises [ValueError] and nothing is routed.  The origin and destination
    fields of the [od] line are compared with each other and take no
    further part: two lines that differ in them only leave the same demand
    table. *)
Theorem od_key_is_routed
        (float_of_string : string -> option F)
        (E : list (Edge.t F)) (N : list (Node.t F)) (tbl : od_table)
        (mr : min_table) (od : string) :
  (forall o d, split bar od = [o; d] <->
               od = od_key o d /\ bar_free o /\ bar_free d) /\
  (forall o d,
      split bar od = [o; d] ->
      od_step E (N, tbl, mr) od
      = ('(N', P) <- dijkstra N E o d [];;
         route <- getPathAsEdges N' P E;;
         route_str <- pathToStr route E;;
         routes <- dict_item tbl od;;
         Ok (N',
             if dict_mem routes route_str then tbl
             else dict_set tbl od (dict_set routes route_str (route, nof_Z 0)),
             dict_set mr od (route_str, route)))) /\
  (forall N' tbl' mr',
      od_step E (N, tbl, mr) od = Ok (N', tbl', mr') ->
      exists o d P route route_str,
        od = od_key o d /\ bar_free o /\ bar_free d /\
        dijkstra N E o d [] = Ok (N', P) /\
        getPathAsEdges N' P E = Ok route /\
        pathToStr route E = Ok route_str /\
        dict_get mr' od = Some (route_str, route)) /\
  ((forall o d, split bar od <> [o; d]) ->
   od_step E (N, tbl, mr) od = Raise ValueError) /\
  (forall kw o1 d1 o2 d2 s OD,
      o1 <> d1 -> o2 <> d2 ->
      generateGraph_od float_of_string [kw; od; o1; d1; s] OD
      = generateGraph_od float_of_string [kw; od; o2; d2; s] OD /\
      generateGraph_od float_of_string [kw; od; o1; d1; s] OD
      = match float_of_string s with
        | Some demand => Ok (dict_set OD od demand)
        | None => Raise ValueError
        end).
Proof.
  split; [|split; [|split; [|split]]].
  - intros o d. split.
    + apply split_two.
    + intros (-> & Ho & Hd). now apply split_od_key.
  - intros o d Hs. unfold od_step. rewrite Hs.
    destruct (dijkstra N E o d []) as [[N' P]| |]; cbn [bind]; auto.
    destruct (getPathAsEdges N' P E) as [route| |]; cbn [bind]; auto.
    destruct (pathToStr route E) as [route_str| |]; cbn [bind]; auto.
    destruct (dict_item tbl od) as [routes| |]; cbn [bind]; auto.
    now destruct (dict_mem routes route_str).
  - intros N' tbl' mr' H. unfold od_step in H.
    destruct (split bar od) as [|o [|d [|x l]]] eqn:Hs; try discriminate.
    apply split_two in Hs. destruct Hs as (Hod & Ho & Hd).
    bind_inv H. destruct a as [N1 P]. bind_inv H. bind_inv H. bind_inv H.
    exists o, d, P, a, a0.
    assert (HN : N1 = N' /\ mr' = dict_set mr od (a0, a)).
    { destruct (dict_mem a1 a0); injection H as <- _ <-; auto. }
    destruct HN as [<- ->]. repeat split; auto.
    apply dict_get_set_same.
  - intros Hno. unfold od_step.
    destruct (split bar od) as [|o [|d [|x l]]] eqn:Hs; auto.
    now elim (Hno o d).
  - intros kw o1 d1 o2 d2 s OD H1 H2. unfold generateGraph_od, tag; simpl.
    apply String.eqb_neq in H1, H2. rewrite H1, H2.
    split; destruct (float_of_string s); reflexivity.
Qed.

End ODKey.

Lemma od_key_is_routed_witness :
  (exists OD N' P tbl',
      generateGraph_od (fun _ => Some 5%Q) ["od"; "A|D"; "B"; "C"; "5"] []
      = Ok OD /\
      dijkstra diamond_nodes diamond_edges "A" "D" [] = Ok (N', P) /\
      od_step diamond_edges (diamond_nodes, init_table OD, []) "A|D"
      = Ok (N', tbl', [("A|D", ("A-B - B-D", [0; 1]))])) /\
  od_step diamond_edges (diamond_nodes, [("A|Z", [])], []) "A|Z"
  = Raise (AttributeError "prev").
Proof.
  destruct (od_key_is_routed (fun _ => Some 5%Q) diamond_edges diamond_nodes
                             (init_table [("A|D", 5%Q)]) [] "A|D")
    as (_ & Hstep & _ & _ & Hline).
  destruct (od_key_is_routed (fun _ => Some 5%Q) diamond_edges diamond_nodes
                             [("A|Z", [])] [] "A|Z")
    as (_ & Hfail & _).
  split.
  - destruct (Hline "od" "B" "C" "A" "D" "5" []) as [_ He];
      [discriminate..|].
    destruct (dijkstra diamond_nodes diamond_edges "A" "D" [])
      as [[N' P]| |] eqn:Hd; [|vm_compute in Hd; discriminate..].
    exists [("A|D", 5%Q)], N', P. eexists. split; [exact He|].
    split; [reflexivity|].
    etransitivity; [exact (Hstep "A" "D" eq_refl)|]. rewrite Hd.
    vm_compute in Hd. injection Hd as <- <-. vm_compute. reflexivity.
  - etransitivity; [exact (Hfail "A" "Z" eq_refl)|]. vm_compute. reflexivity.
Defined.

(** ** The route-flow table *)

Section RouteTable.

Context {F : Type} `{NumF : Num F}.

Lemma tracked_in_refl (tbl : @od_table F) : tracked_in tbl tbl.
Proof. intros od routes H. exists routes. split; eauto. Qed.

Lemma tracked_in_trans (t1 t2 t3 : @od_table F) :
  tracked_in t1 t2 -> tracked_in t2 t3 -> tracked_in t1 t3.
Proof.
  intros H12 H23 od routes H1.
  destruct (H12 _ _ H1) as (r2 & H2 & Hr2).
  destruct (H23 _ _ H2) as (r3 & H3 & Hr3).
  exists r3. split; auto. intros r route v Hr.
  destruct (Hr2 _ _ _ Hr) as (v2 & Hv2). eauto.
Qed.

Lemma tracked_in_set (tbl : @od_table F) (od : string)
      (routes routes' : routes_flow) :
  dict_get tbl od = Some routes ->
  (forall r route v, dict_get routes r = Some (route, v) ->
                     exists v', dict_get routes' r = Some (route, v')) ->
  tracked_in tbl (dict_set tbl od routes').
Proof.
  intros Hod Hr od0 routes0 H0. rewrite dict_get_set.
  destruct (String.eqb od od0) eqn:He.
  - apply String.eqb_eq in He. subst od0. exists routes'. split; auto.
    rewrite Hod in H0. injection H0 as <-. exact Hr.
  - exists routes0. split; eauto.
Qed.

(** What one round of the all-or-nothing loop does to the tables. *)
Lemma od_step_tables (E : list (Edge.t F)) (N N' : list (Node.t F))
      (tbl tbl' : od_table) (mr mr' : min_table) (od : string) :
  od_step E (N, tbl, mr) od = Ok (N', tbl', mr') ->
  exists best route routes,
    dict_get tbl od = Some routes /\
    mr' = dict_set mr od (best, route) /\
    tbl' = if dict_mem routes best then tbl
           else dict_set tbl od (dict_set routes best (route, nof_Z 0)).
Proof.
  unfold od_step. intros H.
  destruct (split bar od) as [|o [|d [|x l]]]; try discriminate.
  bind_inv H. destruct a as [N1 P]. bind_inv H. bind_inv H. bind_inv H.
  exists a0, a, a1. unfold dict_item in Ha2.
  destruct (dict_get tbl od) as [routes|]; [|discriminate].
  injection Ha2 as <-.
  destruct (dict_mem routes a0); injection H as _ <- <-; auto.
Qed.

Lemma od_step_tracked (E : list (Edge.t F)) (N N' : list (Node.t F))
      (tbl tbl' : od_table) (mr mr' : min_table) (od : string) :
  od_step E (N, tbl, mr) od = Ok (N', tbl', mr') -> tracked_in tbl tbl'.
Proof.
  intros H. apply od_step_tables in H.
  destruct H as (best & route & routes & Hod & _ & ->).
  unfold dict_mem. destruct (dict_get routes best) eqn:Hb.
  - apply tracked_in_refl.
  - apply tracked_in_set with (routes := routes); auto.
    intros r rt v Hr. exists v. rewrite dict_get_set.
    destruct (String.eqb best r) eqn:He; auto.
    apply String.eqb_eq in He. congruence.
Qed.

Lemma all_or_nothing_tracked (E : list (Edge.t F)) (ods : list string)
      (N N' : list (Node.t F)) (tbl tbl' : od_table) (mr mr' : min_table) :
  all_or_nothing E (N, tbl, mr) ods = Ok (N', tbl', mr') -> tracked_in tbl tbl'.
Proof.
  revert N tbl mr; induction ods as [|od ods IH]; cbn [all_or_nothing];
    intros N tbl mr H.
  - injection H as _ <- _. apply tracked_in_refl.
  - bind_inv H. destruct a as [[N1 tbl1] mr1].
    eapply tracked_in_trans; [eapply od_step_tracked|eapply IH]; eauto.
Qed.

(** The blending loop rewrites the flow of every route and nothing else. *)
Lemma blend_routes_get (phi : F) (best : string) (demand : F)
      (routes : routes_flow) (E : list (Edge.t F)) (r : string) :
  dict_get (fst (blend_routes phi best demand routes E)) r =
  match dict_get routes r with
  | Some (route, v) =>
      Some (route,
            blend_flow phi v (if String.eqb r best then demand else nof_Z 0))
  | None => None
  end.
Proof.
  revert E; induction routes as [|[k [route v]] routes IH]; intros E; simpl; auto.
  destruct (blend_routes phi best demand routes _) as [routes' E'] eqn:Hb.
  simpl. destruct (String.eqb k r) eqn:Hk.
  - apply String.eqb_eq in Hk. now subst k.
  - specialize (IH (fold_left
                      (fun E0 e =>
                         add_aux E0 e
                                 (blend_flow phi v
                                    (if String.eqb k best then demand
                                     else nof_Z 0))) route E)).
    rewrite Hb in IH. exact IH.
Qed.

Lemma blend_routes_keys (phi : F) (best : string) (demand : F)
      (routes : routes_flow) (E : list (Edge.t F)) :
  keys (fst (blend_routes phi best demand routes E)) = keys routes.
Proof.
  revert E; induction routes as [|[k [route v]] routes IH]; intros E; simpl; auto.
  destruct (blend_routes phi best demand routes _) as [routes' E'] eqn:Hb.
  simpl. f_equal.
  specialize (IH (fold_left
                    (fun E0 e =>
                       add_aux E0 e
                               (blend_flow phi v
                                  (if String.eqb k best then demand
                                   else nof_Z 0))) route E)).
  now rewrite Hb in IH.
Qed.

Lemma blend_od_tracked (phi : F) (OD : dict F) (mr : min_table)
      (tbl tbl' : od_table) (E E' : list (Edge.t F)) (od : string) :
  blend_od phi OD mr (tbl, E) od = Ok (tbl', E') -> tracked_in tbl tbl'.
Proof.
  unfold blend_od. intros H. bind_inv H.
  unfold dict_item in Ha. destruct (dict_get tbl od) as [routes|] eqn:Hod;
    [|discriminate].
  injection Ha as <-. destruct routes as [|x routes].
  - injection H as <- _. apply tracked_in_refl.
  - bind_inv H. bind_inv H.
    destruct (blend_routes phi (fst a) a0 (x :: routes) E) as [routes' E2] eqn:Hb.
    injection H as <- _.
    apply tracked_in_set with (routes := x :: routes); auto.
    intros r route v Hr.
    pose proof (blend_routes_get phi (fst a) a0 (x :: routes) E r) as Hg.
    rewrite Hb, Hr in Hg. simpl fst in Hg. eauto.
Qed.

Lemma blend_tracked (phi : F) (OD : dict F) (mr : min_table)
      (ods : list string) (tbl tbl' : od_table) (E E' : list (Edge.t F)) :
  blend phi OD mr (tbl, E) ods = Ok (tbl', E') -> tracked_in tbl tbl'.
Proof.
  revert tbl E; induction ods as [|od ods IH]; cbn [blend]; intros tbl E H.
  - injection H as <- _. apply tracked_in_refl.
  - bind_inv H. destruct a as [tbl1 E1].
    eapply tracked_in_trans; [eapply blend_od_tracked|eapply IH]; eauto.
Qed.

Lemma msa_iteration_tracked (OD : dict F) (n : nat) (st st' : state) :
  msa_iteration OD n st = Ok st' -> tracked_in (table st) (table st').
Proof.
  unfold msa_iteration. intros H. bind_inv H. destruct a as [[N1 tbl1] mr].
  bind_inv H. destruct a as [tbl2 E2]. injection H as <-. simpl.
  eapply tracked_in_trans;
    [eapply all_or_nothing_tracked|eapply blend_tracked]; eauto.
Qed.

(** C5: a route tracked for a pair after [k] iterations is tracked for it,
    with the same edges, after any later iteration and in what [run_MSA]
    gives back; the all-or-nothing step enters a route it meets for the
    first time with flow 0 and leaves the table alone otherwise. *)
Theorem routes_never_removed (OD : dict F) (st0 : state) :
  (forall k j st,
      msa_loop OD (k + j) st0 = Ok st ->
      exists st_k, msa_loop OD k st0 = Ok st_k /\
                   tracked_in (table st_k) (table st)) /\
  (forall its N E output r st,
      run_MSA its N E OD output = Ok (r, st) ->
      forall k, k <= its ->
      exists st_k, msa_loop OD k (mkState N E (init_table OD)) = Ok st_k /\
                   tracked_in (table st_k) (table st)) /\
  (forall E N tbl mr od N' tbl' mr',
      od_step E (N, tbl, mr) od = Ok (N', tbl', mr') ->
      exists best route routes,
        dict_get tbl od = Some routes /\
        dict_get mr' od = Some (best, route) /\
        match dict_get routes best with
        | Some _ => tbl' = tbl
        | None =>
            exists routes',
              dict_get tbl' od = Some routes' /\
              dict_get routes' best = Some (route, nof_Z 0) /\
              forall r, r <> best -> dict_get routes' r = dict_get routes r
        end).
Proof.
  assert (Hloop : forall st1 k j st,
             msa_loop OD (k + j) st1 = Ok st ->
             exists st_k, msa_loop OD k st1 = Ok st_k /\
                          tracked_in (table st_k) (table st)).
  { intros st1 k j; induction j as [|j IH]; intros st H.
    - rewrite Nat.add_0_r in H. exists st. split; auto. apply tracked_in_refl.
    - rewrite Nat.add_succ_r in H. cbn [msa_loop] in H. bind_inv H.
      destruct (IH _ Ha) as (st_k & Hk & Ht). exists st_k. split; auto.
      eapply tracked_in_trans; [exact Ht|].
      eapply msa_iteration_tracked; eauto. }
  split; [apply Hloop|]. split.
  - intros its N E output r st H k Hk. unfold run_MSA in H.
    bind_inv H. bind_inv H. injection H as _ <-.
    apply Hloop with (j := its - k). now replace (k + (its - k)) with its by lia.
  - intros E N tbl mr od N' tbl' mr' H. apply od_step_tables in H.
    destruct H as (best & route & routes & Hod & -> & ->).
    exists best, route, routes. repeat split; auto.
    + apply dict_get_set_same.
    + unfold dict_mem. destruct (dict_get routes best) eqn:Hb; auto.
      exists (dict_set routes best (route, nof_Z 0)).
      rewrite !dict_get_set_same. repeat split; auto.
      intros r Hr. now apply dict_get_set_other.
Qed.

End RouteTable.

(** ** The cost snapshot of an iteration *)

Section Snapshot.

Context {F : Type} `{NumF : Num F}.

Local Abbreviation Node := (Node.t F).
Local Abbreviation Edge := (Edge.t F).

(** The search and the route reading look at the name, the ends and the
    cost of an edge; [g] changes none of them. *)
Variable g : Edge -> Edge.
Hypothesis g_name : forall e, Edge.name (g e) = Edge.name e.
Hypothesis g_start : forall e, Edge.start (g e) = Edge.start e.
Hypothesis g_end : forall e, Edge.end_ (g e) = Edge.end_ e.
Hypothesis g_cost : forall e, Edge.cost (g e) = Edge.cost e.

Local Abbreviation on_snd := (on_snd g).

Lemma combine_map_g (l : list nat) (E : list Edge) :
  combine l (map g E) = map on_snd (combine l E).
Proof.
  revert E; induction l as [|i l IH]; intros [|e E]; simpl; auto.
  now rewrite IH.
Qed.

Lemma pickEdgesList_map (u : Node) (E : list Edge) :
  pickEdgesList u (map g E) = map on_snd (pickEdgesList u E).
Proof.
  unfold pickEdgesList, enumerate. rewrite length_map, combine_map_g.
  induction (combine (seq 0 (List.length E)) E) as [|[i e] l IH]; simpl; auto.
  rewrite g_start. destruct (String.eqb (Edge.start e) (Node.name u)); simpl;
    now rewrite IH.
Qed.

Lemma relax_map (uv : list (nat * Edge)) (N : list Node) (u : nat)
      (ign : list nat) (n : option nat) :
  relax N u ign (map on_snd uv) n = relax N u ign uv n.
Proof.
  revert N n; induction uv as [|[i e] uv IH]; intros N n; simpl; auto.
  destruct (existsb (Nat.eqb i) ign); auto.
  rewrite g_end, g_cost.
  destruct (match find_node 0 N (Edge.end_ e) with
            | Some j => Some j | None => n end); auto.
Qed.

Lemma dijkstra_loop_map (rounds : nat) (N : list Node) (E : list Edge)
      (ign : list nat) (dest u : option nat) :
  dijkstra_loop rounds N (map g E) ign dest u
  = dijkstra_loop rounds N E ign dest u.
Proof.
  revert N u; induction rounds as [|rounds IH]; intros N [u|]; simpl; auto.
  rewrite pickEdgesList_map, relax_map.
  destruct (relax _ _ _ _ _); simpl; auto.
  destruct (ref_eqb _ _); auto.
Qed.

Lemma dijkstra_map (N : list Node) (E : list Edge) (o d : string)
      (ign : list nat) :
  dijkstra N (map g E) o d ign = dijkstra N E o d ign.
Proof. unfold dijkstra. now rewrite dijkstra_loop_map. Qed.

Lemma find_edge_map (E : list Edge) (i : nat) (s e : string) :
  find_edge i (map g E) s e = find_edge i E s e.
Proof.
  revert i; induction E as [|x E IH]; intros i; simpl; auto.
  rewrite g_start, g_end. destruct (_ && _); auto.
Qed.

Lemma getPathAsEdges_map (N : list Node) (P : list nat) (E : list Edge) :
  getPathAsEdges N P (map g E) = getPathAsEdges N P E.
Proof.
  unfold getPathAsEdges. generalize (@None nat).
  induction P as [|x P IH]; intros prev; simpl; auto.
  destruct prev as [p|]; auto.
  rewrite find_edge_map. destruct (find_edge _ _ _ _); auto.
  now rewrite IH.
Qed.

Lemma edge_at_map_name (E : list Edge) (i : nat) :
  Edge.name (edge_at (map g E) i) = Edge.name (edge_at E i).
Proof.
  unfold edge_at. revert i; induction E as [|x E IH]; intros [|i]; simpl; auto.
Qed.

Lemma join_names_map (E : list Edge) (l : list nat) (acc : string) :
  fold_left
    (fun strout e =>
       ((if String.eqb strout "" then strout else strout ++ " - ")
          ++ Edge.name (edge_at (map g E) e))%string) l acc
  = fold_left
      (fun strout e =>
         ((if String.eqb strout "" then strout else strout ++ " - ")
            ++ Edge.name (edge_at E e))%string) l acc.
Proof.
  revert acc; induction l as [|y l IH]; intros acc; simpl; auto.
  now rewrite edge_at_map_name, IH.
Qed.

Lemma pathToStr_map (route : list nat) (E : list Edge) :
  pathToStr route (map g E) = pathToStr route E.
Proof.
  unfold pathToStr. destruct route as [|x route]; auto. f_equal.
  apply join_names_map.
Qed.

Lemma best_route_map (nms : list string) (E : list Edge) (od : string) :
  best_route nms (map g E) od = best_route nms E od.
Proof.
  unfold best_route. destruct (split bar od) as [|o [|d [|x l]]]; auto.
  rewrite dijkstra_map. destruct (dijkstra _ _ _ _ _) as [[N' P]| |]; simpl; auto.
  rewrite getPathAsEdges_map. destruct (getPathAsEdges _ _ _); simpl; auto.
  now rewrite pathToStr_map.
Qed.

End Snapshot.

Section Iteration.

Context {F : Type} `{NumF : Num F}.

Local Abbreviation Node := (Node.t F).
Local Abbreviation Edge := (Edge.t F).

Lemma names_Node_init (nms : list string) :
  names (map (@Node_init F NumF) nms) = nms.
Proof.
  unfold names. rewrite map_map. simpl. apply map_id.
Qed.

Lemma od_step_best (E : list Edge) (N N' : list Node)
      (tbl tbl' : od_table) (mr mr' : min_table) (od : string) :
  od_step E (N, tbl, mr) od = Ok (N', tbl', mr') ->
  exists v, best_route (names N) E od = Ok v /\ mr' = dict_set mr od v.
Proof.
  unfold od_step, best_route. intros H.
  destruct (split bar od) as [|o [|d [|x l]]]; try discriminate.
  rewrite (dijkstra_scratch (map Node_init (names N)) N)
    by apply names_Node_init.
  bind_inv H. destruct a as [N1 P]. rewrite Ha. simpl.
  bind_inv H. rewrite Ha0. simpl. bind_inv H. rewrite Ha1. simpl.
  bind_inv H. eexists. split; [reflexivity|].
  destruct (dict_mem _ _); now injection H as _ _ <-.
Qed.

Lemma all_or_nothing_best (E : list Edge) (ods : list string)
      (N N' : list Node) (tbl tbl' : od_table) (mr mr' : min_table) :
  all_or_nothing E (N, tbl, mr) ods = Ok (N', tbl', mr') ->
  forall od,
    (In od ods ->
     exists v, best_route (names N) E od = Ok v /\ dict_get mr' od = Some v) /\
    (~ In od ods -> dict_get mr' od = dict_get mr od).
Proof.
  revert N tbl mr; induction ods as [|od0 ods IH]; cbn [all_or_nothing];
    intros N tbl mr H od.
  - injection H as _ _ <-. simpl. tauto.
  - bind_inv H. destruct a as [[N1 tbl1] mr1].
    pose proof (od_step_names _ _ _ _ _ _ _ _ Ha) as Hn.
    destruct (od_step_best _ _ _ _ _ _ _ _ Ha) as (v0 & Hv0 & ->).
    destruct (IH _ _ _ H od) as [Hin Hout]. rewrite Hn in Hin.
    split.
    + intros Hod. destruct (in_dec string_dec od ods) as [Hi|Hni]; auto.
      destruct Hod as [->|Hod]; [|tauto].
      exists v0. split; auto. rewrite Hout by auto. apply dict_get_set_same.
    + intros Hni. simpl in Hni. rewrite Hout by tauto.
      apply dict_get_set_other. tauto.
Qed.

Lemma add_aux_fixed (E : list Edge) (e : nat) (v : F) :
  map fixed_part (add_aux E e v) = map fixed_part E.
Proof. unfold add_aux. now apply map_update with (d := no_edge). Qed.

Lemma add_aux_length (E : list Edge) (e : nat) (v : F) :
  List.length (add_aux E e v) = List.length E.
Proof. apply update_length. Qed.

Lemma add_route_fixed (route : list nat) (E : list Edge) (v : F) :
  map fixed_part (fold_left (fun E0 e => add_aux E0 e v) route E)
  = map fixed_part E.
Proof.
  revert E; induction route as [|e route IH]; intros E; simpl; auto.
  now rewrite IH, add_aux_fixed.
Qed.

Lemma blend_routes_fixed (phi : F) (best : string) (demand : F)
      (routes : routes_flow) (E : list Edge) :
  map fixed_part (snd (blend_routes phi best demand routes E))
  = map fixed_part E.
Proof.
  revert E; induction routes as [|[k [route v]] routes IH]; intros E; simpl; auto.
  match goal with
  | |- context [blend_routes phi best demand routes ?E1] =>
      specialize (IH E1);
      destruct (blend_routes phi best demand routes E1) as [routes' E']
  end.
  simpl in *. now rewrite IH, add_route_fixed.
Qed.

Lemma blend_od_fixed (phi : F) (OD : dict F) (mr : min_table)
      (tbl tbl' : od_table) (E E' : list Edge) (od : string) :
  blend_od phi OD mr (tbl, E) od = Ok (tbl', E') ->
  map fixed_part E' = map fixed_part E.
Proof.
  unfold blend_od. intros H. bind_inv H. destruct a as [|x routes].
  - now injection H as _ <-.
  - bind_inv H. bind_inv H.
    pose proof (blend_routes_fixed phi (fst a) a0 (x :: routes) E) as Hf.
    destruct (blend_routes phi (fst a) a0 (x :: routes) E) as [routes' E2].
    now injection H as _ <-.
Qed.

Lemma blend_fixed (phi : F) (OD : dict F) (mr : min_table)
      (ods : list string) (tbl tbl' : od_table) (E E' : list Edge) :
  blend phi OD mr (tbl, E) ods = Ok (tbl', E') ->
  map fixed_part E' = map fixed_part E.
Proof.
  revert tbl E; induction ods as [|od ods IH]; cbn [blend]; intros tbl E H.
  - now injection H as _ <-.
  - bind_inv H. destruct a as [tbl1 E1].
    apply blend_od_fixed in Ha. apply IH in H. congruence.
Qed.

Lemma clear_aux_fixed (E : list Edge) :
  map fixed_part (map clear_aux E) = map fixed_part E.
Proof. rewrite map_map. now apply map_ext. Qed.

(** C2: in an iteration the shortest route recorded for every pair is the
    one found on the edges as they were when the iteration began, whatever
    the place of the pair in the demand table and whatever the earlier
    searches left on the nodes; the blending that follows writes auxiliary
    flows only, and flows and costs change in the final pass alone. *)
Theorem shortest_routes_on_snapshot (OD : dict F) (n : nat) (st st' : state) :
  msa_iteration OD n st = Ok st' ->
  exists N1 tbl1 min_routes tbl2 E2,
    all_or_nothing (map clear_aux (edges st)) (nodes st, table st, [])
                   (keys OD) = Ok (N1, tbl1, min_routes) /\
    (forall od, In od (keys OD) ->
                exists v, best_route (names (nodes st)) (edges st) od = Ok v /\
                          dict_get min_routes od = Some v) /\
    blend (ndiv (nof_Z 1) (nof_Z (Z.of_nat n))) OD min_routes
          (tbl1, map clear_aux (edges st)) (keys OD) = Ok (tbl2, E2) /\
    map fixed_part E2 = map fixed_part (edges st) /\
    st' = mkState N1 (map apply_flow E2) tbl2.
Proof.
  unfold msa_iteration. intros H. bind_inv H. destruct a as [[N1 tbl1] mr].
  bind_inv H. destruct a as [tbl2 E2]. injection H as <-.
  exists N1, tbl1, mr, tbl2, E2. repeat split; auto.
  - intros od Hin.
    destruct (all_or_nothing_best _ _ _ _ _ _ _ _ Ha od) as [Hb _].
    destruct (Hb Hin) as (v & Hv & Hg). exists v. split; auto.
    rewrite <- Hv. symmetry. now apply best_route_map.
  - apply blend_fixed in Ha0. rewrite Ha0. apply clear_aux_fixed.
Qed.

End Iteration.

Lemma shortest_routes_on_snapshot_witness :
  exists st',
    msa_iteration diamond_demand 1 diamond_start = Ok st' /\
    exists min_routes,
      dict_get min_routes "A|D" = Some ("A-B - B-D", [0; 1]).
Proof.
  destruct (msa_iteration diamond_demand 1 diamond_start) as [st'| |] eqn:H;
    [|vm_compute in H; discriminate..].
  exists st'. split; [reflexivity|].
  destruct (shortest_routes_on_snapshot diamond_demand 1 diamond_start st' H)
    as (N1 & tbl1 & mr & tbl2 & E2 & _ & Hbest & _).
  destruct (Hbest "A|D") as (v & Hv & Hg).
  - simpl. tauto.
  - exists mr. rewrite Hg. vm_compute in Hv. injection Hv as <-. reflexivity.
Defined.

(** ** The blending step *)

Section Blending.

Context {F : Type} `{NumF : Num F}.

Local Abbreviation Node := (Node.t F).
Local Abbreviation Edge := (Edge.t F).

Lemma all_or_nothing_tables (E : list Edge) (ods : list string)
      (N N' : list Node) (tbl tbl' : od_table) (mr mr' : min_table) :
  all_or_nothing E (N, tbl, mr) ods = Ok (N', tbl', mr') ->
  NoDup ods ->
  forall od,
    (In od ods ->
     exists best route routes,
       best_route (names N) E od = Ok (best, route) /\
       dict_get mr' od = Some (best, route) /\
       dict_get tbl od = Some routes /\
       dict_get tbl' od =
       Some (if dict_mem routes best then routes
             else dict_set routes best (route, nof_Z 0))) /\
    (~ In od ods -> dict_get tbl' od = dict_get tbl od).
Proof.
  revert N tbl mr; induction ods as [|od0 ods IH]; cbn [all_or_nothing];
    intros N tbl mr H Hnd od.
  - injection H as _ <- _. simpl. tauto.
  - bind_inv H. destruct a as [[N1 tbl1] mr1].
    inversion Hnd as [|? ? Hni Hnd']; subst.
    pose proof (od_step_names _ _ _ _ _ _ _ _ Ha) as Hn.
    destruct (od_step_best _ _ _ _ _ _ _ _ Ha) as ([b0 r0] & Hv0 & Hmr1).
    destruct (od_step_tables _ _ _ _ _ _ _ _ Ha)
      as (b0' & r0' & routes0 & Hod0 & Hmr1' & Htbl1).
    assert (Hbr : (b0', r0') = (b0, r0)).
    { rewrite Hmr1 in Hmr1'.
      assert (Hs : dict_get (dict_set mr od0 (b0, r0)) od0
                   = dict_get (dict_set mr od0 (b0', r0')) od0) by now rewrite Hmr1'.
      rewrite !dict_get_set_same in Hs. now injection Hs as <- <-. }
    injection Hbr as -> ->.
    destruct (IH _ _ _ H Hnd' od) as [Hin Hout].
    destruct (all_or_nothing_best _ _ _ _ _ _ _ _ H od0) as [_ Hmr0].
    split.
    + intros [->|Hod].
      * exists b0, r0, routes0. repeat split; auto.
        -- rewrite Hmr0 by auto. subst mr1. apply dict_get_set_same.
        -- rewrite Hout by auto. subst tbl1.
           destruct (dict_mem routes0 b0); auto. apply dict_get_set_same.
      * destruct (Hin Hod) as (best & route & routes & Hb & Hm & Ht & Ht').
        exists best, route, routes. rewrite <- Hn. repeat split; auto.
        rewrite <- Ht. subst tbl1. destruct (dict_mem routes0 b0); auto.
        symmetry. apply dict_get_set_other. intros ->. tauto.
    + intros Hno. simpl in Hno. rewrite Hout by tauto. subst tbl1.
      destruct (dict_mem routes0 b0); auto.
      apply dict_get_set_other. tauto.
Qed.

Lemma blend_od_tables (phi : F) (OD : dict F) (mr : min_table)
      (tbl tbl' : od_table) (E E' : list Edge) (od : string) :
  blend_od phi OD mr (tbl, E) od = Ok (tbl', E') ->
  (forall od', od' <> od -> dict_get tbl' od' = dict_get tbl od') /\
  exists routes,
    dict_get tbl od = Some routes /\
    forall m demand,
      dict_get mr od = Some m -> dict_get OD od = Some demand ->
      dict_get tbl' od = Some (fst (blend_routes phi (fst m) demand routes E)) /\
      E' = snd (blend_routes phi (fst m) demand routes E).
Proof.
  unfold blend_od. intros H. bind_inv H. unfold dict_item in Ha.
  destruct (dict_get tbl od) as [routes|] eqn:Hod; [|discriminate].
  injection Ha as <-. destruct routes as [|x routes].
  - injection H as <- <-. split; auto. exists []. split; auto.
  - bind_inv H. bind_inv H. unfold dict_item in Ha, Ha0.
    destruct (dict_get mr od) as [m|]; [|discriminate].
    destruct (dict_get OD od) as [demand|]; [|discriminate].
    injection Ha as <-. injection Ha0 as <-.
    destruct (blend_routes phi (fst m) demand (x :: routes) E)
      as [routes' E2] eqn:Hb.
    injection H as <- <-. split.
    + intros od' Hne. apply dict_get_set_other. congruence.
    + exists (x :: routes). split; auto.
      intros m' demand' Hm Hd. injection Hm as <-. injection Hd as <-.
      rewrite Hb. simpl. split; auto. apply dict_get_set_same.
Qed.

Lemma blend_untouched (phi : F) (OD : dict F) (mr : min_table)
      (ods : list string) (tbl tbl' : od_table) (E E' : list Edge) (od : string) :
  blend phi OD mr (tbl, E) ods = Ok (tbl', E') ->
  ~ In od ods -> dict_get tbl' od = dict_get tbl od.
Proof.
  revert tbl E; induction ods as [|od0 ods IH]; cbn [blend]; intros tbl E H Hni.
  - now injection H as <- _.
  - bind_inv H. destruct a as [tbl1 E1]. simpl in Hni.
    rewrite (IH _ _ H) by tauto.
    apply blend_od_tables in Ha. destruct Ha as [Ho _]. apply Ho.
    intros ->. tauto.
Qed.

Lemma blend_tables (phi : F) (OD : dict F) (mr : min_table)
      (ods : list string) (tbl tbl' : od_table) (E E' : list Edge) :
  blend phi OD mr (tbl, E) ods = Ok (tbl', E') ->
  NoDup ods ->
  forall od m demand,
    In od ods -> dict_get mr od = Some m -> dict_get OD od = Some demand ->
    exists routes routes',
      dict_get tbl od = Some routes /\
      dict_get tbl' od = Some routes' /\
      forall r,
        dict_get routes' r =
        match dict_get routes r with
        | Some (route, v) =>
            Some (route,
                  blend_flow phi v
                             (if String.eqb r (fst m) then demand else nof_Z 0))
        | None => None
        end.
Proof.
  revert tbl E; induction ods as [|od0 ods IH]; cbn [blend];
    intros tbl E H Hnd od m demand Hin Hm Hd.
  - destruct Hin.
  - bind_inv H. destruct a as [tbl1 E1].
    inversion Hnd as [|? ? Hni Hnd']; subst.
    destruct (blend_od_tables _ _ _ _ _ _ _ _ Ha) as (Hother & routes0 & Hr0 & Hthis).
    destruct Hin as [->|Hin].
    + destruct (Hthis m demand Hm Hd) as [Ht1 _].
      exists routes0, (fst (blend_routes phi (fst m) demand routes0 E)).
      repeat split; auto.
      * rewrite (blend_untouched _ _ _ _ _ _ _ _ _ H Hni). exact Ht1.
      * intros r. apply blend_routes_get.
    + destruct (IH _ _ H Hnd' od m demand Hin Hm Hd)
        as (routes & routes' & Hr & Hr' & Hf).
      exists routes, routes'. repeat split; auto.
      rewrite <- Hr. symmetry. apply Hother. intros ->. tauto.
Qed.

(** The auxiliary flow of an edge. *)

Lemma add_aux_at (E : list Edge) (e i : nat) (v : F) :
  i < List.length E ->
  Edge.aux_flow (edge_at (add_aux E e v) i) =
  if Nat.eqb e i then nadd (Edge.aux_flow (edge_at E i)) v
  else Edge.aux_flow (edge_at E i).
Proof.
  intros Hi. unfold add_aux, edge_at. destruct (Nat.eqb e i) eqn:He.
  - apply Nat.eqb_eq in He. subst e. now rewrite nth_update_same.
  - apply Nat.eqb_neq in He. now rewrite nth_update_other.
Qed.

Lemma add_route_at (route : list nat) (E : list Edge) (i : nat) (v : F) :
  i < List.length E ->
  Edge.aux_flow (edge_at (fold_left (fun E0 e => add_aux E0 e v) route E) i)
  = route_adds i route v (Edge.aux_flow (edge_at E i)).
Proof.
  unfold route_adds.
  revert E; induction route as [|e route IH]; intros E Hi; simpl; auto.
  rewrite IH by now rewrite add_aux_length. now rewrite add_aux_at.
Qed.

Lemma add_route_length (route : list nat) (E : list Edge) (v : F) :
  List.length (fold_left (fun E0 e => add_aux E0 e v) route E) = List.length E.
Proof.
  revert E; induction route as [|e route IH]; intros E; simpl; auto.
  now rewrite IH, add_aux_length.
Qed.

Lemma blend_routes_at (phi : F) (best : string) (demand : F)
      (routes : routes_flow) (E : list Edge) (i : nat) :
  i < List.length E ->
  Edge.aux_flow (edge_at (snd (blend_routes phi best demand routes E)) i)
  = routes_adds i (fst (blend_routes phi best demand routes E))
                (Edge.aux_flow (edge_at E i)).
Proof.
  unfold routes_adds.
  revert E; induction routes as [|[k [route v]] routes IH]; intros E Hi; simpl; auto.
  match goal with
  | |- context [blend_routes phi best demand routes ?E1] =>
      specialize (IH E1);
      destruct (blend_routes phi best demand routes E1) as [routes' E']
  end.
  simpl in *. rewrite IH by now rewrite add_route_length.
  now rewrite add_route_at.
Qed.

Lemma blend_od_at (phi : F) (OD : dict F) (mr : min_table)
      (tbl tbl' : od_table) (E E' : list Edge) (od : string) (i : nat) :
  blend_od phi OD mr (tbl, E) od = Ok (tbl', E') ->
  i < List.length E ->
  exists routes',
    dict_get tbl' od = Some routes' /\
    Edge.aux_flow (edge_at E' i)
    = routes_adds i routes' (Edge.aux_flow (edge_at E i)).
Proof.
  unfold blend_od. intros H Hi. bind_inv H. unfold dict_item in Ha.
  destruct (dict_get tbl od) as [routes|] eqn:Hod; [|discriminate].
  injection Ha as <-. destruct routes as [|x routes].
  - injection H as <- <-. exists []. split; auto.
  - bind_inv H. bind_inv H.
    pose proof (blend_routes_at phi (fst a) a0 (x :: routes) E i Hi) as Hat.
    destruct (blend_routes phi (fst a) a0 (x :: routes) E) as [routes' E2].
    injection H as <- <-. exists routes'. split; auto.
    apply dict_get_set_same.
Qed.

Lemma blend_length (phi : F) (OD : dict F) (mr : min_table)
      (ods : list string) (tbl tbl' : od_table) (E E' : list Edge) :
  blend phi OD mr (tbl, E) ods = Ok (tbl', E') ->
  List.length E' = List.length E.
Proof.
  intros H. apply blend_fixed in H.
  apply (f_equal (@List.length _)) in H. now rewrite !length_map in H.
Qed.

Lemma blend_at (phi : F) (OD : dict F) (mr : min_table)
      (ods : list string) (tbl tbl' : od_table) (E E' : list Edge) (i : nat) :
  blend phi OD mr (tbl, E) ods = Ok (tbl', E') ->
  NoDup ods -> i < List.length E ->
  Edge.aux_flow (edge_at E' i)
  = table_adds i ods tbl' (Edge.aux_flow (edge_at E i)).
Proof.
  unfold table_adds.
  revert tbl E; induction ods as [|od ods IH]; cbn [blend];
    intros tbl E H Hnd Hi.
  - now injection H as _ <-.
  - bind_inv H. destruct a as [tbl1 E1].
    inversion Hnd as [|? ? Hni Hnd']; subst.
    destruct (blend_od_at _ _ _ _ _ _ _ _ i Ha Hi) as (routes' & Hr & Hat).
    assert (Hl : List.length E1 = List.length E).
    { apply blend_od_fixed in Ha. apply (f_equal (@List.length _)) in Ha.
      now rewrite !length_map in Ha. }
    simpl. rewrite (blend_untouched _ _ _ _ _ _ _ _ _ H Hni), Hr.
    rewrite (IH _ _ H Hnd') by now rewrite Hl. now rewrite Hat.
Qed.

Lemma edge_at_map (h : Edge -> Edge) (E : list Edge) (i : nat) :
  i < List.length E -> edge_at (map h E) i = h (edge_at E i).
Proof.
  intros Hi. unfold edge_at.
  rewrite (nth_indep _ no_edge (h no_edge)) by now rewrite length_map.
  apply map_nth.
Qed.

(** C3: iteration [n] gives every route tracked for a pair, the one found
    in this iteration included (which starts at 0 when it is new), the flow
    [max((1 - phi) * flow + phi * fa, 0)] with [phi = 1 / n] and [fa] the
    demand of the pair on its best route of the iteration and 0 on the
    others; the new flow of an edge is what these route flows add up to,
    route after route, over the routes that go through it. *)
Theorem blend_step_formula (OD : dict F) (n : nat) (st st' : state) :
  NoDup (keys OD) ->
  msa_iteration OD n st = Ok st' ->
  let phi := ndiv (nof_Z 1) (nof_Z (Z.of_nat n)) in
  (forall od demand,
      dict_get OD od = Some demand ->
      exists best route_best routes routes',
        best_route (names (nodes st)) (edges st) od = Ok (best, route_best) /\
        dict_get (table st) od = Some routes /\
        dict_get (table st') od = Some routes' /\
        forall r,
          dict_get routes' r =
          match dict_get routes r with
          | Some (route, flow) =>
              Some (route,
                    py_max (nadd (nmul (nsub (nof_Z 1) phi) flow)
                                 (nmul phi (if String.eqb r best
                                            then demand else nof_Z 0)))
                           (nof_Z 0))
          | None =>
              if String.eqb r best
              then Some (route_best,
                         py_max (nadd (nmul (nsub (nof_Z 1) phi) (nof_Z 0))
                                      (nmul phi demand))
                                (nof_Z 0))
              else None
          end) /\
  (forall i, i < List.length (edges st) ->
             Edge.flow (edge_at (edges st') i)
             = table_adds i (keys OD) (table st') (nof_Z 0)).
Proof.
  intros Hnd H phi. unfold msa_iteration in H. fold phi in H.
  bind_inv H. destruct a as [[N1 tbl1] mr].
  bind_inv H. destruct a as [tbl2 E2]. injection H as <-.
  cbn [table edges nodes]. split.
  - intros od demand Hd.
    assert (Hin : In od (keys OD)) by (eapply dict_get_In_keys; eauto).
    destruct (all_or_nothing_tables _ _ _ _ _ _ _ _ Ha Hnd od) as [Hthis _].
    destruct (Hthis Hin) as (best & route & routes & Hb & Hm & Ht & Ht1).
    rewrite (best_route_map clear_aux) in Hb by reflexivity.
    destruct (blend_tables _ _ _ _ _ _ _ _ Ha0 Hnd od (best, route) demand
                           Hin Hm Hd) as (routes1 & routes' & Hr1 & Hr' & Hf).
    rewrite Ht1 in Hr1. injection Hr1 as <-.
    exists best, route, routes, routes'. repeat split; auto.
    intros r. rewrite Hf. cbn [fst]. unfold dict_mem, blend_flow.
    destruct (dict_get routes best) as [x|] eqn:Hbest.
    + destruct (dict_get routes r) as [[rt v]|] eqn:Hr; auto.
      destruct (String.eqb r best) eqn:He; auto.
      apply String.eqb_eq in He. congruence.
    + rewrite dict_get_set, (String.eqb_sym best r).
      destruct (String.eqb r best) eqn:He.
      * apply String.eqb_eq in He. subst r. now rewrite Hbest.
      * destruct (dict_get routes r) as [[rt v]|]; auto.
  - intros i Hi.
    assert (Hl1 : List.length (map clear_aux (edges st)) = List.length (edges st))
      by apply length_map.
    pose proof (blend_length _ _ _ _ _ _ _ _ Ha0) as Hl2.
    rewrite edge_at_map by lia. unfold apply_flow, update_cost. cbn [Edge.flow].
    rewrite (blend_at _ _ _ _ _ _ _ _ i Ha0 Hnd) by lia.
    now rewrite edge_at_map by lia.
Qed.

End Blending.

Lemma blend_step_formula_witness :
  exists st',
    msa_iteration diamond_demand 1 diamond_start = Ok st' /\
    Edge.flow (edge_at (edges st') 0)
    = table_adds 0 (keys diamond_demand) (table st') 0%Q.
Proof.
  destruct (msa_iteration diamond_demand 1 diamond_start) as [st'| |] eqn:H;
    [|vm_compute in H; discriminate..].
  exists st'. split; [reflexivity|].
  destruct (blend_step_formula diamond_demand 1 diamond_start st') as [_ He].
  - repeat constructor. simpl. tauto.
  - exact H.
  - apply He. simpl. lia.
Defined.

(** ** Flows are not negative *)

Lemma Forall_dict_set {V : Type} (P : V -> Prop) (d : dict V) (k : string)
      (v : V) :
  Forall (fun x => P (snd x)) d -> P v ->
  Forall (fun x => P (snd x)) (dict_set d k v).
Proof.
  intros Hd Hv. induction d as [|[k' v'] d IH]; simpl.
  - repeat constructor. exact Hv.
  - inversion Hd; subst. destruct (String.eqb k' k); constructor; auto.
Qed.

Lemma Forall_dict_get {V : Type} (P : V -> Prop) (d : dict V) (k : string)
      (v : V) :
  Forall (fun x => P (snd x)) d -> dict_get d k = Some v -> P v.
Proof.
  intros Hd. induction d as [|[k' v'] d IH]; simpl; [discriminate|].
  inversion Hd; subst. destruct (String.eqb k' k); auto.
  intros Hv; injection Hv as <-. assumption.
Qed.

Section NonNegative.

Local Abbreviation Node := (Node.t Q).
Local Abbreviation Edge := (Edge.t Q).

Lemma blend_flow_nonneg (phi vna fa : Q) : (0 <= blend_flow phi vna fa)%Q.
Proof.
  unfold blend_flow, py_max. cbn [nltb Q_Num].
  destruct (Qltb _ _) eqn:Hlt.
  - q_unfold. lra.
  - apply Qltb_false in Hlt. exact Hlt.
Qed.

Lemma od_step_nonneg (E : list Edge) (N N' : list Node)
      (tbl tbl' : od_table) (mr mr' : min_table) (od : string) :
  od_step E (N, tbl, mr) od = Ok (N', tbl', mr') ->
  table_nonneg tbl -> table_nonneg tbl'.
Proof.
  intros H Ht. apply od_step_tables in H.
  destruct H as (best & route & routes & Hod & _ & ->).
  destruct (dict_mem routes best); auto.
  unfold table_nonneg in *.
  apply (Forall_dict_set
           (fun routes0 => Forall (fun y => (0 <= snd (snd y))%Q) routes0)); auto.
  apply (Forall_dict_set (fun y : list nat * Q => (0 <= snd y)%Q)).
  - exact (Forall_dict_get
             (fun routes0 => Forall (fun y => (0 <= snd (snd y))%Q) routes0)
             tbl od routes Ht Hod).
  - simpl. q_unfold. lra.
Qed.

Lemma all_or_nothing_nonneg (E : list Edge) (ods : list string)
      (N N' : list Node) (tbl tbl' : od_table) (mr mr' : min_table) :
  all_or_nothing E (N, tbl, mr) ods = Ok (N', tbl', mr') ->
  table_nonneg tbl -> table_nonneg tbl'.
Proof.
  revert N tbl mr; induction ods as [|od ods IH]; cbn [all_or_nothing];
    intros N tbl mr H Ht.
  - now injection H as _ <- _.
  - bind_inv H. destruct a as [[N1 tbl1] mr1].
    eapply IH; eauto. eapply od_step_nonneg; eauto.
Qed.

Lemma add_aux_nonneg (E : list Edge) (e : nat) (v : Q) :
  (0 <= v)%Q -> aux_nonneg E -> aux_nonneg (add_aux E e v).
Proof.
  intros Hv HE. unfold add_aux, aux_nonneg. apply Forall_update; auto.
  cbn [Edge.flow Edge.aux_flow nadd Q_Num].
  assert (He : (0 <= Edge.flow (edge_at E e))%Q /\
               (0 <= Edge.aux_flow (edge_at E e))%Q).
  { unfold edge_at. destruct (Nat.lt_ge_cases e (List.length E)) as [Hi|Hi].
    - unfold aux_nonneg in HE. rewrite Forall_forall in HE.
      apply HE. now apply nth_In.
    - rewrite nth_overflow by auto. simpl. q_unfold. lra. }
  destruct He. split; auto. lra.
Qed.

Lemma add_route_nonneg (route : list nat) (E : list Edge) (v : Q) :
  (0 <= v)%Q -> aux_nonneg E ->
  aux_nonneg (fold_left (fun E0 e => add_aux E0 e v) route E).
Proof.
  intros Hv. revert E; induction route as [|e route IH]; intros E HE; simpl; auto.
  apply IH. now apply add_aux_nonneg.
Qed.

Lemma blend_routes_nonneg (phi : Q) (best : string) (demand : Q)
      (routes : routes_flow) (E : list Edge) :
  aux_nonneg E ->
  Forall (fun y => (0 <= snd (snd y))%Q)
         (fst (blend_routes phi best demand routes E)) /\
  aux_nonneg (snd (blend_routes phi best demand routes E)).
Proof.
  revert E; induction routes as [|[k [route v]] routes IH]; intros E HE; simpl; auto.
  match goal with
  | |- context [blend_routes phi best demand routes ?E1] =>
      specialize (IH E1);
      destruct (blend_routes phi best demand routes E1) as [routes' E']
  end.
  simpl in *. destruct IH as [IH1 IH2].
  - apply add_route_nonneg; auto. apply blend_flow_nonneg.
  - split; auto. constructor; auto. simpl. apply blend_flow_nonneg.
Qed.

Lemma blend_od_nonneg (phi : Q) (OD : dict Q) (mr : min_table)
      (tbl tbl' : od_table) (E E' : list Edge) (od : string) :
  blend_od phi OD mr (tbl, E) od = Ok (tbl', E') ->
  table_nonneg tbl -> aux_nonneg E -> table_nonneg tbl' /\ aux_nonneg E'.
Proof.
  unfold blend_od. intros H Ht HE. bind_inv H. destruct a as [|x routes].
  - injection H as <- <-. auto.
  - bind_inv H. bind_inv H.
    destruct (blend_routes_nonneg phi (fst a) a0 (x :: routes) E HE) as [H1 H2].
    destruct (blend_routes phi (fst a) a0 (x :: routes) E) as [routes' E2].
    injection H as <- <-. split; auto.
    apply (Forall_dict_set
             (fun routes0 => Forall (fun y => (0 <= snd (snd y))%Q) routes0));
      auto.
Qed.

Lemma blend_nonneg (phi : Q) (OD : dict Q) (mr : min_table)
      (ods : list string) (tbl tbl' : od_table) (E E' : list Edge) :
  blend phi OD mr (tbl, E) ods = Ok (tbl', E') ->
  table_nonneg tbl -> aux_nonneg E -> table_nonneg tbl' /\ aux_nonneg E'.
Proof.
  revert tbl E; induction ods as [|od ods IH]; cbn [blend]; intros tbl E H Ht HE.
  - injection H as <- <-. auto.
  - bind_inv H. destruct a as [tbl1 E1].
    destruct (blend_od_nonneg _ _ _ _ _ _ _ _ Ha Ht HE). eauto.
Qed.

Lemma clear_aux_nonneg (E : list Edge) :
  Forall (fun e : Edge => (0 <= Edge.flow e)%Q) E ->
  aux_nonneg (map clear_aux E).
Proof.
  intros HE. unfold aux_nonneg. apply Forall_map.
  revert HE. apply Forall_impl. intros e He. simpl. split; auto.
  q_unfold. lra.
Qed.

Lemma apply_flow_nonneg (E : list Edge) :
  aux_nonneg E -> Forall (fun e : Edge => (0 <= Edge.flow e)%Q) (map apply_flow E).
Proof.
  intros HE. apply Forall_map. revert HE. apply Forall_impl.
  intros e [_ He]. exact He.
Qed.

Lemma msa_iteration_nonneg (OD : dict Q) (n : nat) (st st' : state) :
  msa_iteration OD n st = Ok st' -> flows_nonneg st -> flows_nonneg st'.
Proof.
  unfold msa_iteration. intros H [HE Ht]. bind_inv H.
  destruct a as [[N1 tbl1] mr]. bind_inv H. destruct a as [tbl2 E2].
  injection H as <-.
  apply all_or_nothing_nonneg in Ha; auto.
  destruct (blend_nonneg _ _ _ _ _ _ _ _ Ha0 Ha (clear_aux_nonneg _ HE)).
  split; simpl; auto. now apply apply_flow_nonneg.
Qed.

Lemma init_table_nonneg (OD : dict Q) : table_nonneg (init_table OD).
Proof.
  unfold table_nonneg, init_table. apply Forall_map.
  apply Forall_forall. intros x _. constructor.
Qed.

(** C4: from edges that carry no negative flow, which is how [Edge] makes
    them, no route flow and no edge flow is negative after any number of
    iterations, nor inside an iteration: after any part of the
    all-or-nothing loop, after any part of the blending loop (where the
    auxiliary flows are not negative either) and after the final pass.
    The maximum with 0 makes it so whatever the demands are. *)
Theorem flows_nonnegative (OD : dict Q) (N : list Node) (E : list Edge) :
  Forall (fun e : Edge => (0 <= Edge.flow e)%Q) E ->
  (forall its st,
      msa_loop OD its (mkState N E (init_table OD)) = Ok st ->
      flows_nonneg st) /\
  (forall n st,
      flows_nonneg st ->
      (forall ods N1 tbl1 mr,
          all_or_nothing (map clear_aux (edges st)) (nodes st, table st, []) ods
          = Ok (N1, tbl1, mr) ->
          table_nonneg tbl1) /\
      (forall ods tbl1 mr tbl2 E2,
          table_nonneg tbl1 ->
          blend (ndiv (nof_Z 1) (nof_Z (Z.of_nat n))) OD mr
                (tbl1, map clear_aux (edges st)) ods = Ok (tbl2, E2) ->
          table_nonneg tbl2 /\
          Forall (fun e : Edge =>
                    (0 <= Edge.flow e)%Q /\ (0 <= Edge.aux_flow e)%Q) E2) /\
      (forall st', msa_iteration OD n st = Ok st' -> flows_nonneg st')) /\
  (forall start end_ function,
      (0 <= Edge.flow (Edge_init start end_ function))%Q).
Proof.
  intros HE. split; [|split].
  - intros its; induction its as [|its IH]; intros st H.
    + injection H as <-. split; simpl; auto. apply init_table_nonneg.
    + cbn [msa_loop] in H. bind_inv H.
      eapply msa_iteration_nonneg; eauto.
  - intros n st [HEs Ht]. split; [|split].
    + intros ods N1 tbl1 mr H. eapply all_or_nothing_nonneg; eauto.
    + intros ods tbl1 mr tbl2 E2 Ht1 H.
      eapply blend_nonneg; eauto. now apply clear_aux_nonneg.
    + intros st' H. eapply msa_iteration_nonneg; eauto. split; auto.
  - intros start end_ function. simpl. q_unfold. lra.
Qed.

End NonNegative.

Lemma flows_nonnegative_witness : 
  exists st, msa_loop diamond_demand 3 diamond_start = Ok st /\ flows_nonneg st.
Proof.
  destruct (msa_loop diamond_demand 3 diamond_start) as [st| |] eqn:H;
    [|vm_compute in H; discriminate..].
  exists st. split; [reflexivity|].
  destruct (flows_nonnegative diamond_demand diamond_nodes diamond_edges)
    as [Hloop _].
  - repeat constructor; vm_compute; discriminate.
  - apply (Hloop 3 st). exact H.
Defined.

(** ** The convergence evaluation *)

Section Evaluation.

Local Abbreviation Node := (Node.t Q).
Local Abbreviation Edge := (Edge.t Q).

Variable E : list Edge.

Lemma route_edges_cost_spec (route : list nat) (flow c s : Q) :
  fst (route_edges_cost E route flow (c, s))
  = fold_left (fun c0 e => (c0 + Edge.cost (edge_at E e))%Q) route c /\
  (snd (route_edges_cost E route flow (c, s))
   == s + flow * (fold_left (fun c0 e => (c0 + Edge.cost (edge_at E e))%Q)
                            route c - c))%Q.
Proof.
  unfold route_edges_cost.
  revert c s; induction route as [|e route IH]; intros c s; simpl.
  - split; auto. ring.
  - destruct (IH (c + Edge.cost (edge_at E e))%Q
                 (s + Edge.cost (edge_at E e) * flow)%Q) as [IH1 IH2].
    split; [exact IH1|]. rewrite IH2. ring.
Qed.

Lemma eval_routes_spec (od : string) (routes : routes_flow) (s : Q)
      (mc : option Q) (aux : list (string * string * Q * Q)) :
  exists s' mc',
    eval_routes E od routes (s, mc, aux)
    = Ok (s', mc', (aux ++ route_rows E od routes)%list) /\
    (s' == s + Qsum (map (route_time E) routes))%Q /\
    (mc' = None -> mc = None /\ routes = []).
Proof.
  revert s mc aux; induction routes as [|[r [route flow]] routes IH];
    intros s mc aux.
  - exists s, mc. simpl. rewrite app_nil_r. repeat split; auto. ring.
  - cbn [eval_routes].
    destruct (route_edges_cost_spec route flow (inject_Z 0) s) as [H1 H2].
    change (@nof_Z Q Q_Num 0) with (inject_Z 0) in *.
    destruct (route_edges_cost E route flow (inject_Z 0, s)) as [cost0 s1].
    simpl in H1, H2. unfold round2. cbn [nround Q_Num bind].
    match goal with
    | |- context [eval_routes E od routes (s1, ?mc1, ?aux1)] =>
        destruct (IH s1 mc1 aux1) as (s' & mc' & He & Hs & Hn)
    end.
    exists s', mc'. split; [|split].
    + rewrite He. f_equal. f_equal. rewrite <- app_assoc. f_equal.
      simpl. unfold rounded_cost, raw_cost. rewrite <- H1. reflexivity.
    + rewrite Hs, H2. simpl. unfold route_time at 2. simpl.
      unfold raw_cost. ring.
    + intros Hm. destruct (Hn Hm) as [Hl _].
      destruct mc as [m|]; simpl in Hl; [|discriminate].
      match type of Hl with
      | context [if ?b then _ else _] => destruct b
      end; discriminate.
Qed.

Lemma eval_aux_rows (m : Q) (aux : list (string * string * Q * Q))
      (dev top : Q) (rs : list row) :
  map row_fields (snd (eval_aux m aux (dev, top, rs)))
  = (map row_fields rs ++ aux)%list.
Proof.
  unfold eval_aux.
  revert dev top rs; induction aux as [|[[[od r] flow] cost] aux IH];
    intros dev top rs; simpl.
  - now rewrite app_nil_r.
  - rewrite IH, map_app. simpl. now rewrite <- app_assoc.
Qed.

Lemma Qsum_app (l1 l2 : list Q) : (Qsum (l1 ++ l2) == Qsum l1 + Qsum l2)%Q.
Proof.
  unfold Qsum. induction l1 as [|a l1 IH]; simpl; [ring|].
  rewrite IH. ring.
Qed.

Lemma eval_ods_spec (OD : dict Q) (tbl : od_table) (t : totals)
      (rs : list row) :
  incl (keys tbl) (keys OD) ->
  exists t' rs',
    eval_ods OD E tbl (t, rs) = Ok (t', rs') /\
    (sum_tt t' == sum_tt t + system_time E tbl)%Q /\
    map row_fields rs' = (map row_fields rs ++ expected_rows E tbl)%list /\
    delta_bottom t'
    = fold_left Qplus (demands_of OD (keys tbl)) (delta_bottom t).
Proof.
  revert t rs; induction tbl as [|[od routes] tbl IH]; intros t rs Hk.
  - exists t, rs. simpl. rewrite app_nil_r. repeat split; auto.
    unfold system_time. simpl. ring.
  - cbn [eval_ods].
    destruct (eval_routes_spec od routes (sum_tt t) None [])
      as (s1 & mc1 & He & Hs & Hn).
    rewrite He. cbn [bind app].
    assert (Hod : In od (keys OD)) by (apply Hk; simpl; auto).
    destruct (dict_get OD od) as [demand|] eqn:Hd.
    2:{ exfalso. now apply dict_get_None in Hd. }
    unfold dict_item. rewrite Hd. cbn [bind].
    set (acc := match mc1 with
                | Some m =>
                    eval_aux m (route_rows E od routes)
                             (sum_deviations t, delta_top t, rs)
                | None => (sum_deviations t, delta_top t, rs)
                end).
    assert (Hrows : map row_fields (snd acc)
                    = (map row_fields rs ++ route_rows E od routes)%list).
    { unfold acc. destruct mc1 as [m|].
      - apply eval_aux_rows.
      - destruct (Hn eq_refl) as [_ ->]. simpl. now rewrite app_nil_r. }
    destruct acc as [[dev top] rs1]. simpl in Hrows.
    destruct (IH (mkTotals s1 dev top (nadd (delta_bottom t) demand)) rs1)
      as (t' & rs' & He' & Hs' & Hr' & Hb').
    { intros k Hin. apply Hk. simpl. auto. }
    exists t', rs'. split; [exact He'|]. split; [|split].
    + rewrite Hs'. cbn [sum_tt]. rewrite Hs. unfold system_time.
      cbn [flat_map snd]. rewrite map_app, Qsum_app. ring.
    + rewrite Hr', Hrows. unfold expected_rows. simpl.
      now rewrite <- app_assoc.
    + rewrite Hb'. simpl. now rewrite Hd.
Qed.

Lemma demands_of_keys (OD : dict Q) :
  NoDup (keys OD) -> demands_of OD (keys OD) = map snd OD.
Proof.
  unfold demands_of, keys. intros Hnd. rewrite map_map.
  apply map_ext_in. intros [k v] Hin. simpl.
  now rewrite (dict_get_NoDup OD k v Hnd Hin).
Qed.

End Evaluation.

Lemma Qeq_bool_false (a b : Q) : ~ (a == b)%Q -> Qeq_bool a b = false.
Proof.
  intros Hne. destruct (Qeq_bool a b) eqn:He; auto.
  apply Qeq_bool_eq in He. contradiction.
Qed.

Section TableKeys.

Context {F : Type} `{NumF : Num F}.

Lemma od_step_keys (E : list (Edge.t F)) (N N' : list (Node.t F))
      (tbl tbl' : od_table) (mr mr' : min_table) (od : string) :
  od_step E (N, tbl, mr) od = Ok (N', tbl', mr') -> keys tbl' = keys tbl.
Proof.
  intros H. apply od_step_tables in H.
  destruct H as (best & route & routes & Hod & _ & ->).
  destruct (dict_mem routes best); auto.
  apply keys_dict_set_present. eapply dict_get_In_keys; eauto.
Qed.

Lemma all_or_nothing_keys (E : list (Edge.t F)) (ods : list string)
      (N N' : list (Node.t F)) (tbl tbl' : od_table) (mr mr' : min_table) :
  all_or_nothing E (N, tbl, mr) ods = Ok (N', tbl', mr') -> keys tbl' = keys tbl.
Proof.
  revert N tbl mr; induction ods as [|od ods IH]; cbn [all_or_nothing];
    intros N tbl mr H.
  - now injection H as _ <- _.
  - bind_inv H. destruct a as [[N1 tbl1] mr1].
    apply od_step_keys in Ha. apply IH in H. congruence.
Qed.

Lemma blend_od_keys (phi : F) (OD : dict F) (mr : min_table)
      (tbl tbl' : od_table) (E E' : list (Edge.t F)) (od : string) :
  blend_od phi OD mr (tbl, E) od = Ok (tbl', E') -> keys tbl' = keys tbl.
Proof.
  unfold blend_od. intros H. bind_inv H. unfold dict_item in Ha.
  destruct (dict_get tbl od) as [routes|] eqn:Hod; [|discriminate].
  injection Ha as <-. destruct routes as [|x routes].
  - now injection H as <- _.
  - bind_inv H. bind_inv H.
    destruct (blend_routes phi (fst a) a0 (x :: routes) E) as [routes' E2].
    injection H as <- _.
    apply keys_dict_set_present. eapply dict_get_In_keys; eauto.
Qed.

Lemma blend_keys (phi : F) (OD : dict F) (mr : min_table)
      (ods : list string) (tbl tbl' : od_table) (E E' : list (Edge.t F)) :
  blend phi OD mr (tbl, E) ods = Ok (tbl', E') -> keys tbl' = keys tbl.
Proof.
  revert tbl E; induction ods as [|od ods IH]; cbn [blend]; intros tbl E H.
  - now injection H as <- _.
  - bind_inv H. destruct a as [tbl1 E1].
    apply blend_od_keys in Ha. apply IH in H. congruence.
Qed.

Lemma msa_iteration_keys (OD : dict F) (n : nat) (st st' : state) :
  msa_iteration OD n st = Ok st' -> keys (table st') = keys (table st).
Proof.
  unfold msa_iteration. intros H. bind_inv H. destruct a as [[N1 tbl1] mr].
  bind_inv H. destruct a as [tbl2 E2]. injection H as <-. simpl.
  apply all_or_nothing_keys in Ha. apply blend_keys in Ha0. congruence.
Qed.

Lemma msa_loop_keys (OD : dict F) (its : nat) (st st' : state) :
  msa_loop OD its st = Ok st' -> keys (table st') = keys (table st).
Proof.
  revert st'; induction its as [|its IH]; cbn [msa_loop]; intros st' H.
  - now injection H as <-.
  - bind_inv H. apply msa_iteration_keys in H. rewrite H. auto.
Qed.

Lemma init_table_keys (OD : dict F) : keys (init_table OD) = keys OD.
Proof. unfold keys, init_table. rewrite map_map. reflexivity. Qed.

End TableKeys.

Lemma evaluate_zero_demand (OD : dict Q) (tbl : od_table)
      (E : list (Edge.t Q)) (output : bool) :
  (total_demand OD == 0)%Q ->
  incl (keys tbl) (keys OD) ->
  evaluate_assignment OD tbl E output = Raise ZeroDivisionError.
Proof.
  intros Hz Hk. unfold evaluate_assignment.
  destruct (eval_ods_spec E OD tbl
              (mkTotals (inject_Z 0) (inject_Z 0) (inject_Z 0) (inject_Z 0)) []
              Hk) as (t & rs & He & _).
  change (@nof_Z Q Q_Num 0) with (inject_Z 0). rewrite He. cbn [bind].
  unfold py_div. cbn [neqb Q_Num nof_Z].
  match goal with
  | |- context [Qeq_bool ?a ?b] =>
      replace (Qeq_bool a b) with true
        by (symmetry; apply Qeq_bool_iff; exact Hz)
  end.
  reflexivity.
Qed.

Lemma evaluate_zero_demand_any {F : Type} `{NumF : Num F}
      (OD : dict F) (tbl : od_table) (E : list (Edge.t F)) (output : bool) :
  neqb (total_demand OD) (nof_Z 0) = true ->
  evaluate_assignment OD tbl E output
  = match eval_ods OD E tbl
            (mkTotals (nof_Z 0) (nof_Z 0) (nof_Z 0) (nof_Z 0), []) with
    | Ok _ => Raise ZeroDivisionError
    | Raise e => Raise e
    | Diverges => Diverges
    end.
Proof.
  intros Hz. unfold evaluate_assignment.
  destruct (eval_ods _ _ _ _) as [[t rs]| |]; cbn [bind]; auto.
  unfold py_div. rewrite Hz. reflexivity.
Qed.

Lemma float_round_outcome (x : float) : raises_loop_error (float_round x).
Proof.
  unfold float_round, raises_loop_error, loop_error.
  destruct (Prim2SF x); auto.
Qed.

Lemma eval_routes_binary64 (E : list (Edge.t float)) (od : string)
      (routes : routes_flow)
      (acc : float * option float * list (string * string * float * float)) :
  raises_loop_error (eval_routes E od routes acc).
Proof.
  revert acc; induction routes as [|[r [route flow]] routes IH]; intros acc.
  - exact I.
  - cbn [eval_routes]. destruct acc as [[stt mc] aux].
    destruct (route_edges_cost E route flow (nof_Z 0, stt)) as [cost0 stt'].
    unfold round2. cbn [nround float_Num].
    pose proof (float_round_outcome (nmul cost0 (nof_Z 100))) as Hr.
    cbn [nmul nof_Z float_Num] in *.
    destruct (float_round _) as [z| |]; cbn [bind]; auto.
Qed.

Lemma eval_ods_binary64 (OD : dict float) (E : list (Edge.t float))
      (tbl : od_table) (acc : totals * list row) :
  raises_loop_error (eval_ods OD E tbl acc).
Proof.
  revert acc; induction tbl as [|[od routes] tbl IH]; intros [t rs].
  - exact I.
  - cbn [eval_ods].
    pose proof (eval_routes_binary64 E od routes (sum_tt t, None, [])) as Hr.
    destruct (eval_routes E od routes (sum_tt t, None, []))
      as [[[stt mc] aux]| |]; cbn [bind]; auto.
    destruct (match mc with
              | Some m => _
              | None => _
              end) as [[dev top] rs'].
    unfold dict_item. destruct (dict_get OD od) as [demand|]; cbn [bind].
    + apply IH.
    + right. right. reflexivity.
Qed.

(** C7, as the code has it: when the demands add up to zero the evaluation
    gives no value back, in any arithmetic, and nothing reports a condition
    of its own.  Once its loops over the table are through, it fails on the
    division [sum_tt / sum(...)] with the interpreter's
    [ZeroDivisionError]; a loop that raises ends the call before.  In
    binary64 the only errors of the loops are those of [round] on a cost
    that is not finite once scaled and the [KeyError] of a pair that is
    not in the demand; in exact arithmetic, for a table whose pairs are in
    the demand, as the table of a run is, the outcome is the
    [ZeroDivisionError]. *)
Theorem zero_demand_division_error :
  (forall (F : Type) (NumF : Num F) (OD : dict F) (tbl : od_table)
          (E : list (Edge.t F)) (output : bool),
      neqb (total_demand OD) (nof_Z 0) = true ->
      evaluate_assignment OD tbl E output
      = match eval_ods OD E tbl
                (mkTotals (nof_Z 0) (nof_Z 0) (nof_Z 0) (nof_Z 0), []) with
        | Ok _ => Raise ZeroDivisionError
        | Raise e => Raise e
        | Diverges => Diverges
        end /\
      is_ok (evaluate_assignment OD tbl E output) = false /\
      forall its N, is_ok (run_MSA its N E OD output) = false) /\
  (forall (OD : dict float) (tbl : od_table) (E : list (Edge.t float))
          (output : bool),
      PrimFloat.eqb (total_demand OD) (float_of_Z 0) = true ->
      exists e,
        evaluate_assignment OD tbl E output = Raise e /\
        (e = ZeroDivisionError \/ loop_error e)) /\
  (forall OD : dict Q,
      (total_demand OD == 0)%Q ->
      (forall tbl E output,
          incl (keys tbl) (keys OD) ->
          evaluate_assignment OD tbl E output = Raise ZeroDivisionError) /\
      (forall its N E output st,
          msa_loop OD its (mkState N E (init_table OD)) = Ok st ->
          run_MSA its N E OD output = Raise ZeroDivisionError)).
Proof.
  split; [|split].
  - intros F NumF OD tbl E output Hz.
    assert (Hno : forall tbl1 E1,
               is_ok (evaluate_assignment OD tbl1 E1 output) = false).
    { intros tbl1 E1. rewrite (evaluate_zero_demand_any OD tbl1 E1 output Hz).
      destruct (eval_ods _ _ _ _); reflexivity. }
    split; [now apply evaluate_zero_demand_any|]. split; [apply Hno|].
    intros its N. unfold run_MSA.
    destruct (msa_loop OD its _) as [st| |]; cbn [bind is_ok]; auto.
    specialize (Hno (table st) (edges st)).
    destruct (evaluate_assignment OD (table st) (edges st) output);
      cbn [bind is_ok] in *; auto.
  - intros OD tbl E output Hz.
    rewrite (@evaluate_zero_demand_any float float_Num OD tbl E output Hz).
    pose proof (eval_ods_binary64 OD E tbl
                  (mkTotals (nof_Z 0) (nof_Z 0) (nof_Z 0) (nof_Z 0), []))
      as Hl.
    destruct (eval_ods _ _ _ _) as [x|e|].
    + exists ZeroDivisionError. auto.
    + exists e. auto.
    + destruct Hl.
  - intros OD Hz. split.
    + intros tbl E output Hk. now apply evaluate_zero_demand.
    + intros its N E output st Hl. unfold run_MSA. rewrite Hl. cbn [bind].
      rewrite evaluate_zero_demand; auto.
      apply msa_loop_keys in Hl. simpl in Hl. rewrite Hl, init_table_keys.
      apply incl_refl.
Qed.

Lemma zero_demand_division_error_witness :
  evaluate_assignment [("A|D", 0%Q)] diamond_table diamond_edges true
  = Raise ZeroDivisionError /\
  is_ok (run_MSA 3 diamond_nodes diamond_edges [("A|D", 0%Q)] true) = false /\
  exists e,
    evaluate_assignment [("A|B", 0%float)]
                        [("A|B", [("A-B", ([0], 1%float))])] float_edges true
    = Raise e /\
    (e = ZeroDivisionError \/ loop_error e).
Proof.
  destruct zero_demand_division_error as (Hany & Hfloat & Hexact).
  split; [|split].
  - apply (Hexact [("A|D", 0%Q)]).
    + reflexivity.
    + intros k Hk. exact Hk.
  - apply (Hany Q Q_Num [("A|D", 0%Q)] diamond_table diamond_edges true).
    reflexivity.
  - apply Hfloat. vm_compute. reflexivity.
Defined.

(** In binary64 a cost that is too large to be scaled ends the evaluation
    in the loop, before the division is reached. *)
Lemma zero_demand_overflow_binary64 :
  let E := [Edge_init "A" "B" (fun _ => 0x1p+1020%float)] in
  evaluate_assignment [("A|B", 0%float)]
                      [("A|B", [("A-B", ([0], 1%float))])] E true
  = Raise OverflowError.
Proof. vm_compute. reflexivity. Qed.

(** C7 fails on the code: a run whose only demand is 0 ends in the
    division error. *)
Lemma zero_demand_counterexample :
  (total_demand [("A|D", 0%Q)] == 0)%Q /\
  run_MSA 1 diamond_nodes diamond_edges [("A|D", 0%Q)] true
  = Raise ZeroDivisionError.
Proof. split; [reflexivity|]. vm_compute. reflexivity. Qed.

(** With a demand that is not zero the evaluation goes through: the loops
    end, both divisions are defined, and the report is written. *)
Lemma evaluate_assignment_unfolds
      (OD : dict Q) (tbl : od_table) (E : list (Edge.t Q)) :
  NoDup (keys OD) ->
  keys tbl = keys OD ->
  ~ (total_demand OD == 0)%Q ->
  exists t rs,
    eval_ods OD E tbl
             (mkTotals (inject_Z 0) (inject_Z 0) (inject_Z 0) (inject_Z 0), [])
    = Ok (t, rs) /\
    (sum_tt t == system_time E tbl)%Q /\
    map row_fields rs = expected_rows E tbl /\
    evaluate_assignment OD tbl E true
    = Ok ((sum_tt t / total_demand OD)%Q,
          mkReport rs (sum_tt t / total_demand OD)%Q
                   (Qtrunc (sum_deviations t))
                   (delta_top t / delta_bottom t)%Q).
Proof.
  intros Hnd Hk Hnz.
  destruct (eval_ods_spec E OD tbl
              (mkTotals (inject_Z 0) (inject_Z 0) (inject_Z 0) (inject_Z 0)) [])
    as (t & rs & He & Hs & Hr & Hb).
  { rewrite Hk. apply incl_refl. }
  exists t, rs. split; [exact He|]. split; [|split; [exact Hr|]].
  - rewrite Hs. simpl. ring.
  - unfold evaluate_assignment.
    change (@nof_Z Q Q_Num 0) with (inject_Z 0). rewrite He. cbn [bind].
    assert (Hbot : delta_bottom t = total_demand OD).
    { rewrite Hb, Hk, demands_of_keys by auto. reflexivity. }
    unfold py_div. cbn [neqb Q_Num nof_Z ndiv].
    rewrite Hbot.
    repeat match goal with
           | |- context [Qeq_bool ?a ?b] =>
               replace (Qeq_bool a b) with false
                 by (symmetry; apply Qeq_bool_false; exact Hnz)
           end.
    reflexivity.
Qed.

(** C6, as the code has it, in exact arithmetic: for a table with the keys
    of the demand, which are distinct, and demands that do not add up to
    zero, the evaluation with [output] on gives a result; the cost written
    for a route is the sum of the current costs of its edges rounded to two
    decimal places, ties to even, but [sum_tt] adds up flow times cost edge
    by edge, on the costs as they are, not on the rounded route cost; the
    value given back is that total divided by the sum of the demands. *)
Theorem evaluate_assignment_travel_time
        (OD : dict Q) (tbl : od_table) (E : list (Edge.t Q)) :
  NoDup (keys OD) ->
  keys tbl = keys OD ->
  ~ (total_demand OD == 0)%Q ->
  exists UE rep,
    evaluate_assignment OD tbl E true = Ok (UE, rep) /\
    (UE == system_time E tbl / total_demand OD)%Q /\
    average_travel_time rep = UE /\
    map row_fields (rows rep) = expected_rows E tbl.
Proof.
  intros Hnd Hk Hnz.
  destruct (evaluate_assignment_unfolds OD tbl E Hnd Hk Hnz)
    as (t & rs & _ & Hs & Hr & He).
  exists (sum_tt t / total_demand OD)%Q.
  eexists. split; [exact He|]. cbn [average_travel_time rows].
  split; [|split; [reflexivity|exact Hr]].
  unfold Qdiv. now rewrite Hs.
Qed.

Lemma evaluate_assignment_travel_time_witness :
  exists UE rep,
    evaluate_assignment diamond_demand diamond_table diamond_edges true
    = Ok (UE, rep) /\
    (UE == system_time diamond_edges diamond_table / total_demand diamond_demand)%Q.
Proof.
  destruct (evaluate_assignment_travel_time
              diamond_demand diamond_table diamond_edges)
    as (UE & rep & He & Hu & _).
  - repeat constructor. simpl. tauto.
  - reflexivity.
  - intros H. vm_compute in H. discriminate.
  - exists UE, rep. split; assumption.
Defined.

(** C6 fails on the code: with one edge of cost 0.004 carrying a flow of 1
    the route cost rounds to 0, so that flow times rounded cost is 0, while
    the average travel time given back is 0.004. *)
Lemma rounded_travel_time_counterexample :
  exists UE rep st,
    run_MSA 1 cheap_nodes cheap_edges cheap_demand true = Ok (UE, rep, st) /\
    (exists flow cost,
        map row_fields (rows rep) = [("A|B", "A-B", flow, cost)] /\
        (flow == 1)%Q /\ (cost == 0)%Q) /\
    (UE == 1 # 250)%Q /\
    (spec_system_time (edges st) (table st) / total_demand cheap_demand == 0)%Q /\
    ~ (UE == spec_system_time (edges st) (table st) / total_demand cheap_demand)%Q.
Proof.
  eexists. eexists. eexists. split; [vm_compute; reflexivity|].
  split.
  { eexists. eexists. split; [vm_compute; reflexivity|].
    split; vm_compute; reflexivity. }
  split; [vm_compute; reflexivity|].
  split; [vm_compute; reflexivity|].
  intros H. vm_compute in H. discriminate.
Qed.

(** In binary64 the cost written is the rounding of the product that the
    interpreter computes: for an edge whose cost is the float nearest to
    0.005 it is 0, where the exact value of that float rounds to 0.01. *)
Lemma rounded_cost_binary64 :
  let c := 0x1.47ae147ae147bp-8%float in
  let q := (5764607523034235 # 1152921504606846976)%Q in
  (exists UE rep,
      evaluate_assignment [("A|B", 1%float)]
                          [("A|B", [("A-B", ([0], 1%float))])]
                          [Edge_init "A" "B" (fun _ => c)] true
      = Ok (UE, rep) /\
      map row_cost (rows rep) = [0%float]) /\
  (rounded_cost [Edge_init "A" "B" (constant q)] [0%nat] == 1 # 100)%Q.
Proof.
  split.
  - eexists. eexists. split; vm_compute; reflexivity.
  - vm_compute. reflexivity.
Qed.

(** ** Two nodes and one edge *)





Section SingleEdge.
Variables (o d : string) (f : Q -> Q) (D : Q).
Hypothesis Hod : o <> d.
Hypothesis Ho : bar_free o.
Hypothesis Hd : bar_free d.

Let od := od_key o d.
Let nm := (o ++ "-" ++ d)%string.
Let OD : dict Q := [(od, D)].


Hypothesis HD : (0 <= D)%Q.



Hypothesis Hf : forall x, (x == 0)%Q \/ (x == D)%Q -> (f x < 1000000)%Q.


End SingleEdge.




(** In binary64 the flow is [D] up to rounding only: with [D = 10] the
    seventh iteration leaves 10.000000000000002 on the route and the edge. *)
Lemma single_edge_binary64 :
  exists st e v,
    msa_loop float_demand 7
             (mkState float_nodes float_edges (init_table float_demand)) = Ok st /\
    edges st = [e] /\ table st = [("A|B", [("A-B", ([0], v))])] /\
    Edge.flow e = 0x1.4000000000001p+3%float /\
    v = 0x1.4000000000001p+3%float /\
    PrimFloat.eqb v 10%float = false.
Proof.
  eexists. eexists. eexists.
  split; [vm_compute; reflexivity|].
  split; [reflexivity|]. split; [reflexivity|].
  repeat split; vm_compute; reflexivity.
Qed.

Lemma routes_never_removed_witness :
  exists st1 st3,
    msa_loop diamond_demand 1 diamond_start = Ok st1 /\
    msa_loop diamond_demand 3 diamond_start = Ok st3 /\
    tracked_in (table st1) (table st3).
Proof.
  destruct (msa_loop diamond_demand 3 diamond_start) as [st3| |] eqn:H;
    [|vm_compute in H; discriminate..].
  destruct (routes_never_removed diamond_demand diamond_start) as [Hloop _].
  destruct (Hloop 1 2 st3 H) as (st1 & H1 & Ht).
  exists st1, st3. repeat split; assumption.
Defined.

(** * Further properties of the code *)

(** ** What a run leaves untouched *)

Section Topology.

Context {F : Type} `{NumF : Num F}.

Lemma topology_of_fixed (E E' : list (Edge.t F)) :
  map fixed_part E' = map fixed_part E -> map topology E' = map topology E.
Proof.
  revert E'; induction E as [|e E IH]; intros [|e' E'] H; simpl in *;
    try discriminate; auto.
  injection H as He H. f_equal; auto.
  unfold fixed_part in He. unfold topology. congruence.
Qed.

Lemma msa_iteration_topology (OD : dict F) (n : nat) (st st' : state) :
  msa_iteration OD n st = Ok st' ->
  names (nodes st') = names (nodes st) /\
  map topology (edges st') = map topology (edges st) /\
  Forall up_to_date (edges st').
Proof.
  unfold msa_iteration. intros H. bind_inv H. destruct a as [[N1 tbl1] mr].
  bind_inv H. destruct a as [tbl2 E2]. injection H as <-. cbn [nodes edges].
  split; [eapply all_or_nothing_names; eauto|]. split.
  - apply blend_fixed in Ha0. rewrite clear_aux_fixed in Ha0.
    apply topology_of_fixed in Ha0. rewrite <- Ha0.
    rewrite map_map. apply map_ext. reflexivity.
  - apply Forall_map. apply Forall_forall. intros e _.
    split; reflexivity.
Qed.

(** X1: a run of any number of iterations keeps the node names, the number
    and order of the edges and, of every edge, the name, the ends and the
    cost function; once an iteration has run, the cost of every edge is its
    cost function at its flow, as it is for an edge [Edge] has just made. *)
Theorem run_keeps_topology (OD : dict F) (its : nat) (st st' : state) :
  msa_loop OD its st = Ok st' ->
  names (nodes st') = names (nodes st) /\
  map topology (edges st') = map topology (edges st) /\
  keys (table st') = keys (table st) /\
  (0 < its -> Forall up_to_date (edges st')) /\
  (forall start end_ function, up_to_date (Edge_init start end_ function)).
Proof.
  intros H. split; [|split; [|split; [|split]]].
  - revert st' H; induction its as [|its IH]; cbn [msa_loop]; intros st' H.
    + now injection H as <-.
    + bind_inv H. apply msa_iteration_topology in H.
      destruct H as (Hn & _). rewrite Hn. auto.
  - revert st' H; induction its as [|its IH]; cbn [msa_loop]; intros st' H.
    + now injection H as <-.
    + bind_inv H. apply msa_iteration_topology in H.
      destruct H as (_ & Ht & _). rewrite Ht. auto.
  - eapply msa_loop_keys; eauto.
  - intros Hits. destruct its as [|its]; [lia|].
    cbn [msa_loop] in H. bind_inv H.
    apply msa_iteration_topology in H. tauto.
  - intros start end_ function. split; reflexivity.
Qed.

End Topology.

Lemma run_keeps_topology_witness :
  exists st,
    msa_loop diamond_demand 2 diamond_start = Ok st /\
    map topology (edges st) = map topology diamond_edges /\
    Forall up_to_date (edges st).
Proof.
  destruct (msa_loop diamond_demand 2 diamond_start) as [st| |] eqn:H;
    [|vm_compute in H; discriminate..].
  exists st. split; [reflexivity|].
  destruct (run_keeps_topology diamond_demand 2 diamond_start st H)
    as (_ & Ht & _ & Hu & _).
  split; [exact Ht|]. apply Hu. lia.
Defined.

(** ** A search leaves nothing behind for the next *)

Section Scratch.

Context {F : Type} `{NumF : Num F}.

(** X2: what [dijkstra] gives back depends on the names of the nodes only,
    not on the distances, predecessors and flags an earlier search has left
    on them; it keeps the names, and searching again on the nodes it gives
    back yields the same nodes and the same path. *)
Theorem search_forgets_earlier_searches
        (N N' : list (Node.t F)) (E : list (Edge.t F)) (o d : string)
        (ign : list nat) :
  names N = names N' ->
  dijkstra N E o d ign = dijkstra N' E o d ign /\
  (forall N1 P,
      dijkstra N E o d ign = Ok (N1, P) ->
      names N1 = names N /\ List.length N1 = List.length N /\
      dijkstra N1 E o d ign = Ok (N1, P)).
Proof.
  intros Hn. split; [now apply dijkstra_scratch|].
  intros N1 P H. pose proof (dijkstra_names _ _ _ _ _ _ _ H) as Hn1.
  split; [exact Hn1|]. split.
  - apply (f_equal (@List.length _)) in Hn1. unfold names in Hn1.
    now rewrite !length_map in Hn1.
  - rewrite <- H. now apply dijkstra_scratch.
Qed.

End Scratch.

Lemma search_forgets_earlier_searches_witness :
  exists N1 P,
    dijkstra diamond_nodes diamond_edges "A" "D" [] = Ok (N1, P) /\
    dijkstra N1 diamond_edges "A" "D" [] = Ok (N1, P).
Proof.
  destruct (dijkstra diamond_nodes diamond_edges "A" "D" [])
    as [[N1 P]| |] eqn:H; [|vm_compute in H; discriminate..].
  exists N1, P. split; [reflexivity|].
  destruct (search_forgets_earlier_searches
              diamond_nodes diamond_nodes diamond_edges "A" "D" [] eq_refl)
    as [_ Hs].
  apply (Hs N1 P H).
Defined.

(** ** The evaluation without output *)

Section NoOutput.

Context {F : Type} `{NumF : Num F}.

Lemma evaluate_without_output (OD : dict F) (tbl : od_table)
      (E : list (Edge.t F)) :
  is_ok (evaluate_assignment OD tbl E false) = false.
Proof.
  unfold evaluate_assignment.
  destruct (eval_ods _ _ _ _) as [[t rs]| |]; simpl; auto.
  destruct (py_div _ _); reflexivity.
Qed.

End NoOutput.

(** X3: with [output] off the evaluation never gives a value back, in any
    arithmetic, and neither does [run_MSA]: the file handle [fh] is written
    to whether or not it was opened.  Once the loops over the table are
    through and the demands do not add up to zero, it is the [NameError]
    on [fh] that ends the call, after the average travel time has been
    computed; a loop that raises ends the call before, which in binary64
    is [round] on a cost that is not finite once scaled, or the [KeyError]
    of a pair that is not in the demand.  In exact arithmetic, for a table
    whose pairs are in the demand, as the table of a run is, and demands
    that do not add up to zero, the outcome is that [NameError]. *)
Theorem no_result_without_output :
  (forall (F : Type) (NumF : Num F) (OD : dict F),
      (forall tbl E,
          is_ok (evaluate_assignment OD tbl E false) = false /\
          evaluate_assignment OD tbl E false
          = match eval_ods OD E tbl
                    (mkTotals (nof_Z 0) (nof_Z 0) (nof_Z 0) (nof_Z 0), []) with
            | Ok _ =>
                if neqb (total_demand OD) (nof_Z 0)
                then Raise ZeroDivisionError
                else Raise (NameError "fh")
            | Raise e => Raise e
            | Diverges => Diverges
            end) /\
      (forall its N E, is_ok (run_MSA its N E OD false) = false)) /\
  (forall (OD : dict float) (tbl : od_table) (E : list (Edge.t float)),
      exists e,
        evaluate_assignment OD tbl E false = Raise e /\
        (e = NameError "fh" \/ e = ZeroDivisionError \/ loop_error e)) /\
  (forall OD : dict Q,
      ~ (total_demand OD == 0)%Q ->
      (forall tbl E,
          incl (keys tbl) (keys OD) ->
          evaluate_assignment OD tbl E false = Raise (NameError "fh")) /\
      (forall its N E st,
          msa_loop OD its (mkState N E (init_table OD)) = Ok st ->
          run_MSA its N E OD false = Raise (NameError "fh"))).
Proof.
  assert (Hshape : forall (F : Type) (NumF : Num F) (OD : dict F) tbl E,
             evaluate_assignment OD tbl E false
             = match eval_ods OD E tbl
                       (mkTotals (nof_Z 0) (nof_Z 0) (nof_Z 0) (nof_Z 0), [])
               with
               | Ok _ =>
                   if neqb (total_demand OD) (nof_Z 0)
                   then Raise ZeroDivisionError
                   else Raise (NameError "fh")
               | Raise e => Raise e
               | Diverges => Diverges
               end).
  { intros F NumF OD tbl E. unfold evaluate_assignment.
    destruct (eval_ods _ _ _ _) as [[t rs]| |]; cbn [bind]; auto.
    unfold py_div. destruct (neqb _ _); reflexivity. }
  split; [|split].
  - intros F NumF OD. split.
    + intros tbl E. split; [apply evaluate_without_output|apply Hshape].
    + intros its N E. unfold run_MSA.
      destruct (msa_loop _ _ _) as [st| |]; simpl; auto.
      pose proof (evaluate_without_output OD (table st) (edges st)) as He.
      destruct (evaluate_assignment _ _ _ _); simpl in *; auto; discriminate.
  - intros OD tbl E. rewrite (Hshape float float_Num OD tbl E).
    pose proof (eval_ods_binary64 OD E tbl
                  (mkTotals (nof_Z 0) (nof_Z 0) (nof_Z 0) (nof_Z 0), []))
      as Hl.
    destruct (eval_ods _ _ _ _) as [x|e|].
    + destruct (neqb _ _); eexists; split; [reflexivity|auto| reflexivity|auto].
    + exists e. auto.
    + destruct Hl.
  - intros OD Hnz.
    assert (Hname : forall tbl E,
               incl (keys tbl) (keys OD) ->
               evaluate_assignment OD tbl E false = Raise (NameError "fh")).
    { intros tbl E Hk. unfold evaluate_assignment.
      destruct (eval_ods_spec E OD tbl
                  (mkTotals (inject_Z 0) (inject_Z 0) (inject_Z 0) (inject_Z 0))
                  [] Hk) as (t & rs & He & _).
      change (@nof_Z Q Q_Num 0) with (inject_Z 0). rewrite He. cbn [bind].
      unfold py_div. cbn [neqb Q_Num nof_Z].
      match goal with
      | |- context [Qeq_bool ?a ?b] =>
          replace (Qeq_bool a b) with false
            by (symmetry; apply Qeq_bool_false; exact Hnz)
      end.
      reflexivity. }
    split; [exact Hname|].
    intros its N E st Hl. unfold run_MSA. rewrite Hl. cbn [bind].
    rewrite Hname; auto.
    apply msa_loop_keys in Hl. simpl in Hl. rewrite Hl, init_table_keys.
    apply incl_refl.
Qed.

Lemma no_result_without_output_witness :
  evaluate_assignment diamond_demand diamond_table diamond_edges false
  = Raise (NameError "fh") /\
  is_ok (run_MSA 3 diamond_nodes diamond_edges diamond_demand false) = false.
Proof.
  destruct no_result_without_output as (Hany & _ & Hexact). split.
  - apply (Hexact diamond_demand).
    + intros Hz. vm_compute in Hz. discriminate.
    + intros k Hk. exact Hk.
  - apply (Hany Q Q_Num diamond_demand).
Defined.

(** In binary64 a cost that is too large to be scaled ends the evaluation
    in the loop, before [fh] is reached. *)
Lemma no_output_overflow_binary64 :
  let E := [Edge_init "A" "B" (fun _ => 0x1p+1020%float)] in
  evaluate_assignment [("A|B", 1%float)]
                      [("A|B", [("A-B", ([0], 1%float))])] E false
  = Raise OverflowError.
Proof. vm_compute. reflexivity. Qed.

(** ** The demand table read from [od] lines *)

Lemma NoDup_keys_dict_set {V : Type} (d : dict V) (k : string) (v : V) :
  NoDup (keys d) -> NoDup (keys (dict_set d k v)).
Proof.
  intros Hnd. destruct (dict_get d k) as [v0|] eqn:Hg.
  - rewrite keys_dict_set_present; auto. eapply dict_get_In_keys; eauto.
  - apply dict_get_None in Hg.
    assert (Hk : keys (dict_set d k v) = (keys d ++ [k])%list).
    { clear Hnd. induction d as [|[k' v'] d IH]; simpl in *; auto.
      destruct (String.eqb k' k) eqn:He.
      - apply String.eqb_eq in He. tauto.
      - simpl. f_equal. apply IH. tauto. }
    rewrite Hk. apply NoDup_app; auto.
    + repeat constructor. simpl. tauto.
    + intros x Hx [<-|[]]. contradiction.
Qed.

Section ODLines.

Context {F : Type} `{NumF : Num F}.

Variable float_of_string : string -> option F.

(** X4: an [od] line whose origin and destination fields are equal leaves
    the demand table as it is, whatever follows them, even nothing; a line
    with different fields and a demand that reads as a number enters the
    demand under the name of the pair, in place when the name is there
    already and at the end otherwise, keeps the other pairs and keeps the
    names distinct; a demand that is missing or does not read as a number
    ends the reading with [IndexError] or [ValueError]. *)
Theorem od_line_enters_demand (kw od o d : string) (rest : list string)
        (OD : dict F) :
  (o = d ->
   generateGraph_od float_of_string (kw :: od :: o :: d :: rest) OD = Ok OD) /\
  (o <> d ->
   match rest with
   | [] =>
       generateGraph_od float_of_string (kw :: od :: o :: d :: rest) OD
       = Raise IndexError
   | s :: _ =>
       match float_of_string s with
       | None =>
           generateGraph_od float_of_string (kw :: od :: o :: d :: rest) OD
           = Raise ValueError
       | Some demand =>
           exists OD',
             generateGraph_od float_of_string (kw :: od :: o :: d :: rest) OD
             = Ok OD' /\
             dict_get OD' od = Some demand /\
             (forall k, k <> od -> dict_get OD' k = dict_get OD k) /\
             (In od (keys OD) -> keys OD' = keys OD) /\
             (~ In od (keys OD) -> keys OD' = (keys OD ++ [od])%list) /\
             (NoDup (keys OD) -> NoDup (keys OD'))
       end
   end).
Proof.
  split.
  - intros ->. unfold generateGraph_od, tag. simpl.
    now rewrite String.eqb_refl.
  - intros Hne. apply String.eqb_neq in Hne.
    unfold generateGraph_od, tag. simpl. rewrite Hne.
    destruct rest as [|s rest']; simpl; auto.
    destruct (float_of_string s) as [demand|]; auto.
    exists (dict_set OD od demand). split; [reflexivity|].
    split; [apply dict_get_set_same|].
    split; [intros k Hk; apply dict_get_set_other; congruence|].
    split; [apply keys_dict_set_present|].
    split; [|apply NoDup_keys_dict_set].
    intros Hni. clear Hne. induction OD as [|[k' v'] OD0 IH]; simpl in *; auto.
    destruct (String.eqb k' od) eqn:He.
    + apply String.eqb_eq in He. tauto.
    + simpl. f_equal. apply IH. tauto.
Qed.

End ODLines.

Lemma od_line_enters_demand_witness :
  generateGraph_od (fun _ => Some 5%Q) ["od"; "A|D"; "A"; "A"] [] = Ok [] /\
  exists OD',
    generateGraph_od (fun _ => Some 5%Q) ["od"; "A|D"; "A"; "D"; "5"]
                     [("A|D", 1%Q)] = Ok OD' /\
    dict_get OD' "A|D" = Some 5%Q.
Proof.
  split.
  - destruct (od_line_enters_demand (fun _ => Some 5%Q) "od" "A|D" "A" "A" []
                                    ([] : dict Q)) as [H _].
    apply H. reflexivity.
  - destruct (od_line_enters_demand (fun _ => Some 5%Q) "od" "A|D" "A" "D" ["5"]
                                    [("A|D", 1%Q)]) as [_ H].
    destruct H as (OD' & H1 & H2 & _); [discriminate|].
    exists OD'. split; assumption.
Defined.

(** ** The demand of a pair is on its routes *)

Section BlendFlows.

Context {F : Type} `{NumF : Num F}.

Lemma blend_routes_fst (phi : F) (best : string) (demand : F)
      (routes : routes_flow) (E : list (Edge.t F)) :
  fst (blend_routes phi best demand routes E)
  = blend_flows phi best demand routes.
Proof.
  revert E; induction routes as [|[k [route v]] routes IH]; intros E; simpl; auto.
  match goal with
  | |- context [blend_routes phi best demand routes ?E1] =>
      specialize (IH E1);
      destruct (blend_routes phi best demand routes E1) as [routes' E']
  end.
  simpl in *. now rewrite IH.
Qed.

Lemma blend_tables_list (phi : F) (OD : dict F) (mr : min_table)
      (ods : list string) (tbl tbl' : od_table) (E E' : list (Edge.t F)) :
  blend phi OD mr (tbl, E) ods = Ok (tbl', E') ->
  NoDup ods ->
  forall od m demand,
    In od ods -> dict_get mr od = Some m -> dict_get OD od = Some demand ->
    exists routes,
      dict_get tbl od = Some routes /\
      dict_get tbl' od = Some (blend_flows phi (fst m) demand routes).
Proof.
  revert tbl E; induction ods as [|od0 ods IH]; cbn [blend];
    intros tbl E H Hnd od m demand Hin Hm Hd.
  - destruct Hin.
  - bind_inv H. destruct a as [tbl1 E1].
    inversion Hnd as [|? ? Hni Hnd']; subst.
    destruct (blend_od_tables _ _ _ _ _ _ _ _ Ha)
      as (Hother & routes0 & Hr0 & Hthis).
    destruct Hin as [->|Hin].
    + destruct (Hthis m demand Hm Hd) as [Ht1 _].
      exists routes0. split; auto.
      rewrite (blend_untouched _ _ _ _ _ _ _ _ _ H Hni), Ht1.
      now rewrite blend_routes_fst.
    + destruct (IH _ _ H Hnd' od m demand Hin Hm Hd) as (routes & Hr & Hr').
      exists routes. split; auto.
      rewrite <- Hr. symmetry. apply Hother. intros ->. tauto.
Qed.

Lemma blend_flows_keys (phi : F) (best : string) (demand : F)
      (routes : routes_flow) :
  keys (blend_flows phi best demand routes) = keys routes.
Proof. unfold keys, blend_flows. rewrite map_map. reflexivity. Qed.

End BlendFlows.

Section Conservation.

Lemma blend_flow_exact (phi v fa : Q) :
  (0 <= phi)%Q -> (phi <= 1)%Q -> (0 <= v)%Q -> (0 <= fa)%Q ->
  (blend_flow phi v fa == (1 - phi) * v + phi * fa)%Q.
Proof.
  intros H0 H1 Hv Hfa. unfold blend_flow, py_max.
  cbn [nltb nadd nsub nmul nof_Z Q_Num].
  change (inject_Z 1) with 1%Q. change (inject_Z 0) with 0%Q.
  destruct (Qltb _ _) eqn:Hlt; [|reflexivity].
  apply Qltb_true in Hlt. exfalso.
  assert (0 <= (1 - phi) * v)%Q by (apply Qmult_le_0_compat; lra).
  assert (0 <= phi * fa)%Q by (apply Qmult_le_0_compat; lra).
  lra.
Qed.

Lemma pair_flow_blend (phi : Q) (best : string) (D : Q) (routes : routes_flow) :
  (0 <= phi)%Q -> (phi <= 1)%Q -> (0 <= D)%Q ->
  Forall (fun y : string * (list nat * Q) => (0 <= snd (snd y))%Q) routes ->
  (pair_flow (blend_flows phi best D routes)
   == (1 - phi) * pair_flow routes
      + phi * Qsum (map (fun y : string * (list nat * Q) =>
                           if String.eqb (fst y) best then D else 0%Q)
                        routes))%Q.
Proof.
  intros H0 H1 HD Hr. unfold pair_flow, blend_flows, Qsum.
  induction routes as [|[k [route v]] routes IH]; simpl.
  - ring.
  - inversion Hr as [|? ? Hv Hr']; subst. simpl in Hv.
    rewrite (IH Hr').
    rewrite blend_flow_exact; auto.
    + change (@nof_Z Q Q_Num 0) with 0%Q. change (inject_Z 0) with 0%Q.
      destruct (String.eqb k best); ring.
    + change (@nof_Z Q Q_Num 0) with 0%Q. change (inject_Z 0) with 0%Q.
      destruct (String.eqb k best); lra.
Qed.

Lemma best_counted_once (best : string) (D : Q) (routes : routes_flow) :
  NoDup (keys routes) -> In best (keys routes) ->
  (Qsum (map (fun y : string * (list nat * Q) =>
                if String.eqb (fst y) best then D else 0%Q) routes) == D)%Q.
Proof.
  unfold Qsum. induction routes as [|[k x] routes IH]; simpl; [tauto|].
  intros Hnd Hin. inversion Hnd as [|? ? Hni Hnd']; subst.
  destruct (String.eqb k best) eqn:He.
  - apply String.eqb_eq in He. subst k.
    assert (Hz : (fold_right Qplus 0
                    (map (fun y : string * (list nat * Q) =>
                            if String.eqb (fst y) best then D else 0%Q)
                         routes) == 0)%Q).
    { clear IH Hnd Hnd' Hin. induction routes as [|[k' x'] routes IH]; simpl.
      - reflexivity.
      - simpl in Hni. destruct (String.eqb k' best) eqn:He'.
        + apply String.eqb_eq in He'. tauto.
        + rewrite IH by tauto. ring. }
    rewrite Hz. ring.
  - apply String.eqb_neq in He. destruct Hin as [Hin|Hin]; [contradiction|].
    rewrite IH by auto. ring.
Qed.

Lemma pair_flow_dict_set_new (routes : routes_flow) (best : string)
      (route : list nat) :
  dict_get routes best = None ->
  (pair_flow (dict_set routes best (route, inject_Z 0)) == pair_flow routes)%Q.
Proof.
  unfold pair_flow, Qsum. induction routes as [|[k x] routes IH]; simpl.
  - intros _. ring.
  - destruct (String.eqb k best); [discriminate|].
    intros Hg. simpl. now rewrite IH.
Qed.

Lemma unit_step (n : nat) :
  0 < n ->
  (0 <= inject_Z 1 / inject_Z (Z.of_nat n))%Q /\
  (inject_Z 1 / inject_Z (Z.of_nat n) <= 1)%Q.
Proof.
  intros Hn.
  assert (Hp : (0 < inject_Z (Z.of_nat n))%Q).
  { unfold Qlt, inject_Z. simpl. lia. }
  assert (H1 : (1 <= inject_Z (Z.of_nat n))%Q).
  { unfold Qle, inject_Z. simpl. lia. }
  split.
  - apply Qle_shift_div_l; auto. change (inject_Z 1) with 1%Q. lra.
  - apply Qle_shift_div_r; auto. change (inject_Z 1) with 1%Q. lra.
Qed.

Lemma od_step_distinct (E : list (Edge.t Q)) (N N' : list (Node.t Q))
      (tbl tbl' : od_table) (mr mr' : min_table) (od : string) :
  od_step E (N, tbl, mr) od = Ok (N', tbl', mr') ->
  route_keys_distinct tbl -> route_keys_distinct tbl'.
Proof.
  intros H Ht. apply od_step_tables in H.
  destruct H as (best & route & routes & Hod & _ & ->).
  destruct (dict_mem routes best); auto.
  unfold route_keys_distinct in *.
  apply (Forall_dict_set (fun routes0 : routes_flow => NoDup (keys routes0)));
    auto.
  apply NoDup_keys_dict_set.
  exact (Forall_dict_get (fun routes0 : routes_flow => NoDup (keys routes0))
                         tbl od routes Ht Hod).
Qed.

Lemma all_or_nothing_distinct (E : list (Edge.t Q)) (ods : list string)
      (N N' : list (Node.t Q)) (tbl tbl' : od_table) (mr mr' : min_table) :
  all_or_nothing E (N, tbl, mr) ods = Ok (N', tbl', mr') ->
  route_keys_distinct tbl -> route_keys_distinct tbl'.
Proof.
  revert N tbl mr; induction ods as [|od ods IH]; cbn [all_or_nothing];
    intros N tbl mr H Ht.
  - now injection H as _ <- _.
  - bind_inv H. destruct a as [[N1 tbl1] mr1].
    eapply IH; eauto. eapply od_step_distinct; eauto.
Qed.

Lemma blend_od_sound (phi : Q) (OD : dict Q) (mr : min_table)
      (tbl tbl' : od_table) (E E' : list (Edge.t Q)) (od : string) :
  blend_od phi OD mr (tbl, E) od = Ok (tbl', E') ->
  table_nonneg tbl /\ route_keys_distinct tbl ->
  table_nonneg tbl' /\ route_keys_distinct tbl'.
Proof.
  unfold blend_od. intros H [Ht Hk]. bind_inv H. unfold dict_item in Ha.
  destruct (dict_get tbl od) as [routes|] eqn:Hod; [|discriminate].
  injection Ha as <-. destruct routes as [|x routes].
  - injection H as <- _. auto.
  - bind_inv H. bind_inv H.
    pose proof (blend_routes_fst phi (fst a) a0 (x :: routes) E) as Hf.
    destruct (blend_routes phi (fst a) a0 (x :: routes) E) as [routes' E2].
    simpl in Hf. injection H as <- _. subst routes'. split.
    + apply (Forall_dict_set
               (fun routes0 : routes_flow =>
                  Forall (fun y => (0 <= snd (snd y))%Q) routes0)); auto.
      apply Forall_forall. intros y Hy.
      change (In y (blend_flows phi (fst a) a0 (x :: routes))) in Hy.
      unfold blend_flows in Hy. apply in_map_iff in Hy.
      destruct Hy as (y0 & <- & _). simpl. apply blend_flow_nonneg.
    + apply (Forall_dict_set (fun routes0 : routes_flow => NoDup (keys routes0)));
        auto.
      change (NoDup (keys (blend_flows phi (fst a) a0 (x :: routes)))).
      rewrite blend_flows_keys.
      exact (Forall_dict_get (fun routes0 : routes_flow => NoDup (keys routes0))
                             tbl od (x :: routes) Hk Hod).
Qed.

Lemma blend_sound (phi : Q) (OD : dict Q) (mr : min_table)
      (ods : list string) (tbl tbl' : od_table) (E E' : list (Edge.t Q)) :
  blend phi OD mr (tbl, E) ods = Ok (tbl', E') ->
  table_nonneg tbl /\ route_keys_distinct tbl ->
  table_nonneg tbl' /\ route_keys_distinct tbl'.
Proof.
  revert tbl E; induction ods as [|od ods IH]; cbn [blend]; intros tbl E H Ht.
  - now injection H as <- _.
  - bind_inv H. destruct a as [tbl1 E1].
    eapply IH; eauto. eapply blend_od_sound; eauto.
Qed.

(** One iteration: the table stays sound and the flow of a pair moves
    towards its demand by the step. *)
Lemma msa_iteration_pair_flow (OD : dict Q) (n : nat) (st st' : state) :
  NoDup (keys OD) -> 0 < n ->
  table_nonneg (table st) /\ route_keys_distinct (table st) ->
  msa_iteration OD n st = Ok st' ->
  (table_nonneg (table st') /\ route_keys_distinct (table st')) /\
  forall od D,
    dict_get OD od = Some D -> (0 <= D)%Q ->
    exists routes routes',
      dict_get (table st) od = Some routes /\
      dict_get (table st') od = Some routes' /\
      (pair_flow routes'
       == (1 - inject_Z 1 / inject_Z (Z.of_nat n)) * pair_flow routes
          + inject_Z 1 / inject_Z (Z.of_nat n) * D)%Q.
Proof.
  intros Hnd Hn [Ht Hk] H. unfold msa_iteration in H.
  bind_inv H. destruct a as [[N1 tbl1] mr].
  bind_inv H. destruct a as [tbl2 E2]. injection H as <-.
  cbn [table nodes edges ndiv nof_Z Q_Num] in *.
  pose proof (all_or_nothing_nonneg _ _ _ _ _ _ _ _ Ha Ht) as Ht1.
  pose proof (all_or_nothing_distinct _ _ _ _ _ _ _ _ Ha Hk) as Hk1.
  split; [eapply blend_sound; eauto|].
  intros od D Hd HD.
  assert (Hin : In od (keys OD)) by (eapply dict_get_In_keys; eauto).
  destruct (all_or_nothing_tables _ _ _ _ _ _ _ _ Ha Hnd od) as [Hthis _].
  destruct (Hthis Hin) as (best & route & routes & _ & Hm & Hr & Hr1).
  destruct (blend_tables_list _ _ _ _ _ _ _ _ Ha0 Hnd od (best, route) D
                              Hin Hm Hd) as (routes1 & Hr1' & Hr2).
  rewrite Hr1 in Hr1'. injection Hr1' as <-.
  exists routes. eexists. split; [exact Hr|]. split; [exact Hr2|].
  cbn [fst].
  destruct (unit_step n Hn) as [Hp0 Hp1].
  pose proof (Forall_dict_get
                (fun routes0 : routes_flow =>
                   Forall (fun y => (0 <= snd (snd y))%Q) routes0)
                tbl1 od _ Ht1 Hr1) as Hnn.
  pose proof (Forall_dict_get
                (fun routes0 : routes_flow => NoDup (keys routes0))
                tbl1 od _ Hk1 Hr1) as Hdd.
  rewrite pair_flow_blend; auto.
  rewrite best_counted_once; auto.
  - unfold dict_mem. destruct (dict_get routes best) eqn:Hb; [reflexivity|].
    now rewrite pair_flow_dict_set_new.
  - unfold dict_mem. destruct (dict_get routes best) eqn:Hb.
    + eapply dict_get_In_keys; eauto.
    + eapply dict_get_In_keys. apply dict_get_set_same.
Qed.

Lemma init_table_distinct (OD : dict Q) : route_keys_distinct (init_table OD).
Proof.
  unfold route_keys_distinct, init_table. apply Forall_map.
  apply Forall_forall. intros x _. constructor.
Qed.

(** X5: in exact arithmetic, after every iteration from the first on, the
    flows on the routes tracked for a pair add up to the demand of the
    pair, for every pair whose demand is not negative: the run moves flow
    between the routes of a pair and neither loses nor makes any. *)
Theorem route_flows_add_up_to_demand
        (OD : dict Q) (N : list (Node.t Q)) (E : list (Edge.t Q))
        (its : nat) (st : state) :
  NoDup (keys OD) ->
  0 < its ->
  msa_loop OD its (mkState N E (init_table OD)) = Ok st ->
  forall od D,
    dict_get OD od = Some D -> (0 <= D)%Q ->
    exists routes,
      dict_get (table st) od = Some routes /\ (pair_flow routes == D)%Q.
Proof.
  intros Hnd Hits Hl.
  assert (Hgen : forall k st1,
             msa_loop OD k (mkState N E (init_table OD)) = Ok st1 ->
             (table_nonneg (table st1) /\ route_keys_distinct (table st1)) /\
             (0 < k ->
              forall od D,
                dict_get OD od = Some D -> (0 <= D)%Q ->
                exists routes,
                  dict_get (table st1) od = Some routes /\
                  (pair_flow routes == D)%Q)).
  { induction k as [|k IH]; intros st1 H1.
    - injection H1 as <-. cbn [table]. split; [|lia].
      split; [apply init_table_nonneg|apply init_table_distinct].
    - cbn [msa_loop] in H1. bind_inv H1.
      destruct (IH _ Ha) as [Hinv Hsum].
      destruct (msa_iteration_pair_flow OD (S k) a st1 Hnd ltac:(lia) Hinv H1)
        as [Hinv' Hstep].
      split; [exact Hinv'|]. intros _ od D Hd HD.
      destruct (Hstep od D Hd HD) as (routes & routes' & Hr & Hr' & Hs).
      exists routes'. split; [exact Hr'|]. rewrite Hs.
      destruct k as [|k].
      + change (inject_Z (Z.of_nat 1)) with 1%Q. change (inject_Z 1) with 1%Q.
        field.
      + destruct (Hsum ltac:(lia) od D Hd HD) as (routes0 & Hr0 & Hs0).
        rewrite Hr in Hr0. injection Hr0 as <-. rewrite Hs0.
        change (inject_Z 1) with 1%Q. field.
        unfold Qeq, inject_Z. simpl. lia. }
  destruct (Hgen its st Hl) as [_ Hsum]. now apply Hsum.
Qed.

End Conservation.

Lemma route_flows_add_up_to_demand_witness :
  exists st routes,
    msa_loop diamond_demand 3 diamond_start = Ok st /\
    dict_get (table st) "A|D" = Some routes /\ (pair_flow routes == 10)%Q.
Proof.
  destruct (msa_loop diamond_demand 3 diamond_start) as [st| |] eqn:H;
    [|vm_compute in H; discriminate..].
  destruct (route_flows_add_up_to_demand
              diamond_demand diamond_nodes diamond_edges 3 st)
    with (od := "A|D") (D := 10%Q) as (routes & Hr & Hs).
  - repeat constructor. simpl. tauto.
  - lia.
  - exact H.
  - reflexivity.
  - discriminate.
  - exists st, routes. repeat split; assumption.
Defined.

(** ** The node that is settled next *)

Section Least.

Local Abbreviation Node := (Node.t Q).

Lemma first_unflagged_first (N : list Node) (i m : nat) :
  first_unflagged i N = Some m ->
  exists k, m = i + k /\ k < List.length N /\
            Node.flag (nth k N no_node) = 0 /\
            forall k', k' < k -> Node.flag (nth k' N no_node) <> 0.
Proof.
  revert i; induction N as [|node N IH]; simpl; intros i Hm; [discriminate|].
  destruct (Node.flag node =? 0) eqn:Hf.
  - injection Hm as <-. exists 0. repeat split; try lia.
    now apply Nat.eqb_eq.
  - destruct (IH _ Hm) as (k & -> & Hk & Hfl & Hbefore).
    exists (S k). repeat split; auto; try lia.
    intros [|k'] Hlt; simpl.
    + now apply Nat.eqb_neq.
    + apply Hbefore. lia.
Qed.

Lemma scan_smaller_least (N : list Node) (i m : nat) (md : Q) :
  (scan_smaller i N m md = m /\
   forall k, k < List.length N -> Node.flag (nth k N no_node) = 0 ->
             (md <= Node.dist (nth k N no_node))%Q) \/
  (exists k,
      scan_smaller i N m md = i + k /\ k < List.length N /\
      Node.flag (nth k N no_node) = 0 /\
      (Node.dist (nth k N no_node) < md)%Q /\
      (forall k', k' < List.length N -> Node.flag (nth k' N no_node) = 0 ->
                  (Node.dist (nth k N no_node) <= Node.dist (nth k' N no_node))%Q) /\
      (forall k', k' < k -> Node.flag (nth k' N no_node) = 0 ->
                  (Node.dist (nth k N no_node) < Node.dist (nth k' N no_node))%Q)).
Proof.
  revert i m md; induction N as [|node N IH]; intros i m md; cbn [scan_smaller].
  - left. split; auto. simpl. intros k Hk. lia.
  - cbn [nltb Q_Num].
    destruct ((Node.flag node =? 0) && Qltb (Node.dist node) md) eqn:Htake.
    + apply andb_true_iff in Htake. destruct Htake as [Hf Hlt].
      apply Nat.eqb_eq in Hf. apply Qltb_true in Hlt. right.
      destruct (IH (S i) i (Node.dist node))
        as [[Hr Hall]|(k & Hr & Hk & Hfk & Hltk & Hall & Hbefore)].
      * exists 0. rewrite Hr. simpl. repeat split; auto; try lia.
        intros [|k'] Hk' Hfk'; [apply Qle_refl|]. apply Hall; auto. lia.
      * exists (S k). rewrite Hr. simpl. repeat split; auto; try lia.
        -- lra.
        -- intros [|k'] Hk' Hfk'; [lra|]. apply Hall; auto. lia.
        -- intros [|k'] Hk' Hfk'; [lra|]. apply Hbefore; auto. lia.
    + assert (Hhead : Node.flag node = 0 -> (md <= Node.dist node)%Q).
      { intros Hf. apply andb_false_iff in Htake. destruct Htake as [Hn|Hn].
        - apply Nat.eqb_neq in Hn. contradiction.
        - now apply Qltb_false in Hn. }
      destruct (IH (S i) m md)
        as [[Hr Hall]|(k & Hr & Hk & Hfk & Hltk & Hall & Hbefore)].
      * left. split; auto. intros [|k'] Hk' Hfk'; simpl in *; auto.
        apply Hall; auto. lia.
      * right. exists (S k). rewrite Hr. simpl. repeat split; auto; try lia.
        -- intros [|k'] Hk' Hfk'; [specialize (Hhead Hfk'); lra|].
           apply Hall; auto. lia.
        -- intros [|k'] Hk' Hfk'; [specialize (Hhead Hfk'); lra|].
           apply Hbefore; auto. lia.
Qed.

(** X6: [pickSmallestNode] gives [None] exactly when every node is flagged,
    and otherwise a node that is not flagged, whose distance is the least
    among the nodes that are not flagged, and which is the first such node
    of the list: every earlier node that is not flagged is strictly
    farther. *)
Theorem pickSmallestNode_least (N : list Node) :
  match pickSmallestNode N with
  | None => Forall (fun node => Node.flag node <> 0) N
  | Some u =>
      u < List.length N /\ Node.flag (node_at N u) = 0 /\
      (forall j, j < List.length N -> Node.flag (node_at N j) = 0 ->
                 (Node.dist (node_at N u) <= Node.dist (node_at N j))%Q) /\
      (forall j, j < u -> Node.flag (node_at N j) = 0 ->
                 (Node.dist (node_at N u) < Node.dist (node_at N j))%Q)
  end.
Proof.
  destruct (pickSmallestNode N) as [u|] eqn:Hp.
  - unfold pickSmallestNode in Hp.
    destruct (first_unflagged 0 N) as [m|] eqn:Hm; [|discriminate].
    injection Hp as <-.
    destruct (first_unflagged_first _ _ _ Hm) as (k0 & -> & Hk0 & Hf0 & Hfirst).
    simpl. unfold node_at.
    destruct (scan_smaller_least N 0 k0 (Node.dist (nth k0 N no_node)))
      as [[-> Hall]|(k & -> & Hk & Hfk & Hltk & Hall & Hbefore)]; simpl.
    + repeat split; auto.
      intros j Hj Hfj. exfalso. exact (Hfirst j Hj Hfj).
    + repeat split; auto.
  - apply unflagged_none. now apply pickSmallestNode_None.
Qed.

End Least.

(** ** The path a search gives back *)

Section ReturnedPath.

Context {F : Type} `{NumF : Num F}.

Local Abbreviation Node := (Node.t F).
Local Abbreviation Edge := (Edge.t F).

Lemma find_node_found (N : list Node) (nm : string) (i : nat) :
  In nm (names N) -> exists j, find_node i N nm = Some j.
Proof.
  revert i; induction N as [|node N IH]; simpl; intros i Hin; [tauto|].
  destruct (String.eqb (Node.name node) nm) eqn:Hn; eauto.
  apply String.eqb_neq in Hn. destruct Hin; [tauto|eauto].
Qed.

Lemma find_node_at (N : list Node) (nm : string) (i j : nat) :
  find_node i N nm = Some j ->
  exists k, j = i + k /\ k < List.length N /\
            Node.name (nth k N no_node) = nm.
Proof.
  revert i; induction N as [|node N IH]; simpl; intros i Hf; [discriminate|].
  destruct (String.eqb (Node.name node) nm) eqn:Hn.
  - injection Hf as <-. apply String.eqb_eq in Hn.
    exists 0; repeat split; auto; lia.
  - destruct (IH _ Hf) as (k & -> & Hk & Hnm).
    exists (S k); repeat split; auto; lia.
Qed.

Lemma name_at_names (N N' : list Node) (i : nat) :
  names N' = names N -> Node.name (node_at N' i) = Node.name (node_at N i).
Proof.
  unfold names, node_at.
  revert N i; induction N' as [|a N' IH]; intros [|b N] i Hn; simpl in *;
    try discriminate; auto.
  injection Hn as Hab Hn. destruct i as [|i]; auto.
Qed.

Lemma combine_seq_nth {A : Type} (l : list A) (i0 i : nat) (x : A) :
  In (i, x) (combine (seq i0 (List.length l)) l) ->
  i0 <= i /\ nth_error l (i - i0) = Some x.
Proof.
  revert i0; induction l as [|y l IH]; simpl; intros i0 Hin; [tauto|].
  destruct Hin as [He|Hin].
  - injection He as <- <-. rewrite Nat.sub_diag. auto.
  - apply IH in Hin. destruct Hin as [Hle Hn]. split; [lia|].
    replace (i - i0) with (S (i - S i0)) by lia. exact Hn.
Qed.

Lemma pickEdgesList_member (u : Node) (E : list Edge) (i : nat) (edge : Edge) :
  In (i, edge) (pickEdgesList u E) ->
  nth_error E i = Some edge /\ Edge.start edge = Node.name u.
Proof.
  unfold pickEdgesList, enumerate. intros Hin.
  apply filter_In in Hin. destruct Hin as [Hin Hs]. simpl in Hs.
  apply String.eqb_eq in Hs. split; auto.
  apply combine_seq_nth in Hin. destruct Hin as [_ Hn].
  now rewrite Nat.sub_0_r in Hn.
Qed.

(** What holds of the nodes and is kept by every new label holds after the
    edges of a node have been relaxed, and on a network whose edges end at
    nodes the relaxation does not fail. *)
Lemma relax_invariant (P : list Node -> Prop) (u : nat) (ign : list nat)
      (uv : list (nat * Edge)) (N : list Node) (n : option nat) :
  (forall i edge, In (i, edge) uv -> In (Edge.end_ edge) (names N)) ->
  (forall N1 j i edge,
      names N1 = names N -> P N1 -> In (i, edge) uv ->
      existsb (Nat.eqb i) ign = false ->
      find_node 0 N1 (Edge.end_ edge) = Some j ->
      nltb (nadd (Node.dist (node_at N1 u)) (Edge.cost edge))
           (Node.dist (node_at N1 j)) = true ->
      P (set_label N1 j (nadd (Node.dist (node_at N1 u)) (Edge.cost edge)) u)) ->
  P N ->
  exists N', relax N u ign uv n = Ok N' /\ P N' /\ names N' = names N.
Proof.
  intros Hclosed Hstep.
  assert (Hgen : forall N1 n1,
             names N1 = names N -> P N1 ->
             (forall i edge, In (i, edge) uv ->
                             In (Edge.end_ edge) (names N)) ->
             (forall N2 j i edge,
                 names N2 = names N -> P N2 -> In (i, edge) uv ->
                 existsb (Nat.eqb i) ign = false ->
                 find_node 0 N2 (Edge.end_ edge) = Some j ->
                 nltb (nadd (Node.dist (node_at N2 u)) (Edge.cost edge))
                      (Node.dist (node_at N2 j)) = true ->
                 P (set_label N2 j
                              (nadd (Node.dist (node_at N2 u)) (Edge.cost edge))
                              u)) ->
             exists N', relax N1 u ign uv n1 = Ok N' /\ P N' /\
                        names N' = names N).
  { clear Hclosed Hstep.
    induction uv as [|[i edge] uv IH]; intros N1 n1 Hn HP Hclosed Hstep.
    - exists N1. simpl. auto.
    - cbn [relax]. destruct (existsb (Nat.eqb i) ign) eqn:Hign.
      + apply IH; auto.
        * intros i' e' Hin. apply (Hclosed i' e'). now right.
        * intros N2 j i' e' H1 H2 H3. apply Hstep; auto. now right.
      + destruct (find_node_found N1 (Edge.end_ edge) 0) as (j & Hj).
        { rewrite Hn. apply (Hclosed i edge). now left. }
        rewrite Hj.
        destruct (nltb _ _) eqn:Hlt.
        * apply IH.
          -- now rewrite set_label_names.
          -- apply (Hstep N1 j i edge); auto. now left.
          -- intros i' e' Hin. apply (Hclosed i' e'). now right.
          -- intros N2 j' i' e' H1 H2 H3. apply Hstep; auto. now right.
        * apply IH; auto.
          -- intros i' e' Hin. apply (Hclosed i' e'). now right.
          -- intros N2 j' i' e' H1 H2 H3. apply Hstep; auto. now right. }
  intros HP. apply Hgen; auto.
Qed.

Lemma node_at_set_label (N : list Node) (j u k : nat) (d : F) :
  node_at (set_label N j d u) k =
  if Nat.eqb j k && (k <? List.length N)
  then Node.mk (Node.name (node_at N j)) d (Some u) (Node.flag (node_at N j))
  else node_at N k.
Proof.
  unfold set_label, node_at.
  destruct (Nat.eqb j k) eqn:Hjk; simpl.
  - apply Nat.eqb_eq in Hjk. subst k.
    destruct (j <? List.length N) eqn:Hlt.
    + apply Nat.ltb_lt in Hlt. now rewrite nth_update_same.
    + apply Nat.ltb_ge in Hlt. now rewrite update_beyond.
  - apply Nat.eqb_neq in Hjk. now rewrite nth_update_other.
Qed.

Lemma node_at_set_flag (N : list Node) (u k : nat) :
  node_at (set_flag N u) k =
  if Nat.eqb u k && (k <? List.length N)
  then Node.mk (Node.name (node_at N u)) (Node.dist (node_at N u))
               (Node.prev (node_at N u)) 1
  else node_at N k.
Proof.
  unfold set_flag, node_at.
  destruct (Nat.eqb u k) eqn:Huk; simpl.
  - apply Nat.eqb_eq in Huk. subst k.
    destruct (u <? List.length N) eqn:Hlt.
    + apply Nat.ltb_lt in Hlt. now rewrite nth_update_same.
    + apply Nat.ltb_ge in Hlt. now rewrite update_beyond.
  - apply Nat.eqb_neq in Huk. now rewrite nth_update_other.
Qed.

Lemma joined_by_names (E : list Edge) (ign : list nat) (N N' : list Node)
      (a b : nat) :
  names N' = names N -> joined_by E ign N a b -> joined_by E ign N' a b.
Proof.
  intros Hn (i & edge & H1 & H2 & H3 & H4).
  exists i, edge. rewrite !(name_at_names N N') by auto. auto.
Qed.

Lemma round_labels_on_edges (E : list Edge) (ign : list nat)
      (N N0 : list Node) (u : nat) :
  closed E N0 -> names N = names N0 ->
  labels_on_edges E ign N ->
  exists N', round E ign N u = Ok N' /\ labels_on_edges E ign N' /\
             names N' = names N0.
Proof.
  intros Hclosed Hn HL. unfold round.
  set (N1 := set_flag N u).
  assert (Hn1 : names N1 = names N0).
  { unfold N1. now rewrite set_flag_names. }
  assert (HL1 : labels_on_edges E ign N1).
  { intros j p Hp. unfold N1 in Hp. rewrite node_at_set_flag in Hp.
    apply joined_by_names with (N := N).
    - apply set_flag_names.
    - apply HL. destruct (Nat.eqb u j && (j <? List.length N)) eqn:Hc; auto.
      apply andb_true_iff in Hc. destruct Hc as [Hc _].
      apply Nat.eqb_eq in Hc. subst j. exact Hp. }
  destruct (relax_invariant (labels_on_edges E ign) u ign
              (pickEdgesList (node_at N1 u) E) N1 None)
    as (N' & Hr & HL' & Hn'); auto.
  - intros i edge Hin. apply pickEdgesList_member in Hin.
    destruct Hin as [Hnth _]. apply nth_error_In in Hnth.
    rewrite Hn1. unfold closed in Hclosed. rewrite Forall_forall in Hclosed.
    now apply Hclosed.
  - intros N2 j i edge Hn2 HL2 Hin Hign Hj Hlt j' p Hp.
    apply joined_by_names with (N := N2); [apply set_label_names|].
    rewrite node_at_set_label in Hp.
    destruct (Nat.eqb j j' && (j' <? List.length N2)) eqn:Hc.
    + apply andb_true_iff in Hc. destruct Hc as [Hc _].
      apply Nat.eqb_eq in Hc. subst j'. simpl in Hp. injection Hp as <-.
      apply pickEdgesList_member in Hin. destruct Hin as [Hnth Hs].
      exists i, edge. repeat split; auto.
      * rewrite Hs. symmetry. now apply name_at_names.
      * apply find_node_at in Hj. destruct Hj as (k & -> & _ & Hk).
        simpl. symmetry. exact Hk.
    + now apply HL2.
  - exists N'. repeat split; auto. congruence.
Qed.

Lemma Forall_node_at (Q0 : Node -> Prop) (N : list Node) (j : nat) :
  Forall Q0 N -> Q0 no_node -> Q0 (node_at N j).
Proof.
  intros HN Hd. unfold node_at.
  destruct (Nat.lt_ge_cases j (List.length N)) as [Hj|Hj].
  - rewrite Forall_forall in HN. apply HN. now apply nth_In.
  - now rewrite nth_overflow.
Qed.

Lemma start_no_prev (N : list Node) (o : string) :
  Forall (fun node => Node.prev node = None) (set_origin (resetGraph N) o).
Proof.
  unfold set_origin, resetGraph. rewrite map_map. apply Forall_forall.
  intros node Hin. apply in_map_iff in Hin. destruct Hin as (x & <- & _).
  simpl. now destruct (String.eqb _ _).
Qed.

Lemma start_labels_on_edges (E : list Edge) (ign : list nat) (N : list Node)
      (o : string) :
  labels_on_edges E ign (set_origin (resetGraph N) o).
Proof.
  intros j u Hp. exfalso.
  pose proof (Forall_node_at (fun node => Node.prev node = None) _ j
                             (start_no_prev N o) eq_refl) as Hn.
  simpl in Hn. congruence.
Qed.

Lemma walk_back_links (N : list Node) (steps u : nat) (S P : list nat) :
  links N u S -> walk_back steps N u S = Ok P ->
  prev_path N P /\ exists pre, P = (pre ++ u :: S)%list.
Proof.
  revert u S; induction steps as [|steps IH]; intros u S HS Hw;
    cbn [walk_back] in Hw;
    destruct (Node.prev (node_at N u)) as [p|] eqn:Hp; try discriminate.
  - injection Hw as <-. split; [split; auto|]. now exists [].
  - destruct (IH p (u :: S)) as (Hpp & pre & ->); auto.
    + split; auto.
    + split; auto. exists (pre ++ [p])%list. now rewrite <- app_assoc.
  - injection Hw as <-. split; [split; auto|]. now exists [].
Qed.

Lemma find_edge_found (E : list Edge) (s e : string) (i0 i : nat) (edge : Edge) :
  nth_error E i = Some edge -> Edge.start edge = s -> Edge.end_ edge = e ->
  exists k, find_edge i0 E s e = Some (i0 + k) /\ k < List.length E /\
            Edge.start (nth k E no_edge) = s /\ Edge.end_ (nth k E no_edge) = e.
Proof.
  revert i0 i; induction E as [|x E IH]; intros i0 i Hn Hs He.
  - destruct i; discriminate.
  - simpl. destruct (String.eqb (Edge.start x) s && String.eqb (Edge.end_ x) e)
      eqn:Hx.
    + apply andb_true_iff in Hx. destruct Hx as [H1 H2].
      apply String.eqb_eq in H1, H2.
      exists 0. rewrite Nat.add_0_r. repeat split; auto; simpl; lia.
    + destruct i as [|i].
      * injection Hn as ->. rewrite Hs, He, !String.eqb_refl in Hx. discriminate.
      * destruct (IH (S i0) i Hn Hs He) as (k & Hk & Hlt & H1 & H2).
        exists (S k). rewrite Hk. repeat split; auto; try lia; f_equal; lia.
Qed.

Lemma path_edges_follows (E : list Edge) (ign : list nat) (N : list Node)
      (a : nat) (rest : list nat) :
  labels_on_edges E ign N -> links N a rest ->
  exists route,
    path_edges N E (Some a) rest = Ok route /\
    List.length route = List.length rest /\ follows N E a rest route.
Proof.
  intros HL. revert a; induction rest as [|b rest IH]; intros a Hl.
  - exists []. simpl. auto.
  - destruct Hl as [Hp Hl]. cbn [path_edges].
    destruct (HL b a Hp) as (i & edge & Hn & _ & Hs & He).
    destruct (find_edge_found E _ _ 0 i edge Hn Hs He) as (k & Hk & Hlt & H1 & H2).
    rewrite Hk. destruct (IH b Hl) as (route & Hr & Hlen & Hf).
    rewrite Hr. cbn [bind]. exists (0 + k :: route). simpl.
    repeat split; auto.
Qed.

(** X7: on a network whose edges end at nodes, a path that [dijkstra] gives
    back ends at the destination, the last node of that name, and starts at
    a node without predecessor; each of its nodes is the predecessor of the
    next and an edge that is not ignored goes from the one to the other; so
    [getPathAsEdges] does not fail on it, and gives one edge for each step,
    going from the node of the step to the next. *)
Theorem returned_path_is_a_route
        (N N' : list Node) (E : list Edge) (o d : string) (ign : list nat)
        (P : list nat) :
  closed E N ->
  dijkstra N E o d ign = Ok (N', P) ->
  exists a rest dest route,
    P = a :: rest /\
    find_dest 0 (set_origin (resetGraph N) o) d None = Some dest /\
    last P dest = dest /\
    Node.name (node_at N' dest) = d /\
    Node.prev (node_at N' a) = None /\ links N' a rest /\
    labels_on_edges E ign N' /\
    getPathAsEdges N' P E = Ok route /\
    List.length route = List.length rest /\
    follows N' E a rest route.
Proof.
  intros Hclosed H. unfold dijkstra in H.
  set (N0 := set_origin (resetGraph N) o) in *.
  assert (Hn0 : names N0 = names N) by apply start_names.
  pose proof (dijkstra_loop_spec E ign (find_dest 0 N0 d None)
                (fun N1 => names N1 = names N /\ labels_on_edges E ign N1))
    as Hloop.
  assert (Hround : forall N1 u N1',
             names N1 = names N /\ labels_on_edges E ign N1 ->
             pickSmallestNode N1 = Some u -> round E ign N1 u = Ok N1' ->
             names N1' = names N /\ labels_on_edges E ign N1').
  { intros N1 u N1' [Hn1 HL1] _ Hr.
    destruct (round_labels_on_edges E ign N1 N u Hclosed Hn1 HL1)
      as (N2 & Hr2 & HL2 & Hn2).
    rewrite Hr in Hr2. injection Hr2 as <-. auto. }
  specialize (Hloop Hround (List.length N0) N0
                    (conj Hn0 (start_labels_on_edges E ign N o))
                    (unflagged_le_length N0)).
  bind_inv H. rewrite Ha in Hloop. destruct Hloop as ((Hn1 & HL1) & _ & _).
  destruct (find_dest 0 N0 d None) as [dest|] eqn:Hd; [|discriminate].
  bind_inv H. injection H as <- <-.
  destruct (walk_back_links a (List.length a) dest [] a0 I Ha0)
    as (Hpp & pre & HP).
  destruct a0 as [|x rest]; [contradiction|].
  destruct Hpp as [Hx Hl].
  destruct (path_edges_follows E ign a x rest HL1 Hl) as (route & Hr & Hlen & Hf).
  exists x, rest, dest, route. repeat split; auto.
  - rewrite HP. clear. induction pre as [|y pre IH]; simpl; auto.
    destruct (pre ++ [dest])%list eqn:He; auto.
    destruct pre; discriminate.
  - assert (Hin : In d (names N0)).
    { destruct (in_dec string_dec d (names N0)) as [Hi|Hni]; auto.
      rewrite find_dest_absent in Hd by auto. discriminate. }
    destruct (find_dest_present N0 d 0 None Hin) as (k & Hk & _ & Hnm).
    rewrite Hd in Hk. injection Hk as ->. simpl.
    rewrite (name_at_names N0 a) by congruence. exact Hnm.
Qed.

End ReturnedPath.

Lemma returned_path_is_a_route_witness :
  exists N' P route,
    dijkstra diamond_nodes diamond_edges "A" "D" [] = Ok (N', P) /\
    getPathAsEdges N' P diamond_edges = Ok route /\
    List.length route + 1 = List.length P.
Proof.
  destruct (dijkstra diamond_nodes diamond_edges "A" "D" [])
    as [[N' P]| |] eqn:H; [|vm_compute in H; discriminate..].
  destruct (returned_path_is_a_route
              diamond_nodes N' diamond_edges "A" "D" [] P)
    as (a & rest & dest & route & HP & _ & _ & _ & _ & _ & _ & Hr & Hlen & _).
  - repeat constructor; simpl; tauto.
  - exact H.
  - exists N', P, route. repeat split; auto.
    rewrite HP, Hlen. simpl. lia.
Defined.

(** ** A search on costs that are not negative *)

Section Ordered.

Local Abbreviation Node := (Node.t Q).
Local Abbreviation Edge := (Edge.t Q).

Lemma set_label_same (N : list Node) (j u : nat) (d : Q) :
  j < List.length N ->
  node_at (set_label N j d u) j
  = Node.mk (Node.name (node_at N j)) d (Some u) (Node.flag (node_at N j)).
Proof.
  intros Hj. rewrite node_at_set_label, Nat.eqb_refl.
  apply Nat.ltb_lt in Hj. now rewrite Hj.
Qed.

Lemma set_label_other (N : list Node) (j u k : nat) (d : Q) :
  k <> j -> node_at (set_label N j d u) k = node_at N k.
Proof.
  intros Hk. rewrite node_at_set_label.
  assert (H : Nat.eqb j k = false) by (apply Nat.eqb_neq; congruence).
  now rewrite H.
Qed.

Lemma set_flag_same (N : list Node) (u : nat) :
  u < List.length N ->
  node_at (set_flag N u) u
  = Node.mk (Node.name (node_at N u)) (Node.dist (node_at N u))
            (Node.prev (node_at N u)) 1.
Proof.
  intros Hu. rewrite node_at_set_flag, Nat.eqb_refl.
  apply Nat.ltb_lt in Hu. now rewrite Hu.
Qed.

Lemma set_flag_other (N : list Node) (u k : nat) :
  k <> u -> node_at (set_flag N u) k = node_at N k.
Proof.
  intros Hk. rewrite node_at_set_flag.
  assert (H : Nat.eqb u k = false) by (apply Nat.eqb_neq; congruence).
  now rewrite H.
Qed.

Lemma flagged_count_flags (N N' : list Node) :
  map Node.flag N = map Node.flag N' -> flagged_count N = flagged_count N'.
Proof.
  intros H. unfold flagged_count. rewrite (unflagged_flags _ _ H).
  apply (f_equal (@List.length _)) in H. rewrite !length_map in H. now rewrite H.
Qed.

Variable o : string.

Lemma label_keeps_order (rank : nat -> nat) (u j : nat) (c : Q)
      (N : list Node) :
  labels_ordered o rank N -> relaxing u N ->
  j < List.length N -> (0 <= c)%Q ->
  (Node.dist (node_at N u) + c < Node.dist (node_at N j))%Q ->
  labels_ordered o rank (set_label N j (Node.dist (node_at N u) + c)%Q u) /\
  relaxing u (set_label N j (Node.dist (node_at N u) + c)%Q u).
Proof.
  intros (S1 & S2 & S3 & S5 & S6 & S7) (Hu & Hfu & HG & HH) Hj Hc Hlt.
  set (d := (Node.dist (node_at N u) + c)%Q) in *.
  set (N2 := set_label N j d u).
  assert (Hlen : List.length N2 = List.length N) by apply set_label_length.
  assert (Hfj : Node.flag (node_at N j) = 0).
  { destruct (S1 j Hj) as [H0|H1]; auto.
    specialize (HG j Hj H1). unfold d in Hlt. lra. }
  assert (Hju : j <> u) by (intros ->; congruence).
  assert (Hnj : Node.name (node_at N j) <> o).
  { intros Hn. destruct (S6 j Hj Hn) as [_ H0].
    destruct (S5 u Hu) as [Hu0 _]. unfold d in Hlt. lra. }
  assert (Hsame : node_at N2 j
                  = Node.mk (Node.name (node_at N j)) d (Some u)
                            (Node.flag (node_at N j)))
    by (apply set_label_same; auto).
  assert (Hother : forall k, k <> j -> node_at N2 k = node_at N k)
    by (intros k Hk; apply set_label_other; auto).
  assert (Hflag : forall k, Node.flag (node_at N2 k) = Node.flag (node_at N k)).
  { intros k. destruct (Nat.eq_dec k j) as [->|Hk].
    - now rewrite Hsame.
    - now rewrite Hother. }
  assert (Hcount : flagged_count N2 = flagged_count N).
  { apply flagged_count_flags. apply set_label_flags. }
  destruct (S5 j Hj) as [_ HjINF]. destruct (S5 u Hu) as [Hu0 _].
  split.
  - split; [|split; [|split; [|split; [|split]]]].
    + intros k Hk. rewrite Hflag. apply S1. lia.
    + intros k p Hp. destruct (Nat.eq_dec k j) as [->|Hk].
      * rewrite Hsame in Hp. cbn [Node.prev] in Hp. injection Hp as <-.
        rewrite Hlen, Hflag, (Hother u) by auto.
        repeat split; auto; [unfold d in Hlt; lra|congruence].
      * rewrite Hother in Hp by auto.
        destruct (S2 _ _ Hp) as (H1 & H2 & H3 & H4).
        assert (Hpj : p <> j) by (intros ->; congruence).
        rewrite Hlen, !Hflag, (Hother p) by auto. auto.
    + intros k Hk Hf. rewrite Hcount. rewrite Hflag in Hf. apply S3; auto. lia.
    + intros k Hk. destruct (Nat.eq_dec k j) as [->|Hkj].
      * rewrite Hsame. cbn [Node.dist]. unfold d in *. lra.
      * rewrite Hother by auto. apply S5. lia.
    + intros k Hk Hn. destruct (Nat.eq_dec k j) as [->|Hkj].
      * rewrite Hsame in Hn. cbn [Node.name] in Hn. contradiction.
      * rewrite Hother in * by auto. apply S6; auto. lia.
    + intros k Hk Hp Hn. destruct (Nat.eq_dec k j) as [->|Hkj].
      * rewrite Hsame in Hp. discriminate.
      * rewrite Hother in * by auto. apply S7; auto. lia.
  - split; [lia|]. split; [now rewrite Hflag|]. split.
    + intros i Hi Hf. rewrite Hflag in Hf. rewrite (Hother u) by auto.
      rewrite Hother by (intros ->; congruence). apply HG; auto. lia.
    + intros k Hk Hf. rewrite Hflag in Hf. rewrite (Hother u) by auto.
      destruct (Nat.eq_dec k j) as [->|Hkj].
      * rewrite Hsame. cbn [Node.dist]. unfold d. lra.
      * rewrite Hother by auto. apply HH; auto. lia.
Qed.

Lemma pick_is_least (N : list Node) (u : nat) :
  pickSmallestNode N = Some u ->
  forall j, j < List.length N -> Node.flag (node_at N j) = 0 ->
            (Node.dist (node_at N u) <= Node.dist (node_at N j))%Q.
Proof.
  unfold pickSmallestNode. intros Hp.
  destruct (first_unflagged 0 N) as [m|] eqn:Hm; [|discriminate].
  injection Hp as <-.
  destruct (first_unflagged_first _ _ _ Hm) as (k0 & -> & Hk0 & Hf0 & Hfirst).
  simpl. unfold node_at.
  destruct (scan_smaller_least N 0 k0 (Node.dist (nth k0 N no_node)))
    as [[-> Hall]|(k & -> & Hk & Hfk & Hltk & Hall & Hbefore)]; simpl; auto.
Qed.

Lemma flagged_count_set_flag (N : list Node) (u : nat) :
  u < List.length N -> Node.flag (node_at N u) = 0 ->
  flagged_count (set_flag N u) = S (flagged_count N).
Proof.
  intros Hu Hf. unfold flagged_count. rewrite set_flag_length.
  pose proof (unflagged_set_flag N u Hu Hf).
  pose proof (unflagged_le_length N). lia.
Qed.

Lemma flag_starts_relaxing (rank : nat -> nat) (N : list Node) (u : nat) :
  labels_ordered o rank N -> settled_first N ->
  pickSmallestNode N = Some u ->
  labels_ordered o (fun i => if Nat.eqb i u then flagged_count N else rank i)
                 (set_flag N u) /\
  relaxing u (set_flag N u).
Proof.
  intros (S1 & S2 & S3 & S5 & S6 & S7) HF Hp.
  pose proof (pick_is_least N u Hp) as Hleast.
  apply pickSmallestNode_Some in Hp. destruct Hp as [Hu Hfu].
  set (N1 := set_flag N u).
  assert (Hlen : List.length N1 = List.length N) by apply set_flag_length.
  assert (Hsame : node_at N1 u
                  = Node.mk (Node.name (node_at N u)) (Node.dist (node_at N u))
                            (Node.prev (node_at N u)) 1)
    by (apply set_flag_same; auto).
  assert (Hother : forall k, k <> u -> node_at N1 k = node_at N k)
    by (intros k Hk; apply set_flag_other; auto).
  assert (Hcount : flagged_count N1 = S (flagged_count N))
    by (apply flagged_count_set_flag; auto).
  assert (Hprev : forall k, Node.prev (node_at N1 k) = Node.prev (node_at N k)).
  { intros k. destruct (Nat.eq_dec k u) as [->|Hk];
      [now rewrite Hsame|now rewrite Hother]. }
  assert (Hdist : forall k, Node.dist (node_at N1 k) = Node.dist (node_at N k)).
  { intros k. destruct (Nat.eq_dec k u) as [->|Hk];
      [now rewrite Hsame|now rewrite Hother]. }
  assert (Hname : forall k, Node.name (node_at N1 k) = Node.name (node_at N k)).
  { intros k. destruct (Nat.eq_dec k u) as [->|Hk];
      [now rewrite Hsame|now rewrite Hother]. }
  split.
  - split; [|split; [|split; [|split; [|split]]]].
    + intros k Hk. destruct (Nat.eq_dec k u) as [->|Hku].
      * rewrite Hsame. auto.
      * rewrite Hother by auto. apply S1. lia.
    + intros k p Hpk. rewrite Hprev in Hpk.
      destruct (S2 _ _ Hpk) as (H1 & H2 & H3 & H4).
      assert (Hpu : p <> u) by (intros ->; congruence).
      rewrite Hlen, (Hother p) by auto.
      repeat split; auto.
      intros Hfk. apply Nat.eqb_neq in Hpu. rewrite Hpu.
      destruct (Nat.eqb k u) eqn:Hku.
      * apply S3; auto.
      * apply Nat.eqb_neq in Hku. rewrite Hother in Hfk by auto. auto.
    + intros k Hk Hf. rewrite Hcount. destruct (Nat.eqb k u) eqn:Hku; [lia|].
      apply Nat.eqb_neq in Hku. rewrite Hother in Hf by auto.
      assert (rank k < flagged_count N) by (apply S3; auto; lia). lia.
    + intros k Hk. rewrite Hdist. apply S5. lia.
    + intros k Hk Hn. rewrite Hname in Hn. rewrite Hprev, Hdist.
      apply S6; auto. lia.
    + intros k Hk Hpk Hn. rewrite Hname in Hn. rewrite Hprev in Hpk.
      rewrite Hdist. apply S7; auto. lia.
  - split; [lia|]. split; [now rewrite Hsame|]. split.
    + intros i Hi Hf. rewrite !Hdist. destruct (Nat.eq_dec i u) as [->|Hiu].
      * apply Qle_refl.
      * rewrite Hother in Hf by auto. apply HF; auto. lia.
    + intros k Hk Hf. rewrite !Hdist. destruct (Nat.eq_dec k u) as [->|Hku].
      * apply Qle_refl.
      * rewrite Hother in Hf by auto. apply Hleast; auto. lia.
Qed.

Lemma relaxing_settles (u : nat) (N : list Node) :
  relaxing u N -> settled_first N.
Proof.
  intros (_ & _ & HG & HH) i j Hi Hj Hfi Hfj.
  specialize (HG i Hi Hfi). specialize (HH j Hj Hfj). lra.
Qed.

Variable E : list Edge.
Variable ign : list nat.

Hypothesis costs_nonneg : Forall (fun e : Edge => (0 <= Edge.cost e)%Q) E.

Lemma label_on_edge (N1 N2 : list Node) (u j i : nat) (edge : Edge) (d : Q) :
  names N2 = names N1 ->
  In (i, edge) (pickEdgesList (node_at N1 u) E) ->
  existsb (Nat.eqb i) ign = false ->
  find_node 0 N2 (Edge.end_ edge) = Some j ->
  labels_on_edges E ign N2 ->
  labels_on_edges E ign (set_label N2 j d u).
Proof.
  intros Hn2 Hin Hign Hj HL2 j' p Hp.
  apply joined_by_names with (N := N2); [apply set_label_names|].
  rewrite node_at_set_label in Hp.
  destruct (Nat.eqb j j' && (j' <? List.length N2)) eqn:Hc.
  - apply andb_true_iff in Hc. destruct Hc as [Hc _].
    apply Nat.eqb_eq in Hc. subst j'. simpl in Hp. injection Hp as <-.
    apply pickEdgesList_member in Hin. destruct Hin as [Hnth Hs].
    exists i, edge. repeat split; auto.
    + rewrite Hs. symmetry. now apply name_at_names.
    + apply find_node_at in Hj. destruct Hj as (k & -> & _ & Hk).
      simpl. symmetry. exact Hk.
  - now apply HL2.
Qed.

Lemma round_ordered (rank : nat -> nat) (N N0 : list Node) (u : nat) :
  closed E N0 -> names N = names N0 ->
  labels_ordered o rank N -> settled_first N -> labels_on_edges E ign N ->
  pickSmallestNode N = Some u ->
  exists N' rank',
    round E ign N u = Ok N' /\
    labels_ordered o rank' N' /\ settled_first N' /\
    labels_on_edges E ign N' /\ names N' = names N0.
Proof.
  intros Hclosed Hn HO HF HL Hp.
  destruct (flag_starts_relaxing rank N u HO HF Hp) as [HO1 HR1].
  set (rank' := fun i => if Nat.eqb i u then flagged_count N else rank i) in *.
  set (N1 := set_flag N u) in *.
  assert (Hn1 : names N1 = names N0).
  { unfold N1. now rewrite set_flag_names. }
  assert (HL1 : labels_on_edges E ign N1).
  { intros j p Hpj. unfold N1 in Hpj. rewrite node_at_set_flag in Hpj.
    apply joined_by_names with (N := N); [apply set_flag_names|].
    apply HL. destruct (Nat.eqb u j && (j <? List.length N)) eqn:Hc; auto.
    apply andb_true_iff in Hc. destruct Hc as [Hc _].
    apply Nat.eqb_eq in Hc. subst j. exact Hpj. }
  unfold round. fold N1.
  destruct (relax_invariant
              (fun N2 => labels_ordered o rank' N2 /\ relaxing u N2 /\
                         labels_on_edges E ign N2)
              u ign (pickEdgesList (node_at N1 u) E) N1 None)
    as (N' & Hr & (HO' & HR' & HL') & Hn'); auto.
  - intros i edge Hin. apply pickEdgesList_member in Hin.
    destruct Hin as [Hnth _]. apply nth_error_In in Hnth.
    rewrite Hn1. unfold closed in Hclosed. rewrite Forall_forall in Hclosed.
    now apply Hclosed.
  - intros N2 j i edge Hn2 (HO2 & HR2 & HL2) Hin Hign Hj Hlt.
    cbn [nltb nadd Q_Num] in *. apply Qltb_true in Hlt.
    assert (Hjlt : j < List.length N2).
    { apply find_node_at in Hj. destruct Hj as (k & -> & Hk & _). exact Hk. }
    assert (Hc : (0 <= Edge.cost edge)%Q).
    { apply pickEdgesList_member in Hin. destruct Hin as [Hnth _].
      apply nth_error_In in Hnth. rewrite Forall_forall in costs_nonneg.
      now apply costs_nonneg. }
    destruct (label_keeps_order rank' u j (Edge.cost edge) N2 HO2 HR2 Hjlt Hc Hlt)
      as [HO3 HR3].
    split; [exact HO3|]. split; [exact HR3|].
    eapply label_on_edge; eauto.
  - exists N', rank'. split; [exact Hr|]. split; [exact HO'|].
    split; [now apply relaxing_settles with (u := u)|].
    split; [exact HL'|congruence].
Qed.

Lemma start_ordered (N : list Node) :
  labels_ordered o (fun _ => 0) (set_origin (resetGraph N) o) /\
  settled_first (set_origin (resetGraph N) o).
Proof.
  set (N0 := set_origin (resetGraph N) o).
  assert (Hall : Forall (fun node : Node =>
                           Node.flag node = 0 /\ Node.prev node = None /\
                           ((Node.name node = o /\ Node.dist node = inject_Z 0) \/
                            (Node.name node <> o /\ Node.dist node = INF)))
                        N0).
  { unfold N0, set_origin, resetGraph. rewrite map_map. apply Forall_forall.
    intros node Hin. apply in_map_iff in Hin. destruct Hin as (x & <- & _).
    cbn [Node.name]. destruct (String.eqb (Node.name x) o) eqn:Hx; simpl.
    - apply String.eqb_eq in Hx. auto.
    - apply String.eqb_neq in Hx. auto. }
  assert (Hat : forall j, j < List.length N0 ->
                          Node.flag (node_at N0 j) = 0 /\
                          Node.prev (node_at N0 j) = None /\
                          ((Node.name (node_at N0 j) = o /\
                            Node.dist (node_at N0 j) = inject_Z 0) \/
                           (Node.name (node_at N0 j) <> o /\
                            Node.dist (node_at N0 j) = INF))).
  { intros j Hj. rewrite Forall_forall in Hall. apply Hall.
    unfold node_at. now apply nth_In. }
  assert (Hprev : forall j, Node.prev (node_at N0 j) = None).
  { intros j. apply (Forall_node_at (fun node => Node.prev node = None)).
    - apply start_no_prev.
    - reflexivity. }
  split.
  - split; [|split; [|split; [|split; [|split]]]].
    + intros j Hj. left. apply Hat; auto.
    + intros j u Hp. rewrite Hprev in Hp. discriminate.
    + intros j Hj Hf. destruct (Hat j Hj) as (H0 & _). congruence.
    + intros j Hj. destruct (Hat j Hj) as (_ & _ & [[_ Hd]|[_ Hd]]);
        rewrite Hd; unfold INF; cbn [nof_Z Q_Num]; unfold inject_Z; split; lra.
    + intros j Hj Hn. destruct (Hat j Hj) as (_ & Hp & [[_ Hd]|[Hne _]]).
      * split; auto. rewrite Hd. unfold inject_Z. lra.
      * contradiction.
    + intros j Hj _ Hn. destruct (Hat j Hj) as (_ & _ & [[He _]|[_ Hd]]); auto.
      contradiction.
  - intros i j Hi Hj Hfi _. destruct (Hat i Hi) as (H0 & _). congruence.
Qed.

Lemma walk_back_total (rank : nat -> nat) (N : list Node) :
  labels_ordered o rank N ->
  forall steps i S,
    i < List.length N ->
    (Node.flag (node_at N i) = 1 -> rank i <= steps) ->
    (Node.flag (node_at N i) = 0 -> flagged_count N <= steps) ->
    exists P, walk_back steps N i S = Ok P.
Proof.
  intros (S1 & S2 & S3 & _). induction steps as [|steps IH];
    intros i S Hi H1 H0; cbn [walk_back];
    destruct (Node.prev (node_at N i)) as [p|] eqn:Hp; eauto.
  - exfalso. destruct (S2 _ _ Hp) as (Hpl & Hpf & _ & Hr).
    specialize (S3 p Hpl Hpf).
    destruct (S1 i Hi) as [Hf|Hf].
    + specialize (H0 Hf). lia.
    + specialize (H1 Hf). specialize (Hr Hf). lia.
  - destruct (S2 _ _ Hp) as (Hpl & Hpf & _ & Hr).
    specialize (S3 p Hpl Hpf).
    apply IH; auto.
    + intros _. destruct (S1 i Hi) as [Hf|Hf].
      * specialize (H0 Hf). lia.
      * specialize (H1 Hf). specialize (Hr Hf). lia.
    + intros Hf0. congruence.
Qed.

Lemma last_cons_default (A : Type) (l : list A) (b a : A) :
  last (b :: l) a = last l b.
Proof.
  revert a b; induction l as [|c l IH]; intros a b; auto.
  change (last (b :: c :: l) a) with (last (c :: l) a).
  now rewrite (IH a c), (IH b c).
Qed.

Lemma reach_trans (x y z : string) :
  reach E x y -> reach E y z -> reach E x z.
Proof.
  intros Hxy Hyz. induction Hyz as [|e _ IH Hin]; auto.
  now apply reach_edge.
Qed.

Lemma links_reach (N : list Node) (a : nat) (rest : list nat) :
  labels_on_edges E ign N -> links N a rest ->
  reach E (Node.name (node_at N a)) (Node.name (node_at N (last rest a))).
Proof.
  intros HL. revert a; induction rest as [|b rest IH]; intros a Hl.
  - apply reach_here.
  - destruct Hl as [Hp Hl]. rewrite last_cons_default.
    apply reach_trans with (y := Node.name (node_at N b)); [|now apply IH].
    destruct (HL b a Hp) as (i & edge & Hn & _ & Hs & He).
    rewrite <- He. apply reach_edge.
    + rewrite Hs. apply reach_here.
    + now apply nth_error_In in Hn.
Qed.

Lemma links_last (N : list Node) (a b : nat) (rest : list nat) :
  links N a (b :: rest) ->
  exists p, Node.prev (node_at N (last (b :: rest) a)) = Some p.
Proof.
  revert a b; induction rest as [|c rest IH]; intros a b [Hp Hl].
  - now exists a.
  - rewrite last_cons_default.
    destruct (IH b c Hl) as (p & Hlast). now exists p.
Qed.

Lemma dijkstra_ordered (N : list Node) (d : string) :
  closed E N -> In d (names N) ->
  exists N' a rest,
    dijkstra N E o d ign = Ok (N', a :: rest) /\
    labels_on_edges E ign N' /\ links N' a rest /\
    Node.name (node_at N' (last rest a)) = d /\
    (rest = [] \/ (Node.name (node_at N' a) = o /\ o <> d)).
Proof.
  intros Hclosed Hd. unfold dijkstra.
  set (N0 := set_origin (resetGraph N) o).
  assert (Hn0 : names N0 = names N) by apply start_names.
  destruct (find_dest_present N0 d 0 None) as (k & Hk & Hlt & Hname).
  { now rewrite Hn0. }
  simpl in Hk. rewrite Hk.
  set (Inv := fun N1 : list Node =>
                names N1 = names N /\ labels_on_edges E ign N1 /\
                settled_first N1 /\ exists rank, labels_ordered o rank N1).
  assert (Hround : forall N1 u,
             Inv N1 -> pickSmallestNode N1 = Some u ->
             exists N1', round E ign N1 u = Ok N1' /\ Inv N1').
  { intros N1 u (Hn1 & HL1 & HF1 & rank & HO1) Hp.
    destruct (round_ordered rank N1 N u Hclosed Hn1 HO1 HF1 HL1 Hp)
      as (N2 & rank2 & Hr2 & HO2 & HF2 & HL2 & Hn2).
    exists N2. split; auto. split; auto. split; auto. split; auto.
    now exists rank2. }
  assert (Hstart : Inv N0).
  { destruct (start_ordered N) as [HO0 HF0].
    split; auto. split; [apply start_labels_on_edges|]. split; auto.
    now exists (fun _ => 0). }
  pose proof (dijkstra_loop_spec E ign (Some k) Inv) as Hloop.
  assert (Hkeep : forall N1 u N1', Inv N1 -> pickSmallestNode N1 = Some u ->
                                   round E ign N1 u = Ok N1' -> Inv N1').
  { intros N1 u N1' HI Hp Hr. destruct (Hround N1 u HI Hp) as (N2 & Hr2 & HI2).
    rewrite Hr in Hr2. injection Hr2 as <-. exact HI2. }
  specialize (Hloop Hkeep (List.length N0) N0 Hstart (unflagged_le_length N0)).
  destruct (dijkstra_loop (List.length N0) N0 E ign (Some k)
                          (pickSmallestNode N0)) as [N1|e|] eqn:Hrun.
  - destruct Hloop as ((Hn1 & HL1 & HF1 & rank & HO1) & _ & _).
    cbn [bind].
    assert (Hlen : List.length N1 = List.length N0).
    { rewrite <- (length_map (@Node.name Q) N1), <- (length_map (@Node.name Q) N0).
      fold (names N1). fold (names N0). congruence. }
    assert (Hk1 : k < List.length N1) by lia.
    destruct (walk_back_total rank N1 HO1 (List.length N1) k [] Hk1)
      as (P & HP).
    { intros Hf. destruct HO1 as (_ & _ & S3 & _).
      specialize (S3 k Hk1 Hf). unfold flagged_count in S3. lia. }
    { intros _. unfold flagged_count. lia. }
    rewrite HP. cbn [bind].
    destruct (walk_back_links N1 (List.length N1) k [] P I HP)
      as (Hpp & pre & Hpre).
    destruct P as [|a rest]; [contradiction|]. destruct Hpp as [Ha Hl].
    assert (Hlast : last rest a = k).
    { rewrite <- (last_cons_default _ rest a a), Hpre. clear.
      induction pre as [|y pre IH]; simpl; auto.
      destruct (pre ++ [k])%list eqn:He; auto. destruct pre; discriminate. }
    assert (Hnk : Node.name (node_at N1 k) = d).
    { rewrite (name_at_names N0 N1) by congruence. exact Hname. }
    exists N1, a, rest. split; auto. split; auto. split; auto.
    split; [now rewrite Hlast|].
    destruct rest as [|b rest]; [now left|right].
    destruct HO1 as (_ & S2 & _ & _ & S6 & S7).
    destruct Hl as [Hb Hl'].
    destruct (S2 _ _ Hb) as (Hal & _ & Hdist & _).
    split.
    + destruct (string_dec (Node.name (node_at N1 a)) o) as [|Hne]; auto.
      rewrite (S7 a Hal Ha Hne) in Hdist.
      exfalso. revert Hdist. apply Qlt_irrefl.
    + intros ->. destruct (links_last N1 a b rest (conj Hb Hl')) as (p & Hp).
      rewrite Hlast in Hp. destruct (S6 k Hk1 Hnk) as [Hnone _]. congruence.
  - destruct Hloop as (N1 & u & HI & _ & Hp & Hr).
    destruct (Hround N1 u HI Hp) as (N2 & Hr2 & _). congruence.
  - contradiction.
Qed.

(** X8: on costs that are not negative, with every edge ending at a node and
    the destination among the nodes, [dijkstra] returns: it raises nothing
    and its two loops end within the number of nodes.  The path it gives is
    the destination alone, or starts at the origin, which then differs from
    the destination and reaches it along edges. *)
Theorem search_returns (N : list Node) (d : string) :
  closed E N -> In d (names N) ->
  exists N' a rest,
    dijkstra N E o d ign = Ok (N', a :: rest) /\
    Node.name (node_at N' (last rest a)) = d /\
    (rest = [] \/
     (Node.name (node_at N' a) = o /\ o <> d /\ reach E o d)).
Proof.
  intros Hclosed Hd.
  destruct (dijkstra_ordered N d Hclosed Hd)
    as (N' & a & rest & Hrun & HL & Hl & Hlast & Hcases).
  exists N', a, rest. split; auto. split; auto.
  destruct Hcases as [->|[Ha Hod]]; [now left|right].
  split; auto. split; auto.
  rewrite <- Ha, <- Hlast. now apply links_reach.
Qed.

End Ordered.

Lemma od_step_search (N : list (Node.t Q)) (E : list (Edge.t Q)) (o d : string) :
  Forall (fun e : Edge.t Q => (0 <= Edge.cost e)%Q) E ->
  closed E N -> In d (names N) ->
  exists N' a rest route,
    dijkstra N E o d [] = Ok (N', a :: rest) /\
    names N' = names N /\
    getPathAsEdges N' (a :: rest) E = Ok route /\
    List.length route = List.length rest /\
    (rest = [] \/ (o <> d /\ reach E o d)).
Proof.
  intros Hcost Hclosed Hd.
  destruct (dijkstra_ordered o E [] Hcost N d Hclosed Hd)
    as (N' & a & rest & Hrun & HL & Hl & Hlast & Hcases).
  destruct (path_edges_follows E [] N' a rest HL Hl) as (route & Hr & Hlen & _).
  exists N', a, rest, route. split; auto.
  split; [now apply dijkstra_names in Hrun|].
  split; auto. split; auto.
  destruct Hcases as [->|[Ha Hod]]; [now left|right]. split; auto.
  rewrite <- Ha, <- Hlast. now apply links_reach with (ign := []).
Qed.

(** X9: the all-or-nothing step of a pair [o|d] that is in the route table,
    on costs that are not negative, with every edge ending at a node and [d]
    among the nodes, has two outcomes only.  It succeeds, and then [o] and
    [d] differ, [d] is reached from [o] along edges, the nodes keep their
    names and the best route noted for the pair has an edge; or it raises
    [IndexError].  No other error is raised and the search does not go on
    for ever. *)
Theorem pair_step_outcomes
        (N : list (Node.t Q)) (E : list (Edge.t Q)) (od o d : string)
        (tbl : od_table) (mr : min_table) (routes : dict (list nat * Q)) :
  split bar od = [o; d] ->
  Forall (fun e : Edge.t Q => (0 <= Edge.cost e)%Q) E ->
  closed E N -> In d (names N) ->
  dict_get tbl od = Some routes ->
  od_step E (N, tbl, mr) od = Raise IndexError \/
  exists N' tbl' mr' name e route,
    od_step E (N, tbl, mr) od = Ok (N', tbl', mr') /\
    o <> d /\ reach E o d /\ names N' = names N /\
    dict_get mr' od = Some (name, e :: route).
Proof.
  intros Hsplit Hcost Hclosed Hd Hget.
  destruct (od_step_search N E o d Hcost Hclosed Hd)
    as (N' & a & rest & route & Hrun & Hn & Hroute & Hlen & Hcases).
  unfold od_step. rewrite Hsplit, Hrun. cbn [bind]. rewrite Hroute. cbn [bind].
  destruct route as [|e route].
  - now left.
  - right. destruct Hcases as [->|[Hod Hreach]]; [discriminate|].
    cbn [pathToStr bind]. unfold dict_item. rewrite Hget. cbn [bind].
    match goal with
    | |- context [dict_set mr od (?s, _)] => set (name := s)
    end.
    destruct (dict_mem routes name);
      eexists N', _, _, name, e, route;
      (split; [reflexivity|]); repeat split; auto;
      apply dict_get_set_same.
Qed.

(** X10: in exact arithmetic, on costs that are not negative and with
    every edge ending at a node, a demand key whose two halves are the same
    name, that of a node, stops the run.  The search gives back that node
    alone, the route has no edge and [pathToStr] raises [IndexError] on it:
    the step of the pair raises it whatever the tables hold, [run_MSA]
    gives no result when the key is in the demand, and raises [IndexError]
    when the key comes first. *)
Theorem self_pair_stops_run
        (N : list (Node.t Q)) (E : list (Edge.t Q)) (od o : string) :
  split bar od = [o; o] ->
  Forall (fun e : Edge.t Q => (0 <= Edge.cost e)%Q) E ->
  closed E N -> In o (names N) ->
  (forall tbl mr, od_step E (N, tbl, mr) od = Raise IndexError) /\
  (forall OD its output,
      In od (keys OD) -> 0 < its ->
      is_ok (run_MSA its N E OD output) = false) /\
  (forall OD its output,
      hd_error (keys OD) = Some od -> 0 < its ->
      run_MSA its N E OD output = Raise IndexError).
Proof.
  intros Hsplit Hcost Hclosed Hd.
  assert (Hstep : forall E1 N1 tbl mr,
             Forall (fun e : Edge.t Q => (0 <= Edge.cost e)%Q) E1 ->
             closed E1 N1 -> In o (names N1) ->
             od_step E1 (N1, tbl, mr) od = Raise IndexError).
  { intros E1 N1 tbl mr Hc1 Hcl1 Hd1.
    destruct (od_step_search N1 E1 o o Hc1 Hcl1 Hd1)
      as (N' & a & rest & route & Hrun & _ & Hroute & Hlen & Hcases).
    unfold od_step. rewrite Hsplit, Hrun. cbn [bind]. rewrite Hroute.
    destruct Hcases as [->|[Hod _]]; [|congruence].
    destruct route; [reflexivity|discriminate]. }
  assert (Hc1 : Forall (fun e : Edge.t Q => (0 <= Edge.cost e)%Q)
                       (map clear_aux E)).
  { apply Forall_map. revert Hcost. apply Forall_impl. now intros e. }
  assert (Hcl1 : forall N1, names N1 = names N -> closed (map clear_aux E) N1).
  { intros N1 Hn. unfold closed. apply Forall_map. rewrite Hn.
    revert Hclosed. apply Forall_impl. now intros e. }
  split; [|split].
  - intros tbl mr. now apply Hstep.
  - intros OD its output Hin Hits. unfold run_MSA. apply bind_not_ok.
    apply msa_loop_fails; auto.
    unfold msa_iteration. apply bind_not_ok. cbn [nodes edges table].
    apply all_or_nothing_fails with (N := N) (od := od); auto.
    intros N1 tbl mr Hn. rewrite Hstep; auto. now rewrite Hn.
  - intros OD its output Hhd Hits. unfold run_MSA.
    rewrite msa_loop_raises with (e := IndexError); auto.
    unfold msa_iteration. cbn [nodes edges table].
    destruct (keys OD) as [|od0 ods]; [discriminate|].
    injection Hhd as ->. cbn [all_or_nothing]. rewrite Hstep; auto.
Qed.

Lemma search_returns_witness :
  exists N' a rest,
    dijkstra diamond_nodes diamond_edges "A" "D" [] = Ok (N', a :: rest) /\
    Node.name (node_at N' (last rest a)) = "D" /\
    (rest = [] \/
     (Node.name (node_at N' a) = "A" /\ "A" <> "D" /\
      reach diamond_edges "A" "D")).
Proof.
  apply (search_returns "A" diamond_edges []).
  - repeat constructor; vm_compute; discriminate.
  - repeat constructor; simpl; tauto.
  - simpl; tauto.
Defined.

Lemma pair_step_outcomes_witness :
  od_step diamond_edges (diamond_nodes, [("A|D", [])], []) "A|D"
  = Raise IndexError \/
  exists N' tbl' mr' name e route,
    od_step diamond_edges (diamond_nodes, [("A|D", [])], []) "A|D"
    = Ok (N', tbl', mr') /\
    "A" <> "D" /\ reach diamond_edges "A" "D" /\
    names N' = names diamond_nodes /\
    dict_get mr' "A|D" = Some (name, e :: route).
Proof.
  apply (pair_step_outcomes diamond_nodes diamond_edges "A|D" "A" "D"
                            [("A|D", [])] [] []).
  - reflexivity.
  - repeat constructor; vm_compute; discriminate.
  - repeat constructor; simpl; tauto.
  - simpl; tauto.
  - reflexivity.
Defined.

Lemma self_pair_stops_run_witness :
  is_ok (run_MSA 3 diamond_nodes diamond_edges
                 [("A|D", 10%Q); ("B|B", 5%Q)] true) = false.
Proof.
  destruct (self_pair_stops_run diamond_nodes diamond_edges "B|B" "B")
    as (_ & H & _).
  - reflexivity.
  - repeat constructor; vm_compute; discriminate.
  - repeat constructor; simpl; tauto.
  - simpl; tauto.
  - apply H; [simpl; tauto|lia].
Defined.

(** ** The search gives a walk of least cost *)

Section Shortest.

Local Abbreviation Node := (Node.t Q).
Local Abbreviation Edge := (Edge.t Q).

Lemma find_node_names (N N' : list Node) (nm : string) (i : nat) :
  names N' = names N -> find_node i N' nm = find_node i N nm.
Proof.
  unfold names. revert N i; induction N' as [|a N' IH]; intros [|b N] i Hn;
    simpl in *; try discriminate; auto.
  injection Hn as -> Hn. destruct (String.eqb (Node.name b) nm); auto.
Qed.

Lemma edge_at_nth_error (E : list Edge) (i : nat) :
  i < List.length E -> nth_error E i = Some (edge_at E i).
Proof. intros H. unfold edge_at. now apply nth_error_nth'. Qed.

Lemma nth_error_edge_at (E : list Edge) (i : nat) (edge : Edge) :
  nth_error E i = Some edge -> i < List.length E /\ edge_at E i = edge.
Proof.
  intros H. split.
  - apply nth_error_Some. congruence.
  - unfold edge_at. now apply nth_error_nth.
Qed.

Lemma pickEdgesList_complete (u : Node) (E : list Edge) (i : nat) :
  i < List.length E -> Edge.start (edge_at E i) = Node.name u ->
  In (i, edge_at E i) (pickEdgesList u E).
Proof.
  intros Hi Hs. unfold pickEdgesList, enumerate. apply filter_In. split.
  - unfold edge_at. clear Hs.
    assert (H : forall i0, In (i0 + i, nth i E no_edge)
                              (combine (seq i0 (List.length E)) E)).
    { revert i Hi. induction E as [|e E IH]; intros i Hi i0; simpl in *; [lia|].
      destruct i as [|i].
      - left. f_equal. lia.
      - right. replace (i0 + S i) with (S i0 + i) by lia. apply IH. lia. }
    apply (H 0).
  - simpl. rewrite Hs. apply String.eqb_refl.
Qed.

Lemma set_label_dist_le (N : list Node) (j u k : nat) (d : Q) :
  (d < Node.dist (node_at N j))%Q ->
  (Node.dist (node_at (set_label N j d u) k) <= Node.dist (node_at N k))%Q.
Proof.
  intros Hlt. rewrite node_at_set_label.
  destruct (Nat.eqb j k && (k <? List.length N)) eqn:Hc.
  - apply andb_true_iff in Hc. destruct Hc as [Hc _].
    apply Nat.eqb_eq in Hc. subst k. cbn [Node.dist]. lra.
  - apply Qle_refl.
Qed.

(** What one pass of the [for edge in uv] loop does. *)
Lemma relax_step (u : nat) (ign : list nat) (i : nat) (edge : Edge)
      (uv : list (nat * Edge)) (N N' : list Node) (n : option nat) :
  relax N u ign ((i, edge) :: uv) n = Ok N' ->
  existsb (Nat.eqb i) ign = false ->
  exists j,
    (find_node 0 N (Edge.end_ edge) = Some j \/
     (find_node 0 N (Edge.end_ edge) = None /\ n = Some j)) /\
    relax (if Qltb (Node.dist (node_at N u) + Edge.cost edge)
                   (Node.dist (node_at N j))
           then set_label N j (Node.dist (node_at N u) + Edge.cost edge)%Q u
           else N) u ign uv (Some j) = Ok N'.
Proof.
  intros H Hign. cbn [relax] in H. rewrite Hign in H.
  destruct (find_node 0 N (Edge.end_ edge)) as [j|] eqn:Hf.
  - exists j. split; auto.
  - destruct n as [j|]; [|discriminate]. exists j. split; auto.
Qed.

Lemma relax_decreases (u : nat) (ign : list nat) (uv : list (nat * Edge))
      (N N' : list Node) (n : option nat) :
  relax N u ign uv n = Ok N' ->
  forall k, (Node.dist (node_at N' k) <= Node.dist (node_at N k))%Q.
Proof.
  revert N n; induction uv as [|[i edge] uv IH]; intros N n H k.
  - cbn [relax] in H. injection H as <-. apply Qle_refl.
  - destruct (existsb (Nat.eqb i) ign) eqn:Hign.
    + cbn [relax] in H. rewrite Hign in H. now apply (IH _ _ H).
    + destruct (relax_step _ _ _ _ _ _ _ _ H Hign) as (j & _ & Hr).
      specialize (IH _ _ Hr k).
      destruct (Qltb _ _) eqn:Hlt; auto.
      apply Qltb_true in Hlt.
      eapply Qle_trans; [exact IH|]. now apply set_label_dist_le.
Qed.

Lemma relax_keeps_u (u : nat) (ign : list nat) (uv : list (nat * Edge))
      (N N' : list Node) (n : option nat) :
  (forall i edge, In (i, edge) uv -> (0 <= Edge.cost edge)%Q) ->
  relax N u ign uv n = Ok N' ->
  Node.dist (node_at N' u) = Node.dist (node_at N u).
Proof.
  revert N n; induction uv as [|[i edge] uv IH]; intros N n Hc H.
  - cbn [relax] in H. now injection H as <-.
  - assert (Hc' : forall i edge, In (i, edge) uv -> (0 <= Edge.cost edge)%Q).
    { intros i' e' Hin. apply (Hc i' e'). now right. }
    destruct (existsb (Nat.eqb i) ign) eqn:Hign.
    + cbn [relax] in H. rewrite Hign in H. now apply (IH _ _ Hc' H).
    + destruct (relax_step _ _ _ _ _ _ _ _ H Hign) as (j & _ & Hr).
      rewrite (IH _ _ Hc' Hr).
      destruct (Qltb _ _) eqn:Hlt; auto.
      apply Qltb_true in Hlt.
      assert (Hju : u <> j).
      { intros ->. specialize (Hc i edge (or_introl eq_refl)). lra. }
      now rewrite set_label_other.
Qed.

Lemma relax_relaxes (u : nat) (ign : list nat) (uv : list (nat * Edge))
      (N N' : list Node) (n : option nat) :
  (forall i edge, In (i, edge) uv -> (0 <= Edge.cost edge)%Q) ->
  relax N u ign uv n = Ok N' ->
  forall i edge j,
    In (i, edge) uv -> existsb (Nat.eqb i) ign = false ->
    find_node 0 N (Edge.end_ edge) = Some j ->
    (Node.dist (node_at N' j) <= Node.dist (node_at N' u) + Edge.cost edge)%Q.
Proof.
  revert N n; induction uv as [|[i0 e0] uv IH]; intros N n Hc H i edge j Hin Hi Hj.
  - destruct Hin.
  - assert (Hc' : forall i edge, In (i, edge) uv -> (0 <= Edge.cost edge)%Q).
    { intros i' e' Hin'. apply (Hc i' e'). now right. }
    destruct (existsb (Nat.eqb i0) ign) eqn:Hign.
    + cbn [relax] in H. rewrite Hign in H.
      destruct Hin as [Heq|Hin]; [injection Heq as -> ->; congruence|].
      now apply (IH _ _ Hc' H i edge j).
    + destruct (relax_step _ _ _ _ _ _ _ _ H Hign) as (j0 & Hj0 & Hr).
      set (d := (Node.dist (node_at N u) + Edge.cost e0)%Q) in *.
      set (N1 := if Qltb d (Node.dist (node_at N j0))
                 then set_label N j0 d u else N) in *.
      assert (Hn1 : names N1 = names N).
      { unfold N1. destruct (Qltb _ _); auto. apply set_label_names. }
      destruct Hin as [Heq|Hin].
      * injection Heq as -> ->.
        destruct Hj0 as [Hj0|[Hj0 _]]; [|congruence].
        rewrite Hj in Hj0. injection Hj0 as <-.
        pose proof (relax_decreases _ _ _ _ _ _ Hr j) as Hdec.
        rewrite (relax_keeps_u _ _ _ _ _ _ Hc' Hr).
        eapply Qle_trans; [exact Hdec|].
        specialize (Hc i edge (or_introl eq_refl)).
        unfold N1. destruct (Qltb d (Node.dist (node_at N j))) eqn:Hlt.
        -- apply Qltb_true in Hlt.
           assert (Hju : u <> j) by (intros ->; unfold d in Hlt; lra).
           rewrite (set_label_other N j u u d Hju).
           assert (Hjl : j < List.length N).
           { apply find_node_at in Hj. destruct Hj as (k & -> & Hk & _). exact Hk. }
           rewrite (set_label_same N j u d Hjl). cbn [Node.dist]. apply Qle_refl.
        -- apply Qltb_false in Hlt. exact Hlt.
      * apply (IH _ _ Hc' Hr i edge j); auto.
        now rewrite (find_node_names N N1).
Qed.

Variable o : string.
Variable E : list Edge.
Variable ign : list nat.

Hypothesis costs_nonneg : Forall (fun e : Edge => (0 <= Edge.cost e)%Q) E.

Lemma cost_nonneg (i : nat) : (0 <= Edge.cost (edge_at E i))%Q.
Proof.
  unfold edge_at. destruct (Nat.lt_ge_cases i (List.length E)) as [Hi|Hi].
  - rewrite Forall_forall in costs_nonneg. apply costs_nonneg. now apply nth_In.
  - rewrite nth_overflow by auto. apply Qle_refl.
Qed.

Lemma label_keeps_exact (rank : nat -> nat) (u j i : nat) (N : list Node) :
  labels_ordered o rank N -> relaxing u N ->
  j < List.length N -> i < List.length E ->
  existsb (Nat.eqb i) ign = false ->
  Edge.start (edge_at E i) = Node.name (node_at N u) ->
  Edge.end_ (edge_at E i) = Node.name (node_at N j) ->
  (Node.dist (node_at N u) + Edge.cost (edge_at E i)
   < Node.dist (node_at N j))%Q ->
  labels_exact E ign N -> relaxed_but (Some u) E ign N ->
  labels_exact E ign
    (set_label N j (Node.dist (node_at N u) + Edge.cost (edge_at E i))%Q u) /\
  relaxed_but (Some u) E ign
    (set_label N j (Node.dist (node_at N u) + Edge.cost (edge_at E i))%Q u).
Proof.
  intros (S1 & S2 & _) (Hu & Hfu & HG & _) Hj Hi Hign Hs He Hlt HX HR.
  pose proof (cost_nonneg i) as Hc.
  set (d := (Node.dist (node_at N u) + Edge.cost (edge_at E i))%Q) in *.
  set (N2 := set_label N j d u).
  assert (Hfj : Node.flag (node_at N j) = 0).
  { destruct (S1 j Hj) as [H0|H1]; auto.
    specialize (HG j Hj H1). unfold d in Hlt. lra. }
  assert (Hju : j <> u) by (intros ->; congruence).
  assert (Hsame : node_at N2 j
                  = Node.mk (Node.name (node_at N j)) d (Some u)
                            (Node.flag (node_at N j)))
    by (apply set_label_same; auto).
  assert (Hother : forall k, k <> j -> node_at N2 k = node_at N k)
    by (intros k Hk; apply set_label_other; auto).
  assert (Hn2 : names N2 = names N) by apply set_label_names.
  assert (Hname : forall k, Node.name (node_at N2 k) = Node.name (node_at N k))
    by (intros k; now apply name_at_names).
  split.
  - intros k p Hp. destruct (Nat.eq_dec k j) as [->|Hk].
    + rewrite Hsame in Hp. cbn [Node.prev] in Hp. injection Hp as <-.
      exists i. rewrite !Hname, Hsame, (Hother u) by auto. cbn [Node.dist].
      repeat split; auto.
    + rewrite Hother in Hp by auto.
      destruct (HX k p Hp) as (i' & H1 & H2 & H3 & H4 & H5).
      destruct (S2 _ _ Hp) as (_ & Hfp & _).
      assert (Hpj : p <> j) by (intros ->; congruence).
      exists i'. rewrite !Hname, (Hother k), (Hother p) by auto.
      repeat split; auto.
  - intros v i' j' Hv Hfv Hvu Hi' Hign' Hs' Hfind.
    unfold N2 in Hv. rewrite set_label_length in Hv.
    assert (Hvj : v <> j).
    { intros ->. rewrite Hsame in Hfv. cbn [Node.flag] in Hfv. congruence. }
    rewrite Hother in Hfv by auto. rewrite Hname in Hs'.
    rewrite (find_node_names N N2) in Hfind by auto.
    rewrite (Hother v) by auto.
    eapply Qle_trans; [|exact (HR v i' j' Hv Hfv Hvu Hi' Hign' Hs' Hfind)].
    apply set_label_dist_le. exact Hlt.
Qed.

Lemma round_shortest (rank : nat -> nat) (N N0 : list Node) (u : nat) :
  closed E N0 -> names N = names N0 ->
  labels_ordered o rank N -> settled_first N ->
  labels_exact E ign N -> relaxed_but None E ign N ->
  pickSmallestNode N = Some u ->
  exists N' rank',
    round E ign N u = Ok N' /\
    labels_ordered o rank' N' /\ settled_first N' /\
    labels_exact E ign N' /\ relaxed_but None E ign N' /\
    names N' = names N0.
Proof.
  intros Hclosed Hn HO HF HX HR Hp.
  destruct (flag_starts_relaxing o rank N u HO HF Hp) as [HO1 HR1].
  apply pickSmallestNode_Some in Hp. destruct Hp as [Hu Hfu].
  set (rank' := fun i => if Nat.eqb i u then flagged_count N else rank i) in *.
  set (N1 := set_flag N u) in *.
  assert (Hn1 : names N1 = names N0).
  { unfold N1. now rewrite set_flag_names. }
  assert (Hat : forall k, Node.name (node_at N1 k) = Node.name (node_at N k) /\
                          Node.dist (node_at N1 k) = Node.dist (node_at N k) /\
                          Node.prev (node_at N1 k) = Node.prev (node_at N k)).
  { intros k. unfold N1. destruct (Nat.eq_dec k u) as [->|Hk].
    - now rewrite set_flag_same.
    - now rewrite set_flag_other. }
  assert (HX1 : labels_exact E ign N1).
  { intros k p Hk. destruct (Hat k) as (Hnk & Hdk & Hpk).
    destruct (Hat p) as (Hnp & Hdp & _). rewrite Hpk in Hk.
    destruct (HX k p Hk) as (i & H1 & H2 & H3 & H4 & H5).
    exists i. rewrite Hnk, Hnp, Hdk, Hdp. auto. }
  assert (HR1b : relaxed_but (Some u) E ign N1).
  { intros v i j Hv Hfv Hvu Hi Hign Hs Hfind.
    unfold N1 in Hv. rewrite set_flag_length in Hv.
    assert (Hvu' : v <> u) by congruence.
    unfold N1 in Hfv. rewrite set_flag_other in Hfv by auto.
    destruct (Hat v) as (Hnv & Hdv & _). destruct (Hat j) as (_ & Hdj & _).
    rewrite Hnv in Hs. rewrite Hdv, Hdj.
    rewrite (find_node_names N N1) in Hfind by congruence.
    apply (HR v i j); auto. discriminate. }
  unfold round. fold N1.
  destruct (relax_invariant
              (fun N2 => labels_ordered o rank' N2 /\ relaxing u N2 /\
                         labels_exact E ign N2 /\
                         relaxed_but (Some u) E ign N2)
              u ign (pickEdgesList (node_at N1 u) E) N1 None)
    as (N' & Hr & (HO' & HR' & HX' & HRb') & Hn'); auto.
  - intros i edge Hin. apply pickEdgesList_member in Hin.
    destruct Hin as [Hnth _]. apply nth_error_In in Hnth.
    rewrite Hn1. unfold closed in Hclosed. rewrite Forall_forall in Hclosed.
    now apply Hclosed.
  - intros N2 j i edge Hn2 (HO2 & HR2 & HX2 & HRb2) Hin Hign Hj Hlt.
    cbn [nltb nadd Q_Num] in *. apply Qltb_true in Hlt.
    apply pickEdgesList_member in Hin. destruct Hin as [Hnth Hs].
    apply nth_error_edge_at in Hnth. destruct Hnth as [Hi <-].
    apply find_node_at in Hj. destruct Hj as (k & -> & Hk & Hnm). simpl in *.
    rewrite <- (name_at_names N1 N2 u Hn2) in Hs.
    destruct (label_keeps_order o rank' u k (Edge.cost (edge_at E i)) N2
                                HO2 HR2 Hk (cost_nonneg i) Hlt) as [HO3 HR3].
    destruct (label_keeps_exact rank' u k i N2 HO2 HR2 Hk Hi Hign Hs
                                (eq_sym Hnm) Hlt HX2 HRb2) as [HX3 HRb3].
    auto.
  - exists N', rank'. split; [exact Hr|]. split; [exact HO'|].
    split; [now apply relaxing_settles with (u := u)|].
    split; [exact HX'|]. split; [|congruence].
    intros v i j Hv Hfv _ Hi Hign Hs Hfind.
    destruct (Nat.eq_dec v u) as [->|Hvu].
    + apply (relax_relaxes u ign (pickEdgesList (node_at N1 u) E) N1 N' None)
        with (i := i); auto.
      * intros i' e' Hin. apply pickEdgesList_member in Hin.
        destruct Hin as [Hnth _]. apply nth_error_edge_at in Hnth.
        destruct Hnth as [_ <-]. apply cost_nonneg.
      * apply pickEdgesList_complete; auto.
        now rewrite <- (name_at_names N1 N' u Hn').
      * now rewrite <- (find_node_names N1 N').
    + apply (HRb' v i j); auto. congruence.
Qed.

Lemma start_shortest (N : list Node) :
  labels_exact E ign (set_origin (resetGraph N) o) /\
  relaxed_but None E ign (set_origin (resetGraph N) o).
Proof.
  split.
  - intros j u Hp. exfalso.
    pose proof (Forall_node_at (fun node => Node.prev node = None) _ j
                               (start_no_prev N o) eq_refl) as Hn.
    simpl in Hn. congruence.
  - intros v i j Hv Hfv. exfalso.
    pose proof (start_flags N o) as Hf. rewrite Forall_forall in Hf.
    specialize (Hf (node_at (set_origin (resetGraph N) o) v)).
    unfold node_at in *. rewrite Hf in Hfv by now apply nth_In. discriminate.
Qed.

Lemma dijkstra_shortest (N : list Node) (d : string) :
  closed E N -> In d (names N) ->
  exists N' a rest rank dest,
    dijkstra N E o d ign = Ok (N', a :: rest) /\ names N' = names N /\
    labels_ordered o rank N' /\ labels_exact E ign N' /\
    relaxed_but None E ign N' /\
    Node.prev (node_at N' a) = None /\ links N' a rest /\
    last rest a = dest /\
    find_dest 0 (set_origin (resetGraph N) o) d None = Some dest /\
    dest < List.length N' /\ Node.name (node_at N' dest) = d /\
    (forall p, p < List.length N' -> Node.flag (node_at N' p) = 0 ->
               (Node.dist (node_at N' dest) <= Node.dist (node_at N' p))%Q).
Proof.
  intros Hclosed Hd. unfold dijkstra.
  set (N0 := set_origin (resetGraph N) o).
  assert (Hn0 : names N0 = names N) by apply start_names.
  destruct (find_dest_present N0 d 0 None) as (k & Hk & Hlt & Hname).
  { now rewrite Hn0. }
  simpl in Hk. rewrite Hk.
  set (Inv := fun N1 : list Node =>
                names N1 = names N /\ settled_first N1 /\
                labels_exact E ign N1 /\ relaxed_but None E ign N1 /\
                exists rank, labels_ordered o rank N1).
  assert (Hround : forall N1 u,
             Inv N1 -> pickSmallestNode N1 = Some u ->
             exists N1', round E ign N1 u = Ok N1' /\ Inv N1').
  { intros N1 u (Hn1 & HF1 & HX1 & HR1 & rank & HO1) Hp.
    destruct (round_shortest rank N1 N u Hclosed Hn1 HO1 HF1 HX1 HR1 Hp)
      as (N2 & rank2 & Hr2 & HO2 & HF2 & HX2 & HR2 & Hn2).
    exists N2. split; auto. split; auto. split; auto. split; auto.
    split; auto. now exists rank2. }
  assert (Hstart : Inv N0).
  { destruct (start_ordered o N) as [HO0 HF0].
    destruct (start_shortest N) as [HX0 HR0].
    split; auto. split; auto. split; auto. split; auto.
    now exists (fun _ => 0). }
  pose proof (dijkstra_loop_spec E ign (Some k) Inv) as Hloop.
  assert (Hkeep : forall N1 u N1', Inv N1 -> pickSmallestNode N1 = Some u ->
                                   round E ign N1 u = Ok N1' -> Inv N1').
  { intros N1 u N1' HI Hp Hr. destruct (Hround N1 u HI Hp) as (N2 & Hr2 & HI2).
    rewrite Hr in Hr2. injection Hr2 as <-. exact HI2. }
  specialize (Hloop Hkeep (List.length N0) N0 Hstart (unflagged_le_length N0)).
  destruct (dijkstra_loop (List.length N0) N0 E ign (Some k)
                          (pickSmallestNode N0)) as [N1|e|] eqn:Hrun.
  - destruct Hloop as ((Hn1 & HF1 & HX1 & HR1 & rank & HO1) & _ & Hend).
    cbn [bind].
    assert (Hlen : List.length N1 = List.length N0).
    { rewrite <- (length_map (@Node.name Q) N1), <- (length_map (@Node.name Q) N0).
      fold (names N1). fold (names N0). congruence. }
    assert (Hk1 : k < List.length N1) by lia.
    destruct (walk_back_total o rank N1 HO1 (List.length N1) k [] Hk1)
      as (P & HP).
    { intros Hf. destruct HO1 as (_ & _ & S3 & _).
      specialize (S3 k Hk1 Hf). unfold flagged_count in S3. lia. }
    { intros _. unfold flagged_count. lia. }
    rewrite HP. cbn [bind].
    destruct (walk_back_links N1 (List.length N1) k [] P I HP)
      as (Hpp & pre & Hpre).
    destruct P as [|a rest]; [contradiction|]. destruct Hpp as [Ha Hl].
    assert (Hlast : last rest a = k).
    { rewrite <- (last_cons_default _ rest a a), Hpre. clear.
      induction pre as [|y pre IH]; simpl; auto.
      destruct (pre ++ [k])%list eqn:He; auto. destruct pre; discriminate. }
    assert (Hnk : Node.name (node_at N1 k) = d).
    { rewrite (name_at_names N0 N1) by congruence. exact Hname. }
    exists N1, a, rest, rank, k.
    repeat (split; [solve [auto]|]).
    intros p Hp Hfp. destruct Hend as [Hend|Hend].
    + now apply (pick_is_least N1 k Hend).
    + apply pickSmallestNode_None, unflagged_none in Hend.
      rewrite Forall_forall in Hend. exfalso.
      apply (Hend (node_at N1 p)); auto. unfold node_at. now apply nth_In.
  - destruct Hloop as (N1 & u & HI & _ & Hp & Hr).
    destruct (Hround N1 u HI Hp) as (N2 & Hr2 & _). congruence.
  - contradiction.
Qed.

Lemma raw_cost_from (w : list nat) (c : Q) :
  (fold_left (fun c0 e => c0 + Edge.cost (edge_at E e)) w c
   == c + raw_cost E w)%Q.
Proof.
  unfold raw_cost. revert c; induction w as [|e w IH]; intros c; simpl.
  - change (inject_Z 0) with 0%Q. ring.
  - rewrite (IH (c + Edge.cost (edge_at E e))%Q),
            (IH (inject_Z 0 + Edge.cost (edge_at E e))%Q).
    change (inject_Z 0) with 0%Q. ring.
Qed.

Lemma raw_cost_cons (e : nat) (w : list nat) :
  (raw_cost E (e :: w) == Edge.cost (edge_at E e) + raw_cost E w)%Q.
Proof.
  unfold raw_cost at 1. simpl. rewrite raw_cost_from.
  change (inject_Z 0) with 0%Q. ring.
Qed.

Lemma raw_cost_nonneg (w : list nat) : (0 <= raw_cost E w)%Q.
Proof.
  induction w as [|e w IH].
  - apply Qle_refl.
  - rewrite raw_cost_cons. pose proof (cost_nonneg e). lra.
Qed.

Lemma labels_exact_on_edges (N : list Node) :
  labels_exact E ign N -> labels_on_edges E ign N.
Proof.
  intros HX j u Hp. destruct (HX j u Hp) as (i & Hi & Hign & Hs & He & _).
  exists i, (edge_at E i). split; [now apply edge_at_nth_error|auto].
Qed.

Lemma find_dest_find_node (N : list Node) (d : string) (k : nat) :
  NoDup (names N) -> In d (names N) ->
  find_dest 0 N d None = Some k -> find_node 0 N d = Some k.
Proof.
  intros Hnd Hin Hk.
  destruct (find_dest_present N d 0 None Hin) as (k1 & Hk1 & Hl1 & Hn1).
  destruct (find_node_found N d 0 Hin) as (j & Hj).
  destruct (find_node_at _ _ _ _ Hj) as (k2 & -> & Hl2 & Hn2).
  rewrite Hk in Hk1. injection Hk1 as ->. rewrite Hj. f_equal. simpl.
  rewrite NoDup_nth with (d := Node.name (@no_node Q _)) in Hnd.
  apply Hnd; unfold names; rewrite ?length_map; auto.
  rewrite !map_nth. congruence.
Qed.

Lemma walk_bound (rank : nat -> nat) (N : list Node) (dest : nat) :
  labels_ordered o rank N -> relaxed_but None E ign N -> closed E N ->
  (forall p, p < List.length N -> Node.flag (node_at N p) = 0 ->
             (Node.dist (node_at N dest) <= Node.dist (node_at N p))%Q) ->
  forall x w z,
    walk E ign x w z ->
    forall p, find_node 0 N x = Some p ->
              exists q, find_node 0 N z = Some q /\
                        ((Node.dist (node_at N dest)
                          <= Node.dist (node_at N p) + raw_cost E w)%Q \/
                         (Node.dist (node_at N q)
                          <= Node.dist (node_at N p) + raw_cost E w)%Q).
Proof.
  intros (S1 & _) HR Hclosed Hleast x w z Hw.
  induction Hw as [x|x z i w Hi Hign Hs Hw IH]; intros p Hp.
  - exists p. split; auto. right. unfold raw_cost. simpl.
    change (inject_Z 0) with 0%Q. lra.
  - destruct (find_node_found N (Edge.end_ (edge_at E i)) 0) as (p' & Hp').
    { unfold closed in Hclosed. rewrite Forall_forall in Hclosed.
      apply Hclosed. unfold edge_at. now apply nth_In. }
    destruct (IH p' Hp') as (q & Hq & Hcases). exists q. split; auto.
    pose proof (raw_cost_cons i w) as Hrc.
    pose proof (raw_cost_nonneg w) as Hw0.
    pose proof (cost_nonneg i) as Hc0.
    destruct (find_node_at _ _ _ _ Hp) as (k & -> & Hk & Hnm). simpl in *.
    destruct (S1 k Hk) as [Hf|Hf].
    + left. specialize (Hleast k Hk Hf). lra.
    + assert (Hrel : (Node.dist (node_at N p')
                      <= Node.dist (node_at N k) + Edge.cost (edge_at E i))%Q).
      { apply (HR k i p'); auto; [discriminate|]. now rewrite Hs. }
      destruct Hcases as [Hc|Hc]; [left|right]; lra.
Qed.

Lemma links_cost (N : list Node) (a : nat) (rest route : list nat) :
  labels_exact E ign N -> NoDup (map endpoints E) ->
  links N a rest -> follows N E a rest route ->
  walk E ign (Node.name (node_at N a)) route
       (Node.name (node_at N (last rest a))) /\
  (Node.dist (node_at N (last rest a))
   == Node.dist (node_at N a) + raw_cost E route)%Q.
Proof.
  intros HX Hnd. revert a route; induction rest as [|b rest IH];
    intros a route Hl Hf.
  - destruct route; [|contradiction]. split; [apply walk_stay|].
    unfold raw_cost. simpl. change (inject_Z 0) with 0%Q. ring.
  - destruct route as [|e route]; [contradiction|].
    destruct Hf as (He & Hs & Hend & Hf). destruct Hl as [Hp Hl].
    destruct (HX b a Hp) as (i & Hi & Hign & Hs' & He' & Hd).
    assert (Hie : i = e).
    { rewrite NoDup_nth with (d := endpoints (@no_edge Q _)) in Hnd.
      apply Hnd; rewrite ?length_map; auto.
      rewrite !map_nth. unfold endpoints. fold (edge_at E i) (edge_at E e).
      congruence. }
    subst i. destruct (IH b route Hl Hf) as [Hw Hsum].
    rewrite last_cons_default. split.
    + apply walk_step; auto. now rewrite Hend.
    + rewrite Hsum, Hd, raw_cost_cons. ring.
Qed.

(** X11: on costs that are not negative, with nodes of distinct names, no
    two edges between the same two nodes in the same direction, every edge
    ending at a node, and both ends of the pair among the nodes, [dijkstra]
    returns and [getPathAsEdges] turns its path into a route.  That route is
    a walk from the origin to the destination along edges that are not
    ignored, and no such walk costs less; or it is empty although the two
    nodes differ, and then every such walk costs 1000000 or more. *)
Theorem search_is_shortest (N : list Node) (d : string) :
  closed E N -> NoDup (names N) -> NoDup (map endpoints E) ->
  In o (names N) -> In d (names N) ->
  exists N' P route,
    dijkstra N E o d ign = Ok (N', P) /\
    getPathAsEdges N' P E = Ok route /\
    ((walk E ign o route d /\
      forall w, walk E ign o w d -> (raw_cost E route <= raw_cost E w)%Q) \/
     (route = [] /\ o <> d /\
      forall w, walk E ign o w d -> (INF <= raw_cost E w)%Q)).
Proof.
  intros Hclosed HndN HndE Ho Hd.
  destruct (dijkstra_shortest N d Hclosed Hd)
    as (N' & a & rest & rank & dest & Hrun & Hn & HO & HX & HR & Ha & Hl &
        Hlast & Hdest & Hdl & Hdn & Hleast).
  destruct (path_edges_follows E ign N' a rest (labels_exact_on_edges N' HX) Hl)
    as (route & Hroute & Hlen & Hf).
  exists N', (a :: rest), route. split; auto. split; auto.
  assert (Hbound : forall w, walk E ign o w d ->
                             (Node.dist (node_at N' dest) <= raw_cost E w)%Q).
  { intros w Hw.
    assert (Hcl : closed E N') by (unfold closed; now rewrite Hn).
    destruct (find_node_found N' o 0) as (p & Hp); [now rewrite Hn|].
    destruct (walk_bound rank N' dest HO HR Hcl Hleast o w d Hw p Hp)
      as (q & Hq & Hcases).
    assert (Hqd : q = dest).
    { rewrite (find_node_names (set_origin (resetGraph N) o) N') in Hq
        by (rewrite start_names; congruence).
      rewrite (find_dest_find_node _ d dest) in Hq.
      - congruence.
      - now rewrite start_names.
      - now rewrite start_names.
      - exact Hdest. }
    subst q.
    destruct (find_node_at _ _ _ _ Hp) as (k & -> & Hk & Hnm). simpl in *.
    destruct HO as (_ & _ & _ & _ & S6 & _).
    destruct (S6 k Hk Hnm) as [_ H0].
    destruct Hcases; lra. }
  destruct HO as (_ & S2 & _ & S5 & S6 & S7).
  destruct rest as [|b rest].
  - destruct route; [|discriminate]. simpl in Hlast. subst a.
    destruct (string_dec o d) as [<-|Hod].
    + left. split; [apply walk_stay|].
      intros w _. apply raw_cost_nonneg.
    + right. split; auto. split; auto. intros w Hw.
      rewrite <- (S7 dest Hdl Ha) by congruence. now apply Hbound.
  - left. destruct Hl as [Hb Hl'].
    destruct (S2 _ _ Hb) as (Hal & _ & Hdist & _).
    assert (Hao : Node.name (node_at N' a) = o).
    { destruct (string_dec (Node.name (node_at N' a)) o) as [|Hne]; auto.
      rewrite (S7 a Hal Ha Hne) in Hdist.
      exfalso. revert Hdist. apply Qlt_irrefl. }
    destruct (links_cost N' a (b :: rest) route HX HndE (conj Hb Hl') Hf)
      as [Hw Hsum].
    rewrite Hlast, Hao, Hdn in Hw. rewrite Hlast in Hsum. split; auto.
    intros w Hw'. specialize (Hbound w Hw').
    destruct (S6 a Hal Hao) as [_ H0]. destruct (S5 a Hal) as [H1 _]. lra.
Qed.

End Shortest.

(** X12: the route that an iteration notes as the best of a pair [o|d] is a
    walk of least cost from [o] to [d] on the costs the search is given,
    when these are not negative, the node names are distinct, no two edges
    join the same two nodes in the same direction, every edge ends at a
    node and [o] and [d] are nodes.  The only other outcome is the
    [IndexError] of [pathToStr] on an empty route, when [o] and [d] are the
    same node or every walk from [o] to [d] costs 1000000 or more. *)
Theorem best_route_is_least_cost
        (nms : list string) (E : list (Edge.t Q)) (od o d : string) :
  split bar od = [o; d] ->
  Forall (fun e : Edge.t Q => (0 <= Edge.cost e)%Q) E ->
  Forall (fun e : Edge.t Q => In (Edge.end_ e) nms) E ->
  NoDup nms -> NoDup (map endpoints E) ->
  In o nms -> In d nms ->
  (exists name e route,
      best_route nms E od = Ok (name, e :: route) /\
      walk E [] o (e :: route) d /\
      forall w, walk E [] o w d ->
                (raw_cost E (e :: route) <= raw_cost E w)%Q) \/
  (best_route nms E od = Raise IndexError /\
   (o = d \/ forall w, walk E [] o w d -> (INF <= raw_cost E w)%Q)).
Proof.
  intros Hsplit Hcost Hclosed HndN HndE Ho Hd.
  assert (Hn : names (map (@Node_init Q _) nms) = nms) by apply names_Node_init.
  destruct (search_is_shortest o E [] Hcost (map Node_init nms) d)
    as (N' & P & route & Hrun & Hroute & Hcases);
    try (unfold closed; rewrite Hn); auto.
  unfold best_route. rewrite Hsplit, Hrun. cbn [bind]. rewrite Hroute.
  cbn [bind]. destruct route as [|e route].
  - right. split; [reflexivity|].
    destruct Hcases as [[Hw _]|(_ & _ & Hall)]; [left|now right].
    now inversion Hw.
  - left. destruct Hcases as [[Hw Hall]|(Hnil & _)]; [|discriminate].
    cbn [pathToStr bind]. eexists _, e, route. split; [reflexivity|]. auto.
Qed.

Lemma search_is_shortest_witness :
  exists N' P route,
    dijkstra diamond_nodes diamond_edges "A" "D" [] = Ok (N', P) /\
    getPathAsEdges N' P diamond_edges = Ok route /\
    ((walk diamond_edges [] "A" route "D" /\
      forall w, walk diamond_edges [] "A" w "D" ->
                (raw_cost diamond_edges route <= raw_cost diamond_edges w)%Q) \/
     (route = [] /\ "A" <> "D" /\
      forall w, walk diamond_edges [] "A" w "D" ->
                (INF <= raw_cost diamond_edges w)%Q)).
Proof.
  apply (search_is_shortest "A" diamond_edges []).
  - repeat constructor; vm_compute; discriminate.
  - repeat constructor; simpl; tauto.
  - repeat (constructor; [simpl; intuition discriminate|]); constructor.
  - repeat (constructor; [simpl; intuition discriminate|]); constructor.
  - simpl; tauto.
  - simpl; tauto.
Defined.

Lemma best_route_is_least_cost_witness :
  (exists name e route,
      best_route ["A"; "B"; "C"; "D"] diamond_edges "A|D"
      = Ok (name, e :: route) /\
      walk diamond_edges [] "A" (e :: route) "D" /\
      forall w, walk diamond_edges [] "A" w "D" ->
                (raw_cost diamond_edges (e :: route)
                 <= raw_cost diamond_edges w)%Q) \/
  (best_route ["A"; "B"; "C"; "D"] diamond_edges "A|D" = Raise IndexError /\
   ("A" = "D" \/
    forall w, walk diamond_edges [] "A" w "D" ->
              (INF <= raw_cost diamond_edges w)%Q)).
Proof.
  apply (best_route_is_least_cost ["A"; "B"; "C"; "D"] diamond_edges "A|D").
  - reflexivity.
  - repeat constructor; vm_compute; discriminate.
  - repeat constructor; simpl; tauto.
  - repeat (constructor; [simpl; intuition discriminate|]); constructor.
  - repeat (constructor; [simpl; intuition discriminate|]); constructor.
  - simpl; tauto.
  - simpl; tauto.
Defined.

(** Two edges from A to B: the search labels B through the cheaper one, and
    [getPathAsEdges] gives the one listed first, which costs more than the
    walk through C. *)
Lemma first_listed_edge_is_taken :
  let E := [Edge_init "A" "B" (constant 5); Edge_init "A" "B" (constant 1);
            Edge_init "A" "C" (constant 1); Edge_init "C" "B" (constant 2)] in
  best_route ["A"; "B"; "C"] E "A|B" = Ok ("A-B", [0]) /\
  walk E [] "A" [2; 3] "B" /\
  (raw_cost E [2%nat; 3%nat] < raw_cost E [0%nat])%Q.
Proof.
  split; [vm_compute; reflexivity|]. split.
  - repeat (apply walk_step; [simpl; lia|reflexivity|reflexivity|]).
    apply walk_stay.
  - vm_compute. reflexivity.
Qed.

(** ** The length of a path *)

Section PathLengths.

Context {F : Type} `{NumF : Num F}.

Local Abbreviation Node := (Node.t F).
Local Abbreviation Edge := (Edge.t F).

Lemma joining_nodes (N : list Node) (E : list Edge) (i p n : nat) :
  exists es, joining N i E (a_node p) (a_node n) = Ok es /\
             hd_error es
             = find_edge i E (Node.name (node_at N p)) (Node.name (node_at N n)).
Proof.
  revert i; induction E as [|edge E IH]; intros i; cbn [joining find_edge].
  - now exists [].
  - destruct (IH (S i)) as (es & Hes & Hhd).
    cbn [item_name bind]. 
    destruct (String.eqb (Edge.start edge) (Node.name (node_at N p))) eqn:Hs;
      cbn [bind andb]; rewrite Hes; cbn [bind].
    + destruct (String.eqb (Edge.end_ edge) (Node.name (node_at N n)));
        eexists; split; eauto.
    + eexists; split; eauto.
Qed.

Lemma path_length_nodes (N : list Node) (E : list Edge)
      (prev : option nat) (P : list nat) (acc : F) :
  path_length N E (option_map a_node prev) (map a_node P) acc
  = route <- path_edges N E prev P;;
    Ok (fold_left (fun c e => nadd c (Edge.cost (edge_at E e))) route acc).
Proof.
  revert prev acc; induction P as [|n P IH]; intros prev acc;
    cbn [map path_length path_edges].
  - reflexivity.
  - destruct prev as [p|]; cbn [option_map].
    + destruct (joining_nodes N E 0 p n) as (es & Hes & Hhd).
      rewrite Hes. cbn [bind]. rewrite <- Hhd.
      destruct es as [|e es]; cbn [hd_error]; [reflexivity|].
      rewrite (IH (Some n)).
      destruct (path_edges N E (Some n) P); reflexivity.
    + apply (IH (Some n)).
Qed.

(** X13: on a list of nodes that is not empty [calcPathLength] takes the
    edges that [getPathAsEdges] takes: it fails where that fails, with
    [IndexError] for two nodes in a row that no edge joins, and otherwise
    gives the costs of that route added up; and [printPath] prints that
    length with the names of the nodes. *)
Theorem path_length_is_route_cost (N : list Node) (E : list Edge) (P : list nat) :
  P <> [] ->
  calcPathLength (node_path P) N E
  = (route <- getPathAsEdges N P E;; Ok (added_cost E route)) /\
  printPath (node_path P) N E
  = (route <- getPathAsEdges N P E;;
     Ok (added_cost E route,
         join_names (map (fun i => Node.name (node_at N i)) P))).
Proof.
  intros HP. destruct P as [|n P]; [contradiction|].
  assert (Hc : calcPathLength (node_path (n :: P)) N E
               = (route <- getPathAsEdges N (n :: P) E;;
                  Ok (added_cost E route))).
  { unfold calcPathLength, getPathAsEdges, added_cost.
    apply (path_length_nodes N E None (n :: P)). }
  split; [exact Hc|].
  unfold printPath. rewrite Hc.
  destruct (getPathAsEdges N (n :: P) E); reflexivity.
Qed.

Lemma generators_fail (N : list Node) (edge : Edge) (E : list Edge)
      (P : list item) (acc : F) :
  path_length N (edge :: E) (Some a_generator) (a_generator :: P) acc
  = Raise (AttributeError "name").
Proof. reflexivity. Qed.

(** X14: [calcPathLength] gives no length for a list of edges, and
    [printPath] prints nothing for one.  [getPathAsNodes] turns the edges
    into generator objects, and the loop reads the name of the first of
    them as soon as there is an edge to compare with: [AttributeError] when
    the network has an edge, [IndexError] when it has none or the list is
    empty. *)
Theorem no_length_for_edges (N : list Node) (E : list Edge) (P : list nat) :
  calcPathLength (edge_path P) N E
  = Raise (match P, E with
           | _ :: _, _ :: _ => AttributeError "name"
           | _, _ => IndexError
           end) /\
  is_ok (printPath (edge_path P) N E) = false.
Proof.
  assert (Hc : calcPathLength (edge_path P) N E
               = Raise (match P, E with
                        | _ :: _, _ :: _ => AttributeError "name"
                        | _, _ => IndexError
                        end)).
  { destruct P as [|e P]; [reflexivity|]. destruct E as [|edge E]; reflexivity. }
  split; [exact Hc|]. unfold printPath. now rewrite Hc.
Qed.

(** X15: [run] gives a result only when the node list, the edge list and
    the demand are all non-empty and [output] is set; the result is then
    what [run_MSA] gives, the nodes and edges being those it has written
    to.  With an empty list or an empty demand it raises the [NameError]
    of the unbound [UE], and without [output] it gives no result. *)
Theorem run_needs_inputs_and_output
        (its : nat) (N : list Node) (E : list Edge) (OD : dict F)
        (output : bool) :
  (N = [] \/ E = [] \/ OD = [] -> run its N E OD output = Raise (NameError "UE")) /\
  (output = false -> is_ok (run its N E OD output) = false) /\
  (forall r, run its N E OD output = Ok r ->
             N <> [] /\ E <> [] /\ OD <> [] /\ output = true /\
             exists rep st,
               run_MSA its N E OD output = Ok (snd (fst r), rep, st) /\
               r = (nodes st, edges st, OD, snd (fst r), table st)).
Proof.
  assert (Hout : output = false -> is_ok (run_MSA its N E OD output) = false).
  { intros ->. unfold run_MSA.
    destruct (msa_loop OD its _) as [st| |]; cbn [bind is_ok]; auto.
    destruct (evaluate_assignment OD (table st) (edges st) false)
      as [r| |] eqn:Hr; cbn [bind is_ok]; auto.
    pose proof (evaluate_without_output OD (table st) (edges st)) as Hno.
    rewrite Hr in Hno. discriminate. }
  split; [|split].
  - intros [->|[->| ->]]; [reflexivity|now destruct N|now destruct N, E].
  - intros Ho. specialize (Hout Ho). unfold run.
    destruct N, E, OD; auto.
    destruct (run_MSA _ _ _ _ _) as [[[UE rep] st]| |]; auto.
  - intros r Hr. unfold run in Hr.
    destruct N as [|n N], E as [|e E], OD as [|od OD]; try discriminate.
    destruct (run_MSA its (n :: N) (e :: E) (od :: OD) output)
      as [[[UE rep] st]| |] eqn:Hrun; try discriminate.
    cbn [bind] in Hr. injection Hr as <-.
    repeat (split; [discriminate|]). split.
    + destruct output; auto. specialize (Hout eq_refl). discriminate.
    + now exists rep, st.
Qed.

End PathLengths.

Lemma path_length_is_route_cost_witness :
  calcPathLength (node_path [0; 1; 3]) diamond_nodes diamond_edges
  = (route <- getPathAsEdges diamond_nodes [0; 1; 3] diamond_edges;;
     Ok (added_cost diamond_edges route)) /\
  printPath (node_path [0; 1; 3]) diamond_nodes diamond_edges
  = (route <- getPathAsEdges diamond_nodes [0; 1; 3] diamond_edges;;
     Ok (added_cost diamond_edges route,
         join_names (map (fun i => Node.name (node_at diamond_nodes i))
                         [0; 1; 3]))).
Proof.
  apply (path_length_is_route_cost diamond_nodes diamond_edges [0; 1; 3]).
  discriminate.
Defined.

Lemma run_needs_inputs_and_output_witness :
  run 3 diamond_nodes diamond_edges [] true = Raise (NameError "UE") /\
  is_ok (run 3 diamond_nodes diamond_edges diamond_demand false) = false.
Proof.
  split.
  - apply (run_needs_inputs_and_output 3 diamond_nodes diamond_edges [] true).
    right. right. reflexivity.
  - apply (run_needs_inputs_and_output
             3 diamond_nodes diamond_edges diamond_demand false).
    reflexivity.
Defined.

(** ** The measures of the evaluation *)

Section Measures.

Local Abbreviation Node := (Node.t Q).
Local Abbreviation Edge := (Edge.t Q).

Variable E : list Edge.

Lemma Qsum_nonneg (l : list Q) :
  Forall (fun x => (0 <= x)%Q) l -> (0 <= Qsum l)%Q.
Proof.
  unfold Qsum. induction 1 as [|x l Hx _ IH]; simpl; [apply Qle_refl|lra].
Qed.

Lemma fold_Qplus_nonneg (l : list Q) (c : Q) :
  Forall (fun x => (0 <= x)%Q) l -> (0 <= c)%Q ->
  (0 <= fold_left Qplus l c)%Q.
Proof.
  intros Hl. revert c; induction Hl as [|x l Hx _ IH]; intros c Hc; simpl; auto.
  apply IH. lra.
Qed.

Lemma eval_routes_min (od : string) (routes : routes_flow) (s s' : Q)
      (mc mc' : option Q) (aux aux' : list (string * string * Q * Q)) (m : Q) :
  eval_routes E od routes (s, mc, aux) = Ok (s', mc', aux') ->
  mc' = Some m ->
  (forall m0, mc = Some m0 -> (m <= m0)%Q) /\
  Forall (fun y => (m <= rounded_cost E (fst (snd y)))%Q) routes.
Proof.
  revert s mc aux; induction routes as [|[r [route flow]] routes IH];
    intros s mc aux H Hm.
  - cbn [eval_routes] in H. injection H as _ -> _. split; auto.
    intros m0 Hm0. rewrite Hm in Hm0. injection Hm0 as ->. apply Qle_refl.
  - cbn [eval_routes] in H.
    destruct (route_edges_cost_spec E route flow (inject_Z 0) s) as [H1 _].
    change (@nof_Z Q Q_Num 0) with (inject_Z 0) in *.
    destruct (route_edges_cost E route flow (inject_Z 0, s)) as [cost0 s1].
    simpl in H1. unfold round2 in H. cbn [nround Q_Num bind] in H.
    apply IH in H; auto. destruct H as [Hlow Hall].
    assert (Hc : (ndiv (nof_Z (Qround_even (nmul cost0 (nof_Z 100)))) (nof_Z 100))
                 = rounded_cost E route).
    { unfold rounded_cost, raw_cost. rewrite <- H1. reflexivity. }
    rewrite Hc in Hlow.
    unfold lower_min in Hlow. split.
    + intros m0 ->. cbn [nltb Q_Num] in Hlow.
      destruct (Qltb (rounded_cost E route) m0) eqn:Hlt.
      * apply Qltb_true in Hlt. specialize (Hlow _ eq_refl). lra.
      * now apply Hlow.
    + constructor; auto. cbn [fst snd].
      destruct mc as [m0|]; [|now apply Hlow].
      cbn [nltb Q_Num] in Hlow.
      destruct (Qltb (rounded_cost E route) m0) eqn:Hlt.
      * now apply Hlow.
      * apply Qltb_false in Hlt. specialize (Hlow _ eq_refl). lra.
Qed.

Lemma eval_aux_bounds (m : Q) (od : string) (routes : routes_flow)
      (dev top : Q) (rs : list row) :
  Forall (fun y => (0 <= snd (snd y))%Q) routes ->
  Forall (fun y => (m <= rounded_cost E (fst (snd y)))%Q) routes ->
  (dev <= fst (fst (eval_aux m (route_rows E od routes) (dev, top, rs))))%Q /\
  (fst (fst (eval_aux m (route_rows E od routes) (dev, top, rs)))
   <= dev + pair_flow routes)%Q /\
  (top <= snd (fst (eval_aux m (route_rows E od routes) (dev, top, rs))))%Q.
Proof.
  unfold eval_aux, pair_flow, Qsum.
  intros Hf Hm. revert dev top rs.
  induction routes as [|[r [route flow]] routes IH]; intros dev top rs.
  - simpl. repeat split; lra.
  - inversion Hf as [|? ? Hf1 Hf2]. inversion Hm as [|? ? Hm1 Hm2]. subst.
    cbn [fst snd] in Hf1, Hm1.
    cbn [route_rows map fold_left fold_right fst snd].
    cbn [nltb nadd nmul nsub nof_Z Q_Num].
    change (inject_Z 0) with 0%Q.
    assert (H0 : (0 <= flow * (rounded_cost E route - m))%Q).
    { apply Qmult_le_0_compat; lra. }
    destruct (Qltb m (rounded_cost E route)); cbn [fst];
      match goal with
      | |- context [fold_left ?f ?l (?d, ?t, ?r)] =>
          assert (HI : (d <= fst (fst (fold_left f l (d, t, r))))%Q /\
                       (fst (fst (fold_left f l (d, t, r)))
                        <= d + fold_right Qplus 0
                                 (map (fun y : string * (list nat * Q) =>
                                         snd (snd y)) routes))%Q /\
                       (t <= snd (fst (fold_left f l (d, t, r))))%Q)
            by exact (IH Hf2 Hm2 d t r);
          destruct HI as (I1 & I2 & I3)
      end; repeat split; lra.
Qed.

Lemma eval_ods_bounds (OD : dict Q) (tbl : od_table) (t t' : totals)
      (rs rs' : list row) :
  table_nonneg tbl ->
  eval_ods OD E tbl (t, rs) = Ok (t', rs') ->
  (sum_deviations t <= sum_deviations t')%Q /\
  (sum_deviations t'
   <= sum_deviations t + Qsum (map (fun x => pair_flow (snd x)) tbl))%Q /\
  (delta_top t <= delta_top t')%Q.
Proof.
  intros Hnn. revert t rs; induction Hnn as [|[od routes] tbl Hr _ IH];
    intros t rs H.
  - cbn [eval_ods] in H. injection H as <- _. simpl. repeat split; lra.
  - cbn [eval_ods] in H. cbn [snd] in Hr.
    destruct (eval_routes_spec E od routes (sum_tt t) None [])
      as (s1 & mc1 & He & _ & Hn).
    rewrite He in H. cbn [bind app] in H.
    assert (Hacc : forall dev top rs1,
               match mc1 with
               | Some m =>
                   eval_aux m (route_rows E od routes)
                            (sum_deviations t, delta_top t, rs)
               | None => (sum_deviations t, delta_top t, rs)
               end = (dev, top, rs1) ->
               (sum_deviations t <= dev)%Q /\
               (dev <= sum_deviations t + pair_flow routes)%Q /\
               (delta_top t <= top)%Q).
    { intros dev top rs1 Ha. destruct mc1 as [m|].
      - destruct (eval_routes_min od routes _ _ _ _ _ _ m He eq_refl)
          as [_ Hmin].
        destruct (eval_aux_bounds m od routes (sum_deviations t) (delta_top t)
                                  rs Hr Hmin) as (B1 & B2 & B3).
        rewrite Ha in B1, B2, B3. simpl in *. auto.
      - injection Ha as <- <- _. destruct (Hn eq_refl) as [_ ->].
        unfold pair_flow. simpl. repeat split; lra. }
    destruct (match mc1 with
              | Some m => _
              | None => _
              end) as [[dev top] rs1].
    destruct (Hacc dev top rs1 eq_refl) as (A1 & A2 & A3).
    destruct (dict_item OD od) as [demand| |]; cbn [bind] in H;
      try discriminate.
    destruct (IH _ _ H) as (I1 & I2 & I3). cbn [sum_deviations delta_top] in *.
    cbn [map snd]. unfold Qsum in *. cbn [fold_right].
    repeat split; lra.
Qed.

Lemma fold_Qplus_Qsum (l : list Q) (c : Q) :
  (fold_left Qplus l c == c + Qsum l)%Q.
Proof.
  unfold Qsum. revert c; induction l as [|x l IH]; intros c; simpl; [ring|].
  rewrite IH. ring.
Qed.

Lemma Qtrunc_nonneg (q : Q) :
  (0 <= q)%Q -> (0 <= Qtrunc q)%Z /\ (inject_Z (Qtrunc q) <= q)%Q.
Proof.
  intros Hq. destruct q as [n d]. unfold Qtrunc. cbn [Qnum Qden].
  assert (Hn : (0 <= n)%Z).
  { unfold Qle in Hq. simpl in Hq. lia. }
  rewrite Z.quot_div_nonneg by lia. split.
  - apply Z.div_pos; lia.
  - apply (Qfloor_le (n # d)).
Qed.

Lemma evaluate_in_range (OD : dict Q) (tbl : od_table) :
  NoDup (keys OD) -> keys tbl = keys OD ->
  ~ (total_demand OD == 0)%Q ->
  Forall (fun x => (0 <= snd x)%Q) OD ->
  table_nonneg tbl ->
  Forall (fun e : Edge => (0 <= Edge.cost e)%Q) E ->
  (0 < total_demand OD)%Q /\
  exists UE rep,
    evaluate_assignment OD tbl E true = Ok (UE, rep) /\
    (0 <= UE)%Q /\ average_travel_time rep = UE /\
    (0 <= deviations rep)%Z /\
    (inject_Z (deviations rep)
     <= Qsum (map (fun x => pair_flow (snd x)) tbl))%Q /\
    (0 <= AEC rep)%Q.
Proof.
  intros Hnd Hk Hnz Hdem Hnn Hcost.
  destruct (evaluate_assignment_unfolds OD tbl E Hnd Hk Hnz)
    as (t & rs & He & Hs & _ & Heval).
  destruct (eval_ods_spec E OD tbl
              (mkTotals (inject_Z 0) (inject_Z 0) (inject_Z 0) (inject_Z 0)) [])
    as (t2 & rs2 & He2 & _ & _ & Hb).
  { rewrite Hk. apply incl_refl. }
  rewrite He in He2. injection He2 as <- <-.
  destruct (eval_ods_bounds OD tbl _ t [] rs Hnn He) as (B1 & B2 & B3).
  cbn [sum_deviations delta_top delta_bottom] in *.
  change (inject_Z 0) with 0%Q in *.
  assert (Htot : (0 < total_demand OD)%Q).
  { assert (H0 : (0 <= total_demand OD)%Q).
    { unfold total_demand. apply fold_Qplus_nonneg; [|apply Qle_refl].
      apply Forall_map. exact Hdem. }
    destruct (Qlt_le_dec 0 (total_demand OD)) as [|Hle]; auto.
    exfalso. apply Hnz. lra. }
  assert (Hbot : delta_bottom t = total_demand OD).
  { rewrite Hb, Hk, demands_of_keys by auto. reflexivity. }
  assert (Htime : (0 <= system_time E tbl)%Q).
  { unfold system_time. apply Qsum_nonneg. apply Forall_map.
    apply Forall_forall. intros [r [route flow]] Hin.
    unfold route_time. cbn [fst snd].
    apply Qmult_le_0_compat; [|now apply raw_cost_nonneg].
    apply in_flat_map in Hin. destruct Hin as ([od routes] & Hin1 & Hin2).
    unfold table_nonneg in Hnn. rewrite Forall_forall in Hnn.
    specialize (Hnn _ Hin1). rewrite Forall_forall in Hnn.
    apply (Hnn _ Hin2). }
  split; [exact Htot|].
  destruct (Qtrunc_nonneg (sum_deviations t)) as [Hd0 Hd1]; [lra|].
  eexists _, _. split; [exact Heval|]. cbn [average_travel_time deviations AEC].
  split; [|split; [reflexivity|split; [exact Hd0|split; [lra|]]]].
  - apply Qle_shift_div_l; auto. lra.
  - rewrite Hbot. apply Qle_shift_div_l; auto. lra.
Qed.

End Measures.

Lemma msa_loop_pair_flow (OD : dict Q) (N : list (Node.t Q))
      (E : list (Edge.t Q)) (its : nat) (st : state) :
  NoDup (keys OD) ->
  msa_loop OD its (mkState N E (init_table OD)) = Ok st ->
  (table_nonneg (table st) /\ route_keys_distinct (table st)) /\
  (0 < its ->
   forall od D,
     dict_get OD od = Some D -> (0 <= D)%Q ->
     exists routes,
       dict_get (table st) od = Some routes /\ (pair_flow routes == D)%Q).
Proof.
  intros Hnd. revert st; induction its as [|k IH]; intros st1 H1.
  - injection H1 as <-. cbn [table]. split; [|lia].
    split; [apply init_table_nonneg|apply init_table_distinct].
  - cbn [msa_loop] in H1. bind_inv H1.
    destruct (IH _ Ha) as [Hinv Hsum].
    destruct (msa_iteration_pair_flow OD (S k) a st1 Hnd ltac:(lia) Hinv H1)
      as [Hinv' Hstep].
    split; [exact Hinv'|]. intros _ od D Hd HD.
    destruct (Hstep od D Hd HD) as (routes & routes' & Hr & Hr' & Hs).
    exists routes'. split; [exact Hr'|]. rewrite Hs.
    destruct k as [|k].
    + change (inject_Z (Z.of_nat 1)) with 1%Q. change (inject_Z 1) with 1%Q.
      field.
    + destruct (Hsum ltac:(lia) od D Hd HD) as (routes0 & Hr0 & Hs0).
      rewrite Hr in Hr0. injection Hr0 as <-. rewrite Hs0.
      change (inject_Z 1) with 1%Q. field.
      unfold Qeq, inject_Z. simpl. lia.
Qed.

Lemma table_flow_is_demand (OD : dict Q) (tbl : @od_table Q) :
  keys tbl = keys OD ->
  (forall od routes D,
      In (od, routes) tbl -> In (od, D) OD -> (pair_flow routes == D)%Q) ->
  (Qsum (map (fun x => pair_flow (snd x)) tbl) == Qsum (map snd OD))%Q.
Proof.
  unfold keys, Qsum.
  revert OD; induction tbl as [|[od routes] tbl IH]; intros [|[od' D] OD] Hk Hall;
    simpl in *; try discriminate; [reflexivity|].
  injection Hk as -> Hk.
  rewrite (Hall od' routes D) by auto.
  rewrite (IH OD Hk); [reflexivity|].
  intros od0 r0 D0 H1 H2. apply (Hall od0); auto.
Qed.

Lemma functions_of_topology (E E' : list (Edge.t Q)) (Pf : (Q -> Q) -> Prop) :
  map topology E' = map topology E ->
  Forall (fun e => Pf (Edge.function e)) E ->
  Forall (fun e => Pf (Edge.function e)) E'.
Proof.
  revert E'; induction E as [|e E IH]; intros [|e' E'] Hm HE; simpl in *;
    try discriminate; auto.
  injection Hm as Hn Hs He Hf Hm. inversion HE; subst.
  constructor; [congruence|auto].
Qed.

(** X16: the measures that the evaluation reports are in range.  For a
    table with the keys of the demand, flows that are not negative, demands
    that are not negative and not all zero, and costs that are not
    negative, it gives a report whose average travel time, deviations (the
    integer written) and average excess cost are not negative, and the
    deviations do not exceed the flow that the table holds.  So it is at the end of a run of at
    least one iteration that returns, when no cost function is negative on
    a flow that is not: the deviations reported are at most the total
    demand. *)
Theorem measures_are_in_range (OD : dict Q) :
  NoDup (keys OD) -> Forall (fun x => (0 <= snd x)%Q) OD ->
  (forall tbl E,
      keys tbl = keys OD -> ~ (total_demand OD == 0)%Q ->
      table_nonneg tbl ->
      Forall (fun e : Edge.t Q => (0 <= Edge.cost e)%Q) E ->
      exists UE rep,
        evaluate_assignment OD tbl E true = Ok (UE, rep) /\
        (0 <= UE)%Q /\ average_travel_time rep = UE /\
        (0 <= deviations rep)%Z /\
        (inject_Z (deviations rep)
         <= Qsum (map (fun x => pair_flow (snd x)) tbl))%Q /\
        (0 <= AEC rep)%Q) /\
  (forall N E its UE rep st,
      Forall (fun e : Edge.t Q => (0 <= Edge.flow e)%Q) E ->
      Forall (fun e : Edge.t Q =>
                forall x, (0 <= x)%Q -> (0 <= Edge.function e x)%Q) E ->
      0 < its ->
      run_MSA its N E OD true = Ok (UE, rep, st) ->
      (0 < total_demand OD)%Q /\
      (0 <= UE)%Q /\ average_travel_time rep = UE /\
      (0 <= deviations rep)%Z /\
      (inject_Z (deviations rep) <= total_demand OD)%Q /\
      (0 <= AEC rep)%Q).
Proof.
  intros Hnd Hdem. split.
  - intros tbl E Hk Hnz Hnn Hcost.
    now destruct (evaluate_in_range E OD tbl Hnd Hk Hnz Hdem Hnn Hcost).
  - intros N E its UE rep st Hflow Hfun Hits Hrun.
    unfold run_MSA in Hrun. bind_inv Hrun. rename a into st0.
    bind_inv Hrun. injection Hrun as Hr Hst'. subst a st.
    assert (Hk : keys (table st0) = keys OD).
    { rewrite (msa_loop_keys _ _ _ _ Ha). apply init_table_keys. }
    assert (Hnz : ~ (total_demand OD == 0)%Q).
    { intros Hz.
      rewrite (evaluate_zero_demand OD (table st0) (edges st0) true Hz) in Ha0.
      - discriminate.
      - rewrite Hk. apply incl_refl. }
    destruct (msa_loop_pair_flow OD N E its st0 Hnd Ha) as [[Hnn Hdist] Hsum].
    specialize (Hsum Hits).
    assert (Hst : flows_nonneg st0).
    { clear Ha0 Hk Hnn Hdist Hsum. revert st0 Ha.
      induction its as [|its IH]; intros st0 H.
      - lia.
      - cbn [msa_loop] in H. bind_inv H. destruct its as [|its].
        + cbn [msa_loop] in Ha. injection Ha as <-.
          eapply msa_iteration_nonneg; eauto.
          split; [exact Hflow|apply init_table_nonneg].
        + eapply msa_iteration_nonneg; eauto. apply IH; auto. lia. }
    assert (Hcost : Forall (fun e : Edge.t Q => (0 <= Edge.cost e)%Q)
                           (edges st0)).
    { destruct its as [|its]; [lia|]. cbn [msa_loop] in Ha. bind_inv Ha.
      rename a into st1.
      assert (Htop : map topology (edges st0) = map topology E).
      { destruct (msa_iteration_topology _ _ _ _ Ha) as (_ & Ht & _).
        rewrite Ht. clear - Ha1. revert st1 Ha1.
        induction its as [|its IH]; cbn [msa_loop]; intros st1 H.
        - now injection H as <-.
        - bind_inv H. destruct (msa_iteration_topology _ _ _ _ H) as (_ & Ht & _).
          rewrite Ht. auto. }
      destruct (msa_iteration_topology _ _ _ _ Ha) as (_ & _ & Hup).
      pose proof (functions_of_topology E (edges st0)
                    (fun f => forall x, (0 <= x)%Q -> (0 <= f x)%Q) Htop Hfun)
        as Hf.
      destruct Hst as [Hfl _].
      rewrite Forall_forall in *. intros e He.
      destruct (Hup e He) as [-> _]. apply (Hf e He). now apply Hfl. }
    destruct (evaluate_in_range (edges st0) OD (table st0) Hnd Hk Hnz Hdem Hnn
                                Hcost)
      as (Htot & UE' & rep' & Heval & H1 & H2 & H3 & H4 & H5).
    rewrite Ha0 in Heval. injection Heval as <- <-.
    repeat (split; [assumption|]). split; [|assumption].
    eapply Qle_trans; [exact H4|].
    rewrite (table_flow_is_demand OD (table st0) Hk).
    + unfold total_demand. cbn [nadd nof_Z Q_Num].
      rewrite fold_Qplus_Qsum. change (inject_Z 0) with 0%Q. lra.
    + intros od routes D Hin1 Hin2.
      assert (HD : (0 <= D)%Q).
      { rewrite Forall_forall in Hdem. apply (Hdem (od, D) Hin2). }
      destruct (Hsum od D (dict_get_NoDup OD od D Hnd Hin2) HD)
        as (routes' & Hr & Hs).
      rewrite (dict_get_NoDup (table st0) od routes) in Hr.
      * injection Hr as <-. exact Hs.
      * rewrite Hk. exact Hnd.
      * exact Hin1.
Qed.

Lemma measures_are_in_range_witness :
  exists UE rep,
    evaluate_assignment diamond_demand diamond_table diamond_edges true
    = Ok (UE, rep) /\
    (0 <= UE)%Q /\ average_travel_time rep = UE /\
    (0 <= deviations rep)%Z /\
    (inject_Z (deviations rep)
     <= Qsum (map (fun x => pair_flow (snd x)) diamond_table))%Q /\
    (0 <= AEC rep)%Q.
Proof.
  destruct (measures_are_in_range diamond_demand) as [H _].
  - repeat constructor; simpl; tauto.
  - repeat constructor; vm_compute; discriminate.
  - apply H.
    + reflexivity.
    + intros H0; vm_compute in H0; discriminate.
    + repeat constructor; vm_compute; discriminate.
    + repeat constructor; vm_compute; discriminate.
Defined.

(** ** Successive averages *)

Section Averages.

Local Abbreviation Node := (Node.t Q).
Local Abbreviation Edge := (Edge.t Q).

Lemma msa_iteration_routes (OD : dict Q) (n : nat) (st st' : state) :
  NoDup (keys OD) ->
  msa_iteration OD n st = Ok st' ->
  forall od demand,
    dict_get OD od = Some demand ->
    exists best route_best routes routes',
      best_route (names (nodes st)) (edges st) od = Ok (best, route_best) /\
      dict_get (table st) od = Some routes /\
      dict_get (table st') od = Some routes' /\
      forall r,
        dict_get routes' r =
        match dict_get routes r with
        | Some (route, flow) =>
            Some (route,
                  blend_flow (1 / inject_Z (Z.of_nat n))%Q flow
                             (if String.eqb r best then demand else 0%Q))
        | None =>
            if String.eqb r best
            then Some (route_best,
                       blend_flow (1 / inject_Z (Z.of_nat n))%Q 0%Q demand)
            else None
        end.
Proof.
  intros Hnd H od demand Hd. unfold msa_iteration in H.
  bind_inv H. destruct a as [[N1 tbl1] mr].
  bind_inv H. destruct a as [tbl2 E2]. injection H as <-.
  cbn [table edges nodes].
  assert (Hin : In od (keys OD)) by (eapply dict_get_In_keys; eauto).
  destruct (all_or_nothing_tables _ _ _ _ _ _ _ _ Ha Hnd od) as [Hthis _].
  destruct (Hthis Hin) as (best & route & routes & Hb & Hm & Ht & Ht1).
  rewrite (best_route_map clear_aux) in Hb by reflexivity.
  destruct (blend_tables _ _ _ _ _ _ _ _ Ha0 Hnd od (best, route) demand
                         Hin Hm Hd) as (routes1 & routes' & Hr1 & Hr' & Hf).
  rewrite Ht1 in Hr1. injection Hr1 as <-.
  exists best, route, routes, routes'. repeat split; auto.
  intros r. rewrite Hf. cbn [fst]. unfold dict_mem.
  destruct (dict_get routes best) as [x|] eqn:Hbest.
  - destruct (dict_get routes r) as [[rt v]|] eqn:Hr; auto.
    destruct (String.eqb r best) eqn:He; auto.
    apply String.eqb_eq in He. congruence.
  - rewrite dict_get_set, (String.eqb_sym best r).
    destruct (String.eqb r best) eqn:He.
    + apply String.eqb_eq in He. subst r. now rewrite Hbest.
    + destruct (dict_get routes r) as [[rt v]|]; auto.
Qed.

Lemma inject_S (k : nat) :
  (inject_Z (Z.of_nat (S k)) == inject_Z (Z.of_nat k) + 1)%Q.
Proof. rewrite Nat2Z.inj_succ, <- Z.add_1_r, inject_Z_plus. reflexivity. Qed.

Lemma inject_nat_nonneg (k : nat) : (0 <= inject_Z (Z.of_nat k))%Q.
Proof. unfold Qle, inject_Z. simpl. lia. Qed.

Lemma inject_nat_add (a b : nat) :
  (inject_Z (Z.of_nat (a + b)) == inject_Z (Z.of_nat a) + inject_Z (Z.of_nat b))%Q.
Proof. rewrite Nat2Z.inj_add, inject_Z_plus. reflexivity. Qed.

Lemma init_table_get (OD : dict Q) (od : string) (D : Q) :
  dict_get OD od = Some D -> dict_get (init_table OD) od = Some [].
Proof.
  unfold init_table. induction OD as [|[k v] OD IH]; simpl; [discriminate|].
  destruct (String.eqb k od); auto.
Qed.

(** X17: the flows are successive averages.  After [its] iterations the
    flow of a route tracked for a pair, times [its], is the demand of the
    pair times the number of iterations in which that route was the one
    found for the pair; a route name that is not tracked was never the one
    found.  This holds in exact arithmetic for every pair whose demand is
    not negative. *)
Theorem flows_are_averages
        (OD : dict Q) (N : list Node) (E : list Edge) (its : nat) (st : state) :
  NoDup (keys OD) ->
  msa_loop OD its (mkState N E (init_table OD)) = Ok st ->
  forall od D,
    dict_get OD od = Some D -> (0 <= D)%Q ->
    exists routes,
      dict_get (table st) od = Some routes /\
      forall r,
        match dict_get routes r with
        | Some (route, flow) =>
            (flow * inject_Z (Z.of_nat its)
             == D * inject_Z (Z.of_nat
                                (times_best OD its
                                            (mkState N E (init_table OD)) od r)))%Q
        | None =>
            times_best OD its (mkState N E (init_table OD)) od r = 0
        end.
Proof.
  intros Hnd. set (st0 := mkState N E (init_table OD)).
  revert st; induction its as [|k IH]; intros st Hl od D Hd HD.
  - injection Hl as <-. exists []. split; [now apply (init_table_get OD od D)|].
    intros r. reflexivity.
  - cbn [msa_loop] in Hl. bind_inv Hl. rename a into stk.
    destruct (IH stk Ha od D Hd HD) as (routes0 & Hr0 & Hprev).
    destruct (msa_loop_pair_flow OD N E k stk Hnd Ha) as [[Hnn _] _].
    destruct (msa_iteration_routes OD (S k) stk st Hnd Hl od D Hd)
      as (best & route_best & routes & routes' & Hb & Hr & Hr' & Hf).
    fold st0 in Ha, Hr0. rewrite Hr in Hr0. injection Hr0 as <-.
    exists routes'. split; [exact Hr'|]. intros r.
    cbn [times_best]. fold st0. rewrite Ha. unfold is_best. rewrite Hb.
    specialize (Hprev r). rewrite Hf.
    assert (Hk1 : (0 < inject_Z (Z.of_nat k) + 1)%Q).
    { pose proof (inject_nat_nonneg k). lra. }
    assert (Hphi0 : (0 <= 1 / inject_Z (Z.of_nat (S k)))%Q).
    { rewrite inject_S. apply Qle_shift_div_l; auto. lra. }
    assert (Hphi1 : (1 / inject_Z (Z.of_nat (S k)) <= 1)%Q).
    { rewrite inject_S. apply Qle_shift_div_r; auto.
      pose proof (inject_nat_nonneg k). lra. }
    assert (Hfa : (0 <= (if String.eqb r best then D else 0))%Q).
    { destruct (String.eqb r best); lra. }
    destruct (dict_get routes r) as [[route flow]|] eqn:Hrr;
      cbv beta iota in Hprev.
    + assert (Hflow : (0 <= flow)%Q).
      { unfold table_nonneg in Hnn.
        pose proof (Forall_dict_get
                      (fun routes1 : routes_flow =>
                         Forall (fun y => (0 <= snd (snd y))%Q) routes1)
                      _ _ _ Hnn Hr) as Hrs.
        apply (Forall_dict_get (fun y : list nat * Q => (0 <= snd y)%Q)
                               routes r (route, flow) Hrs Hrr). }
      rewrite (blend_flow_exact _ _ _ Hphi0 Hphi1 Hflow Hfa).
      rewrite inject_nat_add, inject_S, (Qmult_plus_distr_r D), <- Hprev.
      destruct (String.eqb r best); simpl Z.of_nat;
        change (inject_Z 1) with 1%Q; change (inject_Z 0) with 0%Q; field; lra.
    + destruct (String.eqb r best).
      * rewrite (blend_flow_exact _ _ _ Hphi0 Hphi1 (Qle_refl 0) HD).
        rewrite Hprev, inject_S. change (inject_Z (Z.of_nat (0 + 1))) with 1%Q.
        field. lra.
      * rewrite Hprev. reflexivity.
Qed.

End Averages.

Lemma flows_are_averages_witness :
  exists st routes,
    msa_loop diamond_demand 3 diamond_start = Ok st /\
    dict_get (table st) "A|D" = Some routes /\
    forall r,
      match dict_get routes r with
      | Some (route, flow) =>
          (flow * inject_Z (Z.of_nat 3)
           == 10 * inject_Z (Z.of_nat
                               (times_best diamond_demand 3 diamond_start
                                           "A|D" r)))%Q
      | None => times_best diamond_demand 3 diamond_start "A|D" r = 0
      end.
Proof.
  destruct (msa_loop diamond_demand 3 diamond_start) as [st| |] eqn:H;
    [|vm_compute in H; discriminate..].
  destruct (flows_are_averages diamond_demand diamond_nodes diamond_edges 3 st)
    with (od := "A|D") (D := 10%Q) as (routes & Hr & Hall).
  - repeat constructor. simpl. tauto.
  - exact H.
  - reflexivity.
  - vm_compute. discriminate.
  - exists st, routes. auto.
Defined.
